(** * polarity.spectrogram: the reassignment engine and its FFT and window primitives

    A shallow embedding of [utils/mathHelpers.js], [utils/windowFunctions.js],
    [utils/fft.js] and [timeFrequencyReassignment.js], of [utils/midiUtils.js]
    and of the functions of [spectrogramRenderer.js] that compute without
    drawing: the persistence score and the MIDI export.

    Numbers.  A JavaScript number is modelled by [num]: an exact real, or one
    of the IEEE-754 special values NaN, +Infinity, -Infinity.  The special
    values follow ECMAScript; on finite values the operations are those of
    real arithmetic.  Rounding (to binary64, and to binary32 when a value is
    stored in a [Float32Array]), overflow and the sign of zero are abstracted.

    Arrays.  A typed array is a [list num].  Reading outside the array gives
    [undefined], which every use in this code coerces to NaN; writing outside
    the array does nothing.

    Loops.  A [for] loop over a known range is a fold over that range.  A
    [while] loop takes a [fuel] argument bounding its iterations and returns
    [None] when the bound is reached. *)

From Stdlib Require Import Reals Lra Lia ZArith.
From stdpp Require Import base option list.

(** ** Numbers *)

Module Num.

Local Open Scope R_scope.

Inductive num : Type :=
| NaN
| Fin (r : R)
| PInf
| NInf.

Definition Rltb (x y : R) : bool := if Rlt_dec x y then true else false.
Definition Rleb (x y : R) : bool := if Rle_dec x y then true else false.
Definition Reqb (x y : R) : bool := if Req_dec_T x y then true else false.

Definition ofZ (z : Z) : num := Fin (IZR z).
Definition ofNat (n : nat) : num := Fin (INR n).

Definition neg (x : num) : num :=
  match x with
  | NaN => NaN
  | Fin a => Fin (- a)
  | PInf => NInf
  | NInf => PInf
  end.

Definition add (x y : num) : num :=
  match x, y with
  | NaN, _ | _, NaN => NaN
  | Fin a, Fin b => Fin (a + b)
  | PInf, NInf | NInf, PInf => NaN
  | PInf, _ | _, PInf => PInf
  | NInf, _ | _, NInf => NInf
  end.

Definition sub (x y : num) : num := add x (neg y).

(** The sign of [infinity * a]: zero times infinity is NaN. *)
Definition scaleInf (positive : bool) (a : R) : num :=
  if Rltb 0 a then (if positive then PInf else NInf)
  else if Rltb a 0 then (if positive then NInf else PInf)
  else NaN.

Definition mul (x y : num) : num :=
  match x, y with
  | NaN, _ | _, NaN => NaN
  | Fin a, Fin b => Fin (a * b)
  | Fin a, PInf | PInf, Fin a => scaleInf true a
  | Fin a, NInf | NInf, Fin a => scaleInf false a
  | PInf, PInf | NInf, NInf => PInf
  | PInf, NInf | NInf, PInf => NInf
  end.

Definition div (x y : num) : num :=
  match x, y with
  | NaN, _ | _, NaN => NaN
  | Fin a, Fin b => if Reqb b 0 then scaleInf true a else Fin (a / b)
  | Fin _, (PInf | NInf) => Fin 0
  | PInf, Fin b => if Rltb b 0 then NInf else PInf
  | NInf, Fin b => if Rltb b 0 then PInf else NInf
  | (PInf | NInf), (PInf | NInf) => NaN
  end.

(** Comparisons are false as soon as one side is NaN. *)
Definition lt (x y : num) : bool :=
  match x, y with
  | NaN, _ | _, NaN => false
  | Fin a, Fin b => Rltb a b
  | _, NInf => false
  | PInf, _ => false
  | NInf, _ => true
  | Fin _, PInf => true
  end.

Definition le (x y : num) : bool :=
  match x, y with
  | NaN, _ | _, NaN => false
  | Fin a, Fin b => Rleb a b
  | NInf, _ => true
  | _, PInf => true
  | _, NInf => false
  | PInf, _ => false
  end.

Definition gt (x y : num) : bool := lt y x.
Definition ge (x y : num) : bool := le y x.

(** [Math.abs], [Math.sqrt], [Math.exp], [Math.cos], [Math.sin] *)
Definition abs (x : num) : num :=
  match x with
  | NaN => NaN
  | Fin a => Fin (Rabs a)
  | PInf | NInf => PInf
  end.

Definition sqrt (x : num) : num :=
  match x with
  | NaN | NInf => NaN
  | Fin a => if Rltb a 0 then NaN else Fin (R_sqrt.sqrt a)
  | PInf => PInf
  end.

Definition exp (x : num) : num :=
  match x with
  | NaN => NaN
  | Fin a => Fin (Rtrigo_def.exp a)
  | PInf => PInf
  | NInf => Fin 0
  end.

Definition cos (x : num) : num :=
  match x with
  | Fin a => Fin (Rtrigo_def.cos a)
  | _ => NaN
  end.

Definition sin (x : num) : num :=
  match x with
  | Fin a => Fin (Rtrigo_def.sin a)
  | _ => NaN
  end.

Definition pi : num := Fin PI.

(** [Math.atan2 (y, x)] on reals: the angle of the point [(x, y)]. *)
Definition Ratan2 (y x : R) : R :=
  if Rltb 0 x then atan (y / x)
  else if Rltb x 0 then (if Rltb y 0 then atan (y / x) - PI else atan (y / x) + PI)
  else if Rltb 0 y then PI / 2
  else if Rltb y 0 then - (PI / 2)
  else 0.

Definition atan2 (y x : num) : num :=
  match y, x with
  | NaN, _ | _, NaN => NaN
  | Fin b, Fin a => Fin (Ratan2 b a)
  | Fin b, PInf => Fin 0
  | Fin b, NInf => if Rltb b 0 then Fin (- PI) else Fin PI
  | PInf, Fin _ => Fin (PI / 2)
  | NInf, Fin _ => Fin (- (PI / 2))
  | PInf, PInf => Fin (PI / 4)
  | PInf, NInf => Fin (3 * PI / 4)
  | NInf, PInf => Fin (- (PI / 4))
  | NInf, NInf => Fin (- (3 * PI / 4))
  end.

(** [Math.max] and [Math.min] of two arguments, and [Math.max] of a spread
    array (which is -Infinity on no argument). *)
Definition max (x y : num) : num :=
  match x, y with
  | NaN, _ | _, NaN => NaN
  | _, _ => if lt x y then y else x
  end.

Definition min (x y : num) : num :=
  match x, y with
  | NaN, _ | _, NaN => NaN
  | _, _ => if lt y x then y else x
  end.

Definition maxList (l : list num) : num := fold_left max l NInf.

(** [Math.round]: the nearest integer, halves rounded up. *)
Definition round (x : num) : num :=
  match x with
  | Fin a => Fin (IZR (Zfloor (a + / 2)))
  | _ => x
  end.

Definition isInteger (a : R) : bool := Reqb (IZR (Zfloor a)) a.
Definition isOdd (a : R) : bool := isInteger a && Z.odd (Zfloor a).

(** [Math.pow (x, y)], after ECMAScript's Number::exponentiate. *)
Definition pow (x y : num) : num :=
  match y with
  | NaN => NaN
  | Fin b =>
      if Reqb b 0 then Fin 1
      else
        match x with
        | NaN => NaN
        | PInf => if Rltb 0 b then PInf else Fin 0
        | NInf => if Rltb 0 b then (if isOdd b then NInf else PInf) else Fin 0
        | Fin a =>
            if isInteger b then
              if Reqb a 0 && Rltb b 0 then PInf else Fin (powerRZ a (Zfloor b))
            else if Rltb 0 a then Fin (Rpower a b)
            else if Rltb a 0 then NaN
            else if Rltb 0 b then Fin 0 else PInf
        end
  | PInf =>
      match x with
      | NaN => NaN
      | Fin a => if Rltb 1 (Rabs a) then PInf else if Reqb (Rabs a) 1 then NaN else Fin 0
      | PInf | NInf => PInf
      end
  | NInf =>
      match x with
      | NaN => NaN
      | Fin a => if Rltb 1 (Rabs a) then Fin 0 else if Reqb (Rabs a) 1 then NaN else PInf
      | PInf | NInf => Fin 0
      end
  end.

(** Storing a number in a [Uint8Array]: NaN and the infinities become 0, a
    finite value is truncated towards zero and reduced modulo 256. *)
Definition toUint8 (x : num) : Z :=
  match x with
  | Fin a => (if Rltb a 0 then - Zfloor (- a) else Zfloor a) mod 256
  | _ => 0
  end.

(** A number used as an array index: only a non-negative integer names an
    element. *)
Definition asIndex (x : num) : option nat :=
  match x with
  | Fin a => if isInteger a && Rleb 0 a then Some (Z.to_nat (Zfloor a)) else None
  | _ => None
  end.

Definition isFin (x : num) : Prop := exists r, x = Fin r.

End Num.

Import Num.

(** ** Typed arrays and loops *)

Definition zeros (n : nat) : list num := replicate n (Fin 0).

(** [a[i]] read as a number *)
Definition get (a : list num) (i : nat) : num := default NaN (a !! i).

(** [a[i] = v] *)
Definition set (a : list num) (i : nat) (v : num) : list num := <[i := v]> a.

(** [a.slice (from, to)] for [0 <= from] *)
Definition slice (a : list num) (from to : nat) : list num :=
  take (to - from) (drop from a).

(** [for (let i = 0; i < n; i++) s = body (i, s)] *)
Definition forUpTo {S : Type} (n : nat) (body : nat -> S -> S) (s : S) : S :=
  fold_left (fun s i => body i s) (seq 0 n) s.

(** The same loop when the body may fail to terminate. *)
Definition forUpToM {S : Type} (n : nat) (body : nat -> S -> option S) (s : S)
  : option S :=
  fold_left (fun o i => o ≫= body i) (seq 0 n) (Some s).

(** [while (cond (s)) s = body (s)], at most [fuel] tests of the condition *)
Fixpoint while {S : Type} (fuel : nat) (cond : S -> bool) (body : S -> S) (s : S)
  : option S :=
  match fuel with
  | O => None
  | Datatypes.S fuel' =>
      if cond s then while fuel' cond body (body s) else Some s
  end.

(** ** utils/mathHelpers.js *)

Fixpoint factorial (n : nat) : num :=
  match n with
  | O => Fin 1
  | S m => if (n <=? 1)%nat then Fin 1 else mul (ofNat n) (factorial m)
  end.

Fixpoint evaluateHermitePolynomial (n : nat) (x : num) : num :=
  match n with
  | O => Fin 1
  | S n1 =>
      match n1 with
      | O => mul (Fin 2) x
      | S n2 =>
          sub (mul (mul (Fin 2) x) (evaluateHermitePolynomial n1 x))
              (mul (mul (Fin 2) (ofNat (n - 1))) (evaluateHermitePolynomial n2 x))
      end
  end.

(** ** utils/windowFunctions.js *)

Record windows : Type := mkWindows { h : list num; Dh : list num; Th : list num }.

(** The time points [t[i] = -tm + i * dt]. *)
Definition timePoints (N : nat) (tm : num) : list num :=
  let dt := div (mul (Fin 2) tm) (ofZ (Z.of_nat N - 1)) in
  forUpTo N (fun i t => set t i (add (neg tm) (mul (ofNat i) dt))) (zeros N).

Definition hermiteNorm (k : nat) : num :=
  sqrt (mul (mul (sqrt pi) (pow (Fin 2) (ofNat k))) (factorial k)).

(** The body of the inner loop: the three stores for taper [k], sample [i]. *)
Definition hermiteStore (N : nat) (t : list num) (k : nat) (norm : num)
    (i : nat) (w : windows) : windows :=
  let x := get t i in
  let hermite := evaluateHermitePolynomial k x in
  let gauss := exp (div (mul (neg x) x) (Fin 2)) in
  let h' := set (h w) (k * N + i) (div (mul hermite gauss) norm) in
  let Dh' := set (Dh w) (k * N + i)
               (div (mul (sub (mul (ofNat k) hermite) (mul x hermite)) gauss) norm) in
  let Th' := set (Th w) (k * N + i) (mul x (get h' (k * N + i))) in
  mkWindows h' Dh' Th'.

Definition createHermiteFunctions (N M : nat) (tm : num) : windows :=
  let t := timePoints N tm in
  forUpTo M (fun k w => forUpTo N (hermiteStore N t k (hermiteNorm k)) w)
    (mkWindows (zeros (M * N)) (zeros (M * N)) (zeros (M * N))).

(** ** utils/fft.js *)

(** The swap of the complex values [i] and [j] of the bit reversal. *)
Definition swapComplex (fft : list num) (i j : nat) : list num :=
  let tempReal := get fft (i * 2) in
  let tempImag := get fft (i * 2 + 1) in
  let fft1 := set fft (i * 2) (get fft (j * 2)) in
  let fft2 := set fft1 (i * 2 + 1) (get fft1 (j * 2 + 1)) in
  let fft3 := set fft2 (j * 2) tempReal in
  set fft3 (j * 2 + 1) tempImag.

(** [let k = N >> 1; while (k <= j) { j -= k; k >>= 1 }; j += k] *)
Definition nextReversed (fuel N j : nat) : option nat :=
  '(j', k') ← while fuel (fun '(j, k) => k <=? j)
                         (fun '(j, k) => (j - k, Nat.shiftr k 1))
                         (j, Nat.shiftr N 1);
  Some (j' + k').

(** The body of the bit-reversal loop, on the pair of the array and [j]. *)
Definition bitReversalBody (fuel N i : nat) (s : list num * nat)
  : option (list num * nat) :=
  let '(fft, j) := s in
  let fft' := if i <? j then swapComplex fft i j else fft in
  j' ← nextReversed fuel N j;
  Some (fft', j').

Definition bitReversal (fuel N : nat) (fft : list num) : option (list num) :=
  fst <$> forUpToM (N - 1) (bitReversalBody fuel N) (fft, 0).

(** The body of the innermost loop: one butterfly. *)
Definition butterfly (step group : nat) (cosVal sinVal : num) (pair : nat)
    (fft : list num) : list num :=
  let groupOffset := group * 2 in
  let pairOffset := pair * 2 in
  let evenIndex := groupOffset + pairOffset in
  let oddIndex := evenIndex + step * 2 in
  let evenReal := get fft evenIndex in
  let evenImag := get fft (evenIndex + 1) in
  let oddReal := get fft oddIndex in
  let oddImag := get fft (oddIndex + 1) in
  let factor := div (ofNat pair) (ofNat step) in
  let rotReal := mul cosVal factor in
  let rotImag := mul sinVal factor in
  let tempReal := sub (mul oddReal rotReal) (mul oddImag rotImag) in
  let tempImag := add (mul oddReal rotImag) (mul oddImag rotReal) in
  let fft1 := set fft oddIndex (sub evenReal tempReal) in
  let fft2 := set fft1 (oddIndex + 1) (sub evenImag tempImag) in
  let fft3 := set fft2 evenIndex (add evenReal tempReal) in
  set fft3 (evenIndex + 1) (add evenImag tempImag).

(** The values [0, stride, 2 * stride, ...] below [N] taken by
    [for (let g = 0; g < N; g += stride)]; [bound] is a number of iterations
    the loop cannot exceed. *)
Fixpoint stridedFrom (bound N stride g : nat) : list nat :=
  match bound with
  | O => []
  | S bound' =>
      if g <? N then g :: stridedFrom bound' N stride (g + stride) else []
  end.

Definition groupsOf (N step : nat) : list nat := stridedFrom N N (step * 2) 0.

(** The values [1, 2, 4, ...] below [N] taken by
    [for (let step = 1; step < N; step <<= 1)]. *)
Fixpoint doublingFrom (bound N step : nat) : list nat :=
  match bound with
  | O => []
  | S bound' =>
      if step <? N then step :: doublingFrom bound' N (Nat.shiftl step 1) else []
  end.

Definition stepsOf (N : nat) : list nat := doublingFrom N N 1.

(** One stage: every group, every pair. *)
Definition stage (N : nat) (fft : list num) (step : nat) : list num :=
  let halfStep := step in
  let angle := div (neg pi) (ofNat halfStep) in
  fold_left
    (fun fft group =>
       let cosVal := cos angle in
       let sinVal := sin angle in
       forUpTo step (butterfly step group cosVal sinVal) fft)
    (groupsOf N step) fft.

Definition performFFT (fuel : nat) (input : list num) : option (list num) :=
  let N := (length input / 2)%nat in
  fft ← bitReversal fuel N input;
  Some (fold_left (stage N) (stepsOf N) fft).

(** The running maximum and sum of the windowed samples that the source
    keeps are never read; they are left out. *)
Definition computeSTFT (fuel : nat) (data window : list num) : option (list num) :=
  let N := length data in
  let windowedData :=
    forUpTo N (fun i w => set w i (mul (get data i) (get window i))) (zeros N) in
  let result :=
    forUpTo N (fun i r => set (set r (i * 2) (get windowedData i)) (i * 2 + 1) (Fin 0))
      (zeros (N * 2)) in
  performFFT fuel result.

(** Complex bin [b] of an interleaved spectrum, and its magnitude. *)
Definition magnitude (spectrum : list num) (b : nat) : num :=
  let real := get spectrum (b * 2) in
  let imag := get spectrum (b * 2 + 1) in
  sqrt (add (mul real real) (mul imag imag)).

(** ** timeFrequencyReassignment.js *)

Definition WINDOW_SIZE : nat := 2048.

(** [Math.floor] *)
Definition floor (x : num) : num :=
  match x with
  | Fin a => Fin (IZR (Zfloor a))
  | _ => x
  end.

(** The number of frames, as the source computes it on numbers. *)
Definition nFramesOf (len step : nat) : num :=
  max (Fin 1)
      (add (floor (div (ofZ (Z.of_nat len - Z.of_nat WINDOW_SIZE)) (ofNat step)))
           (Fin 1)).

(** How many times [for (let frame = 0; frame < n; frame++)] runs its body;
    [None] when it never stops. *)
Definition iterationsBelow (n : num) : option nat :=
  match n with
  | Fin r => Some (Z.to_nat (Zceil r))
  | PInf => None
  | NaN | NInf => Some O
  end.

Definition normalize (audioData : list num) : list num :=
  let maxAmp := maxList (abs <$> audioData) in
  let amplificationFactor := Fin 200 in
  forUpTo (length audioData)
    (fun i a => set a i (mul (div (get audioData i) maxAmp) amplificationFactor))
    (zeros (length audioData)).

Definition frameData (normalizedData : list num) (step frame : nat) : list num :=
  let startIdx := frame * step in
  slice normalizedData startIdx (startIdx + WINDOW_SIZE).

(** The variables the loop over the bins updates, [previousPhase] being the
    module-level buffer. *)
Record binState : Type := mkBinState {
  tfr : list num;
  maxMagnitude : num;
  previousPhase : list num
}.

(** The two [while] loops that wrap the offset. *)
Definition wrapOffset (fuel : nat) (instFreqOffset : num) : option num :=
  x ← while fuel (fun x => gt x pi) (fun x => sub x (mul (Fin 2) pi)) instFreqOffset;
  while fuel (fun x => lt x (neg pi)) (fun x => add x (mul (Fin 2) pi)) x.

Definition binFreqOf (sampleRate : num) (bin : nat) : num :=
  div (mul (ofNat bin) sampleRate) (ofNat WINDOW_SIZE).

(** The limited frequency offset [freqOffset] of a bin. *)
Definition freqOffsetOf (fuel : nat) (sampleRate : num) (stft freqMod : list num)
    (bin : nat) : option num :=
  let real := get stft (bin * 2) in
  let imag := get stft (bin * 2 + 1) in
  let phase := atan2 imag real in
  let freqReal := get freqMod (bin * 2) in
  let freqImag := get freqMod (bin * 2 + 1) in
  let freqPhase := atan2 freqImag freqReal in
  instFreqOffset ← wrapOffset fuel (div (sub freqPhase phase) (mul (Fin 2) pi));
  let maxOffset := Fin 50 in
  Some (max (neg maxOffset)
            (min maxOffset (div (mul instFreqOffset sampleRate) (ofNat WINDOW_SIZE)))).

Definition reassignedBinOf (sampleRate : num) (bin : nat) (freqOffset : num) : num :=
  let reassignedFreq := add (binFreqOf sampleRate bin) freqOffset in
  round (div (mul reassignedFreq (ofNat WINDOW_SIZE)) sampleRate).

(** [tfr[reassignedBin] += v] *)
Definition accumulate (tfr : list num) (reassignedBin v : num) : list num :=
  match asIndex reassignedBin with
  | Some b => set tfr b (add (get tfr b) v)
  | None => tfr
  end.

(** The body of the loop over the bins. *)
Definition binStep (fuel : nat) (sampleRate : num) (stft freqMod : list num)
    (bin : nat) (s : binState) : option binState :=
  let real := get stft (bin * 2) in
  let imag := get stft (bin * 2 + 1) in
  let mag := sqrt (add (mul real real) (mul imag imag)) in
  let binFreq := binFreqOf sampleRate bin in
  let targetFreq := Fin 500 in
  let freqWeight :=
    exp (div (neg (pow (sub binFreq targetFreq) (Fin 2)))
             (mul (mul (Fin 2) (Fin 100)) (Fin 100))) in
  if gt mag (mul (maxMagnitude s) (Fin (1 / 100))) then
    let maxMagnitude' := max (maxMagnitude s) mag in
    let phase := atan2 imag real in
    let previousPhase' := set (previousPhase s) bin phase in
    freqOffset ← freqOffsetOf fuel sampleRate stft freqMod bin;
    let reassignedBin := reassignedBinOf sampleRate bin freqOffset in
    if ge reassignedBin (Fin 0) && lt reassignedBin (ofNat (WINDOW_SIZE / 2)) then
      let distance := abs (sub reassignedBin (ofNat bin)) in
      let sigma := Fin (1 / 2) in
      let weight :=
        exp (div (mul (neg distance) distance) (mul (mul (Fin 2) sigma) sigma)) in
      let finalWeight :=
        mul (mul weight freqWeight) (pow (div mag maxMagnitude') (Fin 2)) in
      Some (mkBinState (accumulate (tfr s) reassignedBin (mul mag finalWeight))
                       maxMagnitude' previousPhase')
    else Some (mkBinState (tfr s) maxMagnitude' previousPhase')
  else Some s.

(** The body of the loop over the tapers. *)
Definition taperStep (fuel : nat) (sampleRate : num) (w : windows)
    (frame : list num) (k : nat) (s : binState) : option binState :=
  let timeWindow := slice (h w) (k * WINDOW_SIZE) ((k + 1) * WINDOW_SIZE) in
  let freqWindow := slice (Dh w) (k * WINDOW_SIZE) ((k + 1) * WINDOW_SIZE) in
  stft ← computeSTFT fuel frame timeWindow;
  freqMod ← computeSTFT fuel frame freqWindow;
  forUpToM (WINDOW_SIZE / 2) (binStep fuel sampleRate stft freqMod) s.

(** The conversion of one frame's [tfr] to the output bytes. *)
Definition writeResult (tfr : list num) (result : list Z) : list Z :=
  let maxVal := maxList tfr in
  if gt maxVal (Fin 0) then
    forUpTo (WINDOW_SIZE / 2)
      (fun i r =>
         let normalized := div (get tfr i) maxVal in
         let enhanced := pow normalized (Fin (1 / 10)) in
         <[i := toUint8 (min (Fin 255)
                             (max (Fin 0) (mul (mul enhanced (Fin 255)) (Fin 5))))]> r)
      result
  else result.

(** The body of the loop over the frames, on the pair of [result] and
    [previousPhase]. *)
Definition frameStep (fuel : nat) (sampleRate : num) (w : windows)
    (normalizedData : list num) (step K frame : nat) (s : list Z * list num)
  : option (list Z * list num) :=
  let '(result, phases) := s in
  let frame' := frameData normalizedData step frame in
  s' ← forUpToM K (taperStep fuel sampleRate w frame')
         (mkBinState (zeros (WINDOW_SIZE / 2)) (Fin 0) phases);
  Some (writeResult (tfr s') result, previousPhase s').

(** [analyzeReassignment (audioData, sampleRate, step, K, tm)], run with the
    module-level buffer [previousPhase] holding [phases]; the result is the
    returned [Uint8Array] and the buffer the call leaves behind. *)
Definition analyzeReassignment (fuel : nat) (phases : list num)
    (audioData : list num) (sampleRate : num) (step K : nat) (tm : num)
  : option (list Z * list num) :=
  let w := createHermiteFunctions WINDOW_SIZE K tm in
  let normalizedData := normalize audioData in
  let nFrames := nFramesOf (length audioData) step in
  let result := replicate (WINDOW_SIZE / 2) 0%Z in
  n ← iterationsBelow nFrames;
  forUpToM n (frameStep fuel sampleRate w normalizedData step K) (result, phases).

(** ** More of the number model: [Math.log2], [%] and the 32-bit operators *)

Definition log2 (x : num) : num :=
  match x with
  | Fin a => if Rltb a 0 then NaN else if Reqb a 0 then NInf else Fin (ln a / ln 2)
  | PInf => PInf
  | NaN | NInf => NaN
  end.

(** The integer part of a real, towards zero. *)
Definition truncate (a : R) : Z := if Rltb a 0 then (- Zfloor (- a))%Z else Zfloor a.

(** ECMAScript's ToInt32: NaN and the infinities are 0, a finite value is
    truncated and reduced modulo [2 ^ 32] into [-2 ^ 31 .. 2 ^ 31 - 1]. *)
Definition toInt32 (x : num) : Z :=
  match x with
  | Fin a =>
      let n := (truncate a mod 2 ^ 32)%Z in
      if (2 ^ 31 <=? n)%Z then (n - 2 ^ 32)%Z else n
  | _ => 0%Z
  end.

(** [x & y], [x | y], and [x >> n] for a literal count [0 <= n < 32] *)
Definition bitAnd (x y : num) : num := ofZ (Z.land (toInt32 x) (toInt32 y)).
Definition bitOr (x y : num) : num := ofZ (Z.lor (toInt32 x) (toInt32 y)).
Definition shiftRight (x : num) (n : Z) : num := ofZ (Z.shiftr (toInt32 x) n).

(** [a.sort ((p, q) => cmp (p, q))].  The sort is stable; a comparison that
    yields NaN counts as 0.  For a comparator that is not consistent (one that
    meets NaN) ECMAScript leaves the order to the engine; this is the order of
    an insertion sort. *)
Fixpoint insertSorted {A : Type} (cmp : A -> A -> num) (v : A) (sorted : list A)
  : list A :=
  match sorted with
  | [] => [v]
  | u :: rest =>
      if gt (cmp u v) (Fin 0) then v :: sorted else u :: insertSorted cmp v rest
  end.

Definition sortArray {A : Type} (cmp : A -> A -> num) (a : list A) : list A :=
  fold_left (fun sorted v => insertSorted cmp v sorted) a [].

(** ** utils/midiUtils.js *)

Module MidiUtils.

Definition frequencyToMIDI (frequency : num) : num :=
  round (add (Fin 69) (mul (Fin 12) (log2 (div frequency (Fin 440))))).

Definition MIDIToFrequency (midi : num) : num :=
  mul (Fin 440) (pow (Fin 2) (div (sub midi (Fin 69)) (Fin 12))).

(** The MIDI data [saveMidiFile] receives; [name] holds the UTF-16 code units
    of the track's name. *)
Record note : Type := mkNote {
  noteNumber : num;
  startTime : num;
  duration : num;
  velocity : num
}.

Record track : Type := mkTrack { name : list nat; notes : list note }.

Record midiData : Type := mkMidiData { ticksPerBeat : num; tracks : list track }.

Definition header (d : midiData) : list num :=
  (ofZ <$> [0x4D; 0x54; 0x68; 0x64; 0x00; 0x00; 0x00; 0x06; 0x00; 0x01; 0x00; 0x01]%Z)
  ++ [bitAnd (shiftRight (ticksPerBeat d) 8) (ofZ 0xFF);
      bitAnd (ticksPerBeat d) (ofZ 0xFF)].

(** The events pushed before the sort: the track name, the tempo, and a note
    on and a note off for every note.  An event is the array of its time
    followed by its bytes. *)
Definition nameEvent (t : track) : list num :=
  (ofZ <$> [0x00; 0xFF; 0x03]%Z) ++ [ofNat (length (name t))] ++ (ofNat <$> name t).

Definition tempoEvent : list num :=
  ofZ <$> [0x00; 0xFF; 0x51; 0x03; 0x07; 0xA1; 0x20]%Z.

Definition noteEvents (n : note) : list (list num) :=
  [[startTime n; ofZ 0x90; noteNumber n; velocity n];
   [add (startTime n) (duration n); ofZ 0x80; noteNumber n; ofZ 0]].

Definition pushedEvents (t : track) : list (list num) :=
  fold_left (fun events n => events ++ noteEvents n) (notes t) [nameEvent t; tempoEvent].

(** The loop "Convert delta times": [lastTime] is read back from [event[0]]
    after the delta has been stored there.  Every event holds at least four
    entries, so the store is inside the array. *)
Definition toDeltaTimes (events : list (list num)) : list (list num) :=
  fst (fold_left
         (fun '(converted, lastTime) event =>
            let deltaTime := sub (get event 0) lastTime in
            let event' := set event 0 deltaTime in
            (converted ++ [event'], get event' 0))
         events ([], Fin 0)).

(** The bytes written for one delta time. *)
Definition variableLength (fuel : nat) (deltaTime : num) : option (list num) :=
  if gt deltaTime (Fin 0) then
    fst <$>
      while fuel (fun '(_, deltaTime) => gt deltaTime (Fin 0))
        (fun '(bytes, deltaTime) =>
           let bytes1 := bitAnd deltaTime (ofZ 0x7F) :: bytes in
           let deltaTime' := shiftRight deltaTime 7 in
           let bytes2 :=
             if (1 <? length bytes1)%nat
             then set bytes1 0 (bitOr (get bytes1 0) (ofZ 0x80)) else bytes1 in
           (bytes2, deltaTime'))
        ([], deltaTime)
  else Some [Fin 0].

Definition writeEvent (fuel : nat) (trackData : list num) (event : list num)
  : option (list num) :=
  bytes ← variableLength fuel (get event 0);
  Some (trackData ++ bytes ++ drop 1 event).

Definition trackDataOf (fuel : nat) (events : list (list num)) : option (list num) :=
  trackData ← fold_left (fun acc event => acc ≫= fun t => writeEvent fuel t event)
                 events (Some []);
  Some (trackData ++ (ofZ <$> [0x00; 0xFF; 0x2F; 0x00]%Z)).

Definition trackHeader (len : nat) : list num :=
  (ofZ <$> [0x4D; 0x54; 0x72; 0x6B]%Z)
  ++ [bitAnd (shiftRight (ofNat len) 24) (ofZ 0xFF);
      bitAnd (shiftRight (ofNat len) 16) (ofZ 0xFF);
      bitAnd (shiftRight (ofNat len) 8) (ofZ 0xFF);
      bitAnd (ofNat len) (ofZ 0xFF)].

(** [saveMidiFile (midiData, filename)] up to [fileData], the bytes handed to
    the [Blob]; the download through the document is not modelled.  [None]
    when the call does not reach that point: [midiData.tracks[0]] is missing
    (the source throws), or the [while] loop ran out of [fuel]. *)
Definition saveMidiFile (fuel : nat) (d : midiData) : option (list Z) :=
  t ← tracks d !! 0%nat;
  let events :=
    toDeltaTimes (sortArray (fun a b => sub (get a 0) (get b 0)) (pushedEvents t)) in
  trackData ← trackDataOf fuel events;
  Some (toUint8 <$> (header d ++ trackHeader (length trackData) ++ trackData)).

End MidiUtils.

(** ** spectrogramRenderer.js *)

Module Renderer.

Definition TICKS_PER_BEAT : num := Fin 480.
Definition PIXELS_PER_BEAT : num := Fin 100.
Definition PERSISTENCE_WINDOW : num := Fin 500.
Definition PERSISTENCE_MIN_AMPLITUDE : num := Fin (15 / 100).

(** An entry of a frequency's history. *)
Record entry : Type := mkEntry { time : num; amplitude : num }.

Definition calculatePersistenceScore (history : list entry) : num :=
  if (length history =? 0)%nat then Fin 0
  else
    let lastTime := from_option time NaN (last history) in
    let recentHistory :=
      List.filter (fun e => ge (time e) (sub lastTime PERSISTENCE_WINDOW)) history in
    if (length recentHistory =? 0)%nat then Fin 0
    else
      let avgAmplitude :=
        div (fold_left (fun sum e => add sum (amplitude e)) recentHistory (Fin 0))
            (ofNat (length recentHistory)) in
      if lt avgAmplitude (mul PERSISTENCE_MIN_AMPLITUDE (Fin 255)) then Fin 0
      else
        let variance :=
          div (fold_left
                 (fun sum e =>
                    let diff := sub (amplitude e) avgAmplitude in
                    add sum (mul diff diff))
                 recentHistory (Fin 0))
              (ofNat (length recentHistory)) in
        let stdDev := sqrt variance in
        let relativeStdDev := div stdDev avgAmplitude in
        let stabilityScore := max (Fin 0) (sub (Fin 1) relativeStdDev) in
        stabilityScore.

(** A value of the map [drawnNotes]; its label [note], a string, is read by
    none of the functions below. *)
Record drawnNote : Type := mkDrawnNote {
  x : num;
  y : num;
  width : num;
  frequency : num
}.

(** The code units of ['Spectrogram Notes']. *)
Definition spectrogramNotes : list nat :=
  [83; 112; 101; 99; 116; 114; 111; 103; 114; 97; 109; 32; 78; 111; 116; 101; 115]%nat.

(** [createMidiData ()], [drawnNotes] being the values of the map in the
    order of their insertion; [None] is [null]. *)
Definition createMidiData (drawnNotes : list drawnNote) : option MidiUtils.midiData :=
  if (length drawnNotes =? 0)%nat then None
  else
    let sortedNotes := sortArray (fun a b => sub (x a) (x b)) drawnNotes in
    let midiNotes :=
      (fun n =>
         let startTick := round (mul (div (x n) PIXELS_PER_BEAT) TICKS_PER_BEAT) in
         let duration := round (mul (div (width n) PIXELS_PER_BEAT) TICKS_PER_BEAT) in
         MidiUtils.mkNote (MidiUtils.frequencyToMIDI (frequency n)) startTick
           (max duration (div TICKS_PER_BEAT (Fin 4))) (Fin 100))
      <$> sortedNotes in
    Some (MidiUtils.mkMidiData TICKS_PER_BEAT
            [MidiUtils.mkTrack spectrogramNotes midiNotes]).

(** [exportToMidi ()]: the file saved, if one is. *)
Definition exportToMidi (fuel : nat) (drawnNotes : list drawnNote)
  : option (option (list Z)) :=
  match createMidiData drawnNotes with
  | Some midiData => Some <$> MidiUtils.saveMidiFile fuel midiData
  | None => Some None
  end.

End Renderer.

(** ** The reference formulas of the specification, in real arithmetic *)

Module Spec.

Local Open Scope R_scope.

(** The physicists' Hermite polynomials:
    [H_0 = 1], [H_1 = 2x], [H_n = 2x H_(n-1) - 2(n-1) H_(n-2)]. *)
Fixpoint hermite (n : nat) (x : R) : R :=
  match n with
  | O => 1
  | S p =>
      match p with
      | O => 2 * x
      | S q => 2 * x * hermite p x - 2 * INR p * hermite q x
      end
  end.

(** [norm_k = sqrt (sqrt π · 2^k · k!)] *)
Definition norm (k : nat) : R :=
  R_sqrt.sqrt (R_sqrt.sqrt PI * 2 ^ k * INR (fact k)).

(** [t_i = -tm + i · (2 tm / (N - 1))] *)
Definition time (tm : R) (N i : nat) : R := - tm + INR i * (2 * tm / (INR N - 1)).

Definition gauss (t : R) : R := Rtrigo_def.exp (- (t * t) / 2).

Definition hWindow (k : nat) (t : R) : R := hermite k t * gauss t / norm k.

Definition DhWindow (k : nat) (t : R) : R :=
  (INR k * hermite k t - t * hermite k t) * gauss t / norm k.

Definition ThWindow (k : nat) (t : R) : R := t * hWindow k t.

(** The discrete Fourier transform of a complex sequence given by its real
    and imaginary parts: bin [b] is the sum over [n] of
    [x_n · e^(-2πi·b·n/N)]. *)
Definition dftTerm (N b n : nat) (x : R * R) : R * R :=
  let theta := 2 * PI * INR b * INR n / INR N in
  (fst x * Rtrigo_def.cos theta + snd x * Rtrigo_def.sin theta,
   snd x * Rtrigo_def.cos theta - fst x * Rtrigo_def.sin theta).

Definition dftSum (N b : nat) (xs : list (R * R)) : R * R :=
  fold_left
    (fun acc nx => let t := dftTerm N b (fst nx) (snd nx) in
                   (fst acc + fst t, snd acc + snd t))
    (zip (seq 0 (length xs)) xs) (0, 0).

Definition dft (xs : list (R * R)) (b : nat) : R * R := dftSum (length xs) b xs.

End Spec.

(** ** Auxiliary definitions of the proofs *)

(** The reversal of the [m] low bits of [i]. *)
Fixpoint reverseBits (m i : nat) : nat :=
  match m with
  | O => O
  | S m' => (i mod 2) * 2 ^ m' + reverseBits m' (i / 2)
  end.

(** A unit sample at complex index [c] of [N] samples, as [computeSTFT]
    receives it, and the identity window. *)
Definition impulse (N c : nat) : list num := <[c := Fin 1]> (zeros N).
Definition identityWindow (N : nat) : list num := replicate N (Fin 1).

(** Every entry of the window bank below the flat index [n] holds the value
    the inner loop of [createHermiteFunctions] stores there. *)
Definition windowsFilled (N M : nat) (tm : num) (n : nat) (w : windows) : Prop :=
  let t := timePoints N tm in
  length (h w) = (M * N)%nat /\ length (Dh w) = (M * N)%nat /\
  length (Th w) = (M * N)%nat /\
  forall k i, (i < N)%nat -> (k * N + i < n)%nat ->
    let x := get t i in
    let hermite := evaluateHermitePolynomial k x in
    let gauss := exp (div (mul (neg x) x) (Fin 2)) in
    let hv := div (mul hermite gauss) (hermiteNorm k) in
    get (h w) (k * N + i) = hv /\
    get (Dh w) (k * N + i) =
      div (mul (sub (mul (ofNat k) hermite) (mul x hermite)) gauss) (hermiteNorm k) /\
    get (Th w) (k * N + i) = mul x hv.

(** The array after the first [n] iterations of the bit-reversal loop of a
    transform of [2 ^ m] points. *)
Definition permuted (m n : nat) (fft : list num) : list num :=
  forUpTo n
    (fun i l => if i <? reverseBits m i then swapComplex l i (reverseBits m i) else l)
    fft.

(** Every real part of an interleaved array reads as NaN (inside the array
    because it holds NaN, outside because the read is undefined). *)
Definition realPartsNaN (l : list num) : Prop := forall c, get l (c * 2) = NaN.

(** Every entry of the array is a finite number. *)
Definition finiteEntries (l : list num) : Prop :=
  forall p, (p < length l)%nat -> exists r, get l p = Fin r.

(** Two states of the bin loop that differ at most in [previousPhase]. *)
Definition samePhaseless (s1 s2 : binState) : Prop :=
  tfr s1 = tfr s2 /\ maxMagnitude s1 = maxMagnitude s2.

(** The sum of a list of reals. *)
Definition sumR (l : list R) : R := fold_right Rplus 0%R l.

(** Two numbers that are both NaN or both finite, and two arrays that are so
    entry by entry. *)
Definition alike (x y : num) : Prop :=
  (x = NaN /\ y = NaN) \/ ((exists r, x = Fin r) /\ (exists r, y = Fin r)).

Definition coupled (a b : list num) : Prop :=
  length a = length b /\ forall p, alike (get a p) (get b p).

(** The counter [j] of the bit-reversal loop of a transform of [n] points
    after [c] increments, [c] being read on [m] binary digits: digit [t] of
    [c] weighs [n >> (t + 1)]. *)
Fixpoint mirrored (m n c : nat) : nat :=
  match m with
  | O => O
  | S m' => (c mod 2 * (n / 2) + mirrored m' (n / 2) (c / 2))%nat
  end.



(** A reader of the variable-length quantities of a Standard MIDI File: seven
    bits a byte, most significant first, bit 7 set on every byte but the
    last.  It returns the value added to [value * 128 ^ (bytes read)] and the
    bytes that follow. *)
Fixpoint readVariableLength (value : Z) (bytes : list Z) : option (Z * list Z) :=
  match bytes with
  | [] => None
  | byte :: rest =>
      let value' := (value * 128 + Z.land byte 0x7F)%Z in
      if Z.testbit byte 7 then readVariableLength value' rest else Some (value', rest)
  end.

(** The delta times the conversion loop of [saveMidiFile] stores for events
    at the times [times], [lastTime] being the value of its variable. *)
Fixpoint deltasFrom (lastTime : R) (times : list R) : list R :=
  match times with
  | [] => []
  | t :: times' => (t - lastTime)%R :: deltasFrom (t - lastTime)%R times'
  end.


(** * Proofs *)

(** ** Arithmetic on finite numbers *)

Section FiniteArithmetic.

Local Open Scope R_scope.

Lemma Rltb_true x y : x < y -> Rltb x y = true.
Proof. intros H. unfold Rltb. destruct (Rlt_dec x y); [reflexivity | contradiction]. Qed.

Lemma Rltb_false x y : y <= x -> Rltb x y = false.
Proof. intros H. unfold Rltb. destruct (Rlt_dec x y); [lra | reflexivity]. Qed.

Lemma Rltb_spec x y : Rltb x y = true <-> x < y.
Proof. unfold Rltb. destruct (Rlt_dec x y); split; intros; try lra; congruence. Qed.

Lemma Rltb_cases x y : (Rltb x y = true /\ x < y) \/ (Rltb x y = false /\ y <= x).
Proof. unfold Rltb. destruct (Rlt_dec x y); [left | right]; split; auto; lra. Qed.

Lemma Rleb_spec x y : Rleb x y = true <-> x <= y.
Proof. unfold Rleb. destruct (Rle_dec x y); split; intros; try lra; congruence. Qed.

Lemma Reqb_true x : Reqb x x = true.
Proof. unfold Reqb. destruct (Req_dec_T x x); [reflexivity | congruence]. Qed.

Lemma Reqb_false x y : x <> y -> Reqb x y = false.
Proof. intros H. unfold Reqb. destruct (Req_dec_T x y); [contradiction | reflexivity]. Qed.

Lemma Reqb_spec x y : Reqb x y = true <-> x = y.
Proof. unfold Reqb. destruct (Req_dec_T x y); split; intros; congruence. Qed.

Lemma add_Fin a b : add (Fin a) (Fin b) = Fin (a + b).
Proof. reflexivity. Qed.

Lemma neg_Fin a : neg (Fin a) = Fin (- a).
Proof. reflexivity. Qed.

Lemma sub_Fin a b : sub (Fin a) (Fin b) = Fin (a - b).
Proof. reflexivity. Qed.

Lemma mul_Fin a b : mul (Fin a) (Fin b) = Fin (a * b).
Proof. reflexivity. Qed.

Lemma div_Fin a b : b <> 0 -> div (Fin a) (Fin b) = Fin (a / b).
Proof. intros H. unfold div. now rewrite Reqb_false. Qed.

Lemma sqrt_Fin a : 0 <= a -> sqrt (Fin a) = Fin (R_sqrt.sqrt a).
Proof. intros H. unfold sqrt. now rewrite Rltb_false. Qed.

Lemma exp_Fin a : exp (Fin a) = Fin (Rtrigo_def.exp a).
Proof. reflexivity. Qed.

Lemma isInteger_IZR z : isInteger (IZR z) = true.
Proof. unfold isInteger. rewrite ZfloorZ. apply Reqb_true. Qed.

Lemma isInteger_INR n : isInteger (INR n) = true.
Proof. rewrite INR_IZR_INZ. apply isInteger_IZR. Qed.

Lemma Zfloor_INR n : Zfloor (INR n) = Z.of_nat n.
Proof. rewrite INR_IZR_INZ. apply ZfloorZ. Qed.

(** [Math.pow (a, n)] for a natural exponent is the [n]-th power. *)
Lemma pow_Fin_nat a n : pow (Fin a) (ofNat n) = Fin (a ^ n).
Proof.
  unfold pow, ofNat. destruct n as [|n].
  - simpl. now rewrite Reqb_true.
  - rewrite Reqb_false by (apply not_0_INR; lia).
    rewrite isInteger_INR, (Rltb_false (INR (S n)) 0) by apply pos_INR.
    rewrite andb_false_r, Zfloor_INR. now rewrite <- pow_powerRZ.
Qed.

Lemma pow_Fin_2 a : pow (Fin a) (Fin 2) = Fin (a * a).
Proof.
  change (Fin 2) with (ofNat 2). rewrite pow_Fin_nat. f_equal. ring.
Qed.

End FiniteArithmetic.

(** ** NaN is absorbing *)

Lemma add_NaN_l x : add NaN x = NaN.
Proof. reflexivity. Qed.

Lemma add_NaN_r x : add x NaN = NaN.
Proof. now destruct x. Qed.

Lemma sub_NaN_l x : sub NaN x = NaN.
Proof. reflexivity. Qed.


Lemma mul_NaN_l x : mul NaN x = NaN.
Proof. reflexivity. Qed.

Lemma mul_NaN_r x : mul x NaN = NaN.
Proof. now destruct x. Qed.

Lemma div_NaN_l x : div NaN x = NaN.
Proof. reflexivity. Qed.

Lemma div_NaN_r x : div x NaN = NaN.
Proof. now destruct x. Qed.

Lemma gt_NaN_l x : gt NaN x = false.
Proof. now destruct x. Qed.

Lemma gt_NaN_r x : gt x NaN = false.
Proof. reflexivity. Qed.

(** ** Loops *)

Lemma forUpTo_0 {S : Type} (body : nat -> S -> S) s : forUpTo 0 body s = s.
Proof. reflexivity. Qed.

Lemma forUpTo_S {S : Type} n (body : nat -> S -> S) s :
  forUpTo (Datatypes.S n) body s = body n (forUpTo n body s).
Proof. unfold forUpTo. now rewrite seq_S, fold_left_app. Qed.

Lemma forUpToM_S {S : Type} n (body : nat -> S -> option S) s :
  forUpToM (Datatypes.S n) body s = forUpToM n body s ≫= body n.
Proof. unfold forUpToM. now rewrite seq_S, fold_left_app. Qed.

(** An invariant that every iteration preserves holds after the loop. *)
Lemma forUpTo_invariant {S : Type} (P : nat -> S -> Prop) n body s :
  P 0%nat s ->
  (forall i s, (i < n)%nat -> P i s -> P (Datatypes.S i) (body i s)) ->
  P n (forUpTo n body s).
Proof.
  intros H0 Hstep. induction n as [|n IH]; [exact H0 |].
  rewrite forUpTo_S. apply Hstep; [lia |]. apply IH. intros; apply Hstep; [lia | assumption].
Qed.

Lemma forUpToM_invariant {S : Type} (P : nat -> S -> Prop) n body s :
  P 0%nat s ->
  (forall i s, (i < n)%nat -> P i s -> exists s', body i s = Some s' /\ P (Datatypes.S i) s') ->
  exists s', forUpToM n body s = Some s' /\ P n s'.
Proof.
  intros H0 Hstep. induction n as [|n IH]; [now exists s |].
  rewrite forUpToM_S.
  destruct IH as (s1 & -> & H1); [intros; apply Hstep; [lia | assumption] |].
  simpl. apply Hstep; [lia | assumption].
Qed.

(** A loop that fills [a[i] = f i] for [i < n]. *)
Lemma forUpTo_fill (f : nat -> num) n (a : list num) :
  (n <= length a)%nat ->
  forUpTo n (fun i a => set a i (f i)) a = (f <$> seq 0 n) ++ drop n a.
Proof.
  intros Hn. induction n as [|n IH]; [now rewrite drop_0 |].
  rewrite forUpTo_S, IH by lia. unfold set.
  rewrite seq_S, fmap_app. simpl.
  rewrite insert_app_r_alt by (rewrite length_fmap, length_seq; lia).
  rewrite length_fmap, length_seq, Nat.sub_diag.
  destruct (drop n a) as [|x l] eqn:E.
  - apply (f_equal length) in E. rewrite length_drop in E. simpl in E. lia.
  - simpl. rewrite <- app_assoc. simpl. do 2 f_equal.
    change l with (drop 1 (x :: l)). rewrite <- E, drop_drop. f_equal. lia.
Qed.

Lemma forUpTo_fill_zeros (f : nat -> num) n :
  forUpTo n (fun i a => set a i (f i)) (zeros n) = f <$> seq 0 n.
Proof.
  rewrite forUpTo_fill by (unfold zeros; now rewrite length_replicate).
  rewrite drop_ge by (unfold zeros; now rewrite length_replicate).
  apply app_nil_r.
Qed.

Lemma get_fmap_seq (f : nat -> num) n i :
  (i < n)%nat -> get (f <$> seq 0 n) i = f i.
Proof.
  intros Hi. unfold get. rewrite list_lookup_fmap, lookup_seq_lt by lia. reflexivity.
Qed.

Lemma get_set_eq (a : list num) i v : (i < length a)%nat -> get (set a i v) i = v.
Proof. intros H. unfold get, set. now rewrite list_lookup_insert_eq. Qed.

Lemma get_set_ne (a : list num) i j v : i <> j -> get (set a i v) j = get a j.
Proof. intros H. unfold get, set. now rewrite list_lookup_insert_ne. Qed.

Lemma length_set (a : list num) i v : length (set a i v) = length a.
Proof. apply length_insert. Qed.

Lemma get_zeros n i : (i < n)%nat -> get (zeros n) i = Fin 0.
Proof. intros H. unfold get, zeros. now rewrite lookup_replicate_2. Qed.

Lemma length_zeros n : length (zeros n) = n.
Proof. apply length_replicate. Qed.

(** ** The window bank *)

Section WindowBank.

Variables (N M : nat) (tm : num).

Let t := timePoints N tm.

Lemma index_unique k i k' i' :
  (i < N)%nat -> (i' < N)%nat -> (k * N + i = k' * N + i')%nat -> k = k' /\ i = i'.
Proof. intros Hi Hi' E. assert (k = k') by nia. subst. lia. Qed.

Lemma hermiteStore_filled k i w :
  (k < M)%nat -> (i < N)%nat ->
  windowsFilled N M tm (k * N + i) w ->
  windowsFilled N M tm (k * N + S i) (hermiteStore N t k (hermiteNorm k) i w).
Proof.
  intros Hk Hi (Lh & LD & LT & Hfill). fold t in Hfill.
  assert (Hidx : (k * N + i < M * N)%nat) by nia.
  unfold windowsFilled. fold t.
  unfold hermiteStore. repeat split; simpl; rewrite ?length_set; try assumption.
  all: destruct (decide (k0 * N + i0 = k * N + i)%nat) as [E | E].
  all: try (destruct (index_unique _ _ _ _ H Hi E) as [-> ->];
            rewrite ?get_set_eq by (rewrite ?length_set; lia); reflexivity).
  all: rewrite !get_set_ne by congruence; apply Hfill; [assumption | lia].
Qed.

Lemma createHermiteFunctions_filled :
  windowsFilled N M tm (M * N) (createHermiteFunctions N M tm).
Proof.
  unfold createHermiteFunctions. fold t.
  apply (forUpTo_invariant (fun k w => windowsFilled N M tm (k * N) w)).
  - repeat split; simpl; rewrite ?length_zeros; try reflexivity; intros; lia.
  - intros k w Hk Hw.
    replace (S k * N)%nat with (k * N + N)%nat by lia.
    apply (forUpTo_invariant (fun i w => windowsFilled N M tm (k * N + i) w)).
    + now rewrite Nat.add_0_r.
    + intros i w' Hi Hw'. now apply hermiteStore_filled.
Qed.

End WindowBank.

Section WindowFormulas.

Local Open Scope R_scope.

Lemma factorial_fact k : factorial k = Fin (INR (fact k)).
Proof.
  induction k as [|k IH]; [reflexivity |].
  cbn [factorial]. destruct k as [|k]; [simpl; f_equal; lra |].
  replace (S (S k) <=? 1)%nat with false by (symmetry; apply Nat.leb_gt; lia).
  rewrite IH. unfold ofNat. rewrite mul_Fin. f_equal.
  change (fact (S (S k))) with (S (S k) * fact (S k))%nat. now rewrite mult_INR.
Qed.

Lemma evaluateHermitePolynomial_spec k x :
  evaluateHermitePolynomial k (Fin x) = Fin (Spec.hermite k x).
Proof.
  assert (H : evaluateHermitePolynomial k (Fin x) = Fin (Spec.hermite k x) /\
              evaluateHermitePolynomial (S k) (Fin x) = Fin (Spec.hermite (S k) x)).
  { induction k as [|k [IH1 IH2]]; [split; reflexivity |].
    split; [exact IH2 |].
    change (evaluateHermitePolynomial (S (S k)) (Fin x))
      with (sub (mul (mul (Fin 2) (Fin x)) (evaluateHermitePolynomial (S k) (Fin x)))
                (mul (mul (Fin 2) (ofNat (S (S k) - 1)))
                     (evaluateHermitePolynomial k (Fin x)))).
    rewrite IH1, IH2. unfold ofNat. rewrite !mul_Fin, sub_Fin.
    replace (S (S k) - 1)%nat with (S k) by lia. reflexivity. }
  apply H.
Qed.

Lemma norm_arg_pos k : 0 < R_sqrt.sqrt PI * 2 ^ k * INR (fact k).
Proof.
  apply Rmult_lt_0_compat; [apply Rmult_lt_0_compat |].
  - apply sqrt_lt_R0, PI_RGT_0.
  - apply pow_lt; lra.
  - apply lt_0_INR, lt_O_fact.
Qed.

Lemma hermiteNorm_spec k : hermiteNorm k = Fin (Spec.norm k).
Proof.
  unfold hermiteNorm, pi, Spec.norm.
  rewrite (sqrt_Fin PI) by (left; apply PI_RGT_0).
  rewrite pow_Fin_nat, factorial_fact, !mul_Fin.
  apply sqrt_Fin. left. apply norm_arg_pos.
Qed.

Lemma norm_nonzero k : Spec.norm k <> 0.
Proof.
  unfold Spec.norm. apply Rgt_not_eq, Rlt_gt, sqrt_lt_R0, norm_arg_pos.
Qed.

Lemma timePoints_spec (N i : nat) (tm : R) :
  (2 <= N)%nat -> (i < N)%nat ->
  get (timePoints N (Fin tm)) i = Fin (Spec.time tm N i).
Proof.
  intros HN Hi. unfold timePoints. rewrite forUpTo_fill_zeros, get_fmap_seq by assumption.
  unfold ofZ, ofNat, Spec.time.
  assert (HZ : IZR (Z.of_nat N - 1) = INR N - 1)
    by (now rewrite minus_IZR, <- INR_IZR_INZ).
  assert (Hnz : INR N - 1 <> 0).
  { apply (le_INR 2) in HN. simpl in HN. lra. }
  rewrite mul_Fin, div_Fin by (rewrite HZ; exact Hnz).
  rewrite neg_Fin, mul_Fin, add_Fin, HZ. reflexivity.
Qed.

Lemma gauss_spec x :
  exp (div (mul (neg (Fin x)) (Fin x)) (Fin 2)) = Fin (Spec.gauss x).
Proof.
  rewrite neg_Fin, mul_Fin, div_Fin, exp_Fin by lra.
  unfold Spec.gauss. do 2 f_equal. lra.
Qed.

End WindowFormulas.

Section WindowResults.

Local Open Scope R_scope.

(** The entries of taper [k] at sample [i], as functions of [t[i]]. *)
Lemma window_entries (N M k i : nat) (tm : num) :
  (k < M)%nat -> (i < N)%nat ->
  let w := createHermiteFunctions N M tm in
  let x := get (timePoints N tm) i in
  let hermite := evaluateHermitePolynomial k x in
  let gauss := exp (div (mul (neg x) x) (Fin 2)) in
  let hv := div (mul hermite gauss) (hermiteNorm k) in
  get (h w) (k * N + i) = hv /\
  get (Dh w) (k * N + i) =
    div (mul (sub (mul (ofNat k) hermite) (mul x hermite)) gauss) (hermiteNorm k) /\
  get (Th w) (k * N + i) = mul x hv.
Proof.
  intros Hk Hi.
  destruct (createHermiteFunctions_filled N M tm) as (_ & _ & _ & Hfill).
  apply Hfill; [assumption | nia].
Qed.

Lemma window_entries_finite (N M k i : nat) (tm : R) :
  (2 <= N)%nat -> (k < M)%nat -> (i < N)%nat ->
  let w := createHermiteFunctions N M (Fin tm) in
  let t := Spec.time tm N i in
  get (h w) (k * N + i) = Fin (Spec.hWindow k t) /\
  get (Dh w) (k * N + i) = Fin (Spec.DhWindow k t) /\
  get (Th w) (k * N + i) = Fin (Spec.ThWindow k t).
Proof.
  intros HN Hk Hi w t.
  destruct (window_entries N M k i (Fin tm) Hk Hi) as (Eh & ED & ET).
  rewrite timePoints_spec in Eh, ED, ET by assumption. fold t in Eh, ED, ET.
  rewrite evaluateHermitePolynomial_spec, gauss_spec, hermiteNorm_spec in Eh, ED, ET.
  unfold ofNat in ED.
  rewrite mul_Fin, div_Fin in Eh by apply norm_nonzero.
  rewrite !mul_Fin, sub_Fin, mul_Fin, div_Fin in ED by apply norm_nonzero.
  rewrite mul_Fin, div_Fin, mul_Fin in ET by apply norm_nonzero.
  repeat split; assumption.
Qed.

(** With a single sample the time step divides by zero and the only time
    point is NaN, and so is every entry of the bank. *)
Lemma timePoints_single (tm : R) : get (timePoints 1 (Fin tm)) 0 = NaN.
Proof.
  unfold timePoints. rewrite forUpTo_fill_zeros, get_fmap_seq by lia.
  unfold ofZ, ofNat. simpl Z.sub. rewrite mul_Fin.
  unfold div. rewrite Reqb_true. unfold scaleInf.
  destruct (Rltb 0 (2 * tm)); [| destruct (Rltb (2 * tm) 0)];
    simpl; unfold scaleInf; rewrite ?(Rltb_false 0 0) by lra; reflexivity.
Qed.

(** C6.  For a finite [tm], a window of at least two samples (so that the
    time step [2 tm / (N - 1)] is defined), every taper [k < M] and sample
    [i < N], the arrays of [createHermiteFunctions] hold, in real arithmetic,
    [t_i = -tm + i (2 tm / (N - 1))], [h = H_k(t_i) exp(-t_i^2/2) / norm_k],
    [Dh = (k H_k(t_i) - t_i H_k(t_i)) exp(-t_i^2/2) / norm_k] and
    [Th = t_i h], with [norm_k = sqrt (sqrt π 2^k k!)] and [H_k] the
    physicists' Hermite polynomial. *)
Theorem createHermiteFunctions_closed_form (N M k i : nat) (tm : R) :
  (2 <= N)%nat -> (k < M)%nat -> (i < N)%nat ->
  let w := createHermiteFunctions N M (Fin tm) in
  let t := Spec.time tm N i in
  get (timePoints N (Fin tm)) i = Fin t /\
  get (h w) (k * N + i) = Fin (Spec.hermite k t * Spec.gauss t / Spec.norm k) /\
  get (Dh w) (k * N + i) =
    Fin ((INR k * Spec.hermite k t - t * Spec.hermite k t) * Spec.gauss t / Spec.norm k) /\
  get (Th w) (k * N + i) = Fin (t * (Spec.hermite k t * Spec.gauss t / Spec.norm k)).
Proof.
  intros HN Hk Hi w t. split; [now apply timePoints_spec |].
  exact (window_entries_finite N M k i tm HN Hk Hi).
Qed.

Lemma createHermiteFunctions_closed_form_witness :
  (2 <= 2)%nat /\ (0 < 1)%nat /\ (1 < 2)%nat /\
  get (h (createHermiteFunctions 2 1 (Fin 6))) (0 * 2 + 1) =
    Fin (Spec.hermite 0 (Spec.time 6 2 1) * Spec.gauss (Spec.time 6 2 1) / Spec.norm 0).
Proof.
  split; [lia |]. split; [lia |]. split; [lia |].
  apply (createHermiteFunctions_closed_form 2 1 0 1 6); lia.
Defined.

(** C10.  For a finite [tm], every taper [k < M] and sample [i < N],
    [Dh[k N + i] + Th[k N + i] = k h[k N + i]]; and when the window has at
    least two samples the three entries are finite reals [d], [t], [v] with
    [d + t = k v]. *)
Theorem window_bank_identity (N M k i : nat) (tm : R) :
  (k < M)%nat -> (i < N)%nat ->
  let w := createHermiteFunctions N M (Fin tm) in
  add (get (Dh w) (k * N + i)) (get (Th w) (k * N + i)) =
    mul (ofNat k) (get (h w) (k * N + i)) /\
  ((2 <= N)%nat ->
   exists d t v : R,
     get (Dh w) (k * N + i) = Fin d /\ get (Th w) (k * N + i) = Fin t /\
     get (h w) (k * N + i) = Fin v /\ d + t = INR k * v).
Proof.
  intros Hk Hi w.
  assert (Hfin : (2 <= N)%nat ->
    exists d t v : R,
      get (Dh w) (k * N + i) = Fin d /\ get (Th w) (k * N + i) = Fin t /\
      get (h w) (k * N + i) = Fin v /\ d + t = INR k * v).
  { intros HN.
    destruct (window_entries_finite N M k i tm HN Hk Hi) as (Eh & ED & ET).
    eexists _, _, _. repeat split; [exact ED | exact ET | exact Eh |].
    unfold Spec.DhWindow, Spec.ThWindow, Spec.hWindow. unfold Rdiv. ring. }
  split; [| exact Hfin].
  destruct (le_lt_dec 2 N) as [HN | HN].
  - destruct (Hfin HN) as (d & t & v & -> & -> & -> & E).
    unfold ofNat. rewrite add_Fin, mul_Fin. now f_equal.
  - assert (N = 1%nat) by lia. subst N. assert (i = 0%nat) by lia. subst i.
    destruct (window_entries 1 M k 0 (Fin tm) Hk Hi) as (Eh & ED & ET).
    rewrite timePoints_single in Eh, ED, ET.
    subst w. rewrite Eh, ED, ET.
    change (exp (div (mul (neg NaN) NaN) (Fin 2))) with NaN.
    now rewrite !mul_NaN_r, !div_NaN_l.
Qed.

Lemma window_bank_identity_witness :
  (1 < 2)%nat /\ (3 < 4)%nat /\
  add (get (Dh (createHermiteFunctions 4 2 (Fin 6))) (1 * 4 + 3))
      (get (Th (createHermiteFunctions 4 2 (Fin 6))) (1 * 4 + 3)) =
    mul (ofNat 1) (get (h (createHermiteFunctions 4 2 (Fin 6))) (1 * 4 + 3)).
Proof.
  split; [lia |]. split; [lia |].
  apply (window_bank_identity 4 2 1 3 6); lia.
Defined.

End WindowResults.

(** ** The integer loops on small sizes *)

Example stepsOf_8 : stepsOf 8 = [1; 2; 4]%nat.
Proof. reflexivity. Qed.

Example stepsOf_6 : stepsOf 6 = [1; 2; 4]%nat.
Proof. reflexivity. Qed.

Example groupsOf_8_2 : groupsOf 8 2 = [0; 4]%nat.
Proof. reflexivity. Qed.

Example groupsOf_6_1 : groupsOf 6 1 = [0; 2; 4]%nat.
Proof. reflexivity. Qed.

(** The counter visits the bit-reversed indices [0, 4, 2, 6, 1, 5, 3, 7]. *)
Example nextReversed_8 :
  nextReversed 3 8 <$> [0; 4; 2; 6; 1; 5; 3]%nat
  = Some <$> [4; 2; 6; 1; 5; 3; 7]%nat.
Proof. reflexivity. Qed.

Example reverseBits_3 :
  reverseBits 3 <$> seq 0 8 = [0; 4; 2; 6; 1; 5; 3; 7]%nat.
Proof. reflexivity. Qed.

(** The bit reversal moves the data and changes no value. *)
Example bitReversal_4 (a b c d : num) :
  bitReversal 2 4 [a; Fin 0; b; Fin 0; c; Fin 0; d; Fin 0]
  = Some [a; Fin 0; c; Fin 0; b; Fin 0; d; Fin 0].
Proof. reflexivity. Qed.

(** ** The bit-reversal counter *)

Lemma reverseBits_lt m i : (reverseBits m i < 2 ^ m)%nat.
Proof.
  revert i. induction m as [|m IH]; intros i; [simpl; lia |].
  cbn [reverseBits]. rewrite Nat.pow_succ_r'.
  specialize (IH (i / 2)%nat).
  assert (H : (i mod 2 < 2)%nat) by (apply Nat.mod_upper_bound; lia).
  destruct (i mod 2)%nat as [|[|]]; lia.
Qed.

Lemma reverseBits_S m i :
  reverseBits (S m) i = (i mod 2 * 2 ^ m + reverseBits m (i / 2))%nat.
Proof. reflexivity. Qed.

Lemma reverseBits_0 m : reverseBits m 0 = 0%nat.
Proof. induction m as [|m IH]; simpl; [reflexivity |]. rewrite IH. lia. Qed.

Lemma reverseBits_1 m : reverseBits (S m) 1 = (2 ^ m)%nat.
Proof. simpl. rewrite reverseBits_0. lia. Qed.

Lemma shiftr_pow2 m : Nat.shiftr (2 ^ S m) 1 = (2 ^ m)%nat.
Proof.
  rewrite Nat.shiftr_div_pow2. change (2 ^ 1)%nat with 2%nat.
  rewrite Nat.pow_succ_r', Nat.mul_comm. apply Nat.div_mul. lia.
Qed.

(** The [while] loop of the counter, started on the reversal of [i] with
    [k] the top bit, stops on a pair whose sum is the reversal of [i + 1]. *)
Lemma reversed_carry m : forall i fuel,
  (S i < 2 ^ S m)%nat -> (S m <= fuel)%nat ->
  exists j' k',
    while fuel (fun '(j, k) => k <=? j) (fun '(j, k) => (j - k, Nat.shiftr k 1))
      (reverseBits (S m) i, 2 ^ m)%nat = Some (j', k') /\
    (j' + k')%nat = reverseBits (S m) (S i).
Proof.
  induction m as [|m IH]; intros i fuel Hi Hfuel.
  - assert (i = 0%nat) by (simpl in Hi; lia). subst i.
    destruct fuel as [|fuel]; [lia |]. exists 0%nat, 1%nat. split; reflexivity.
  - destruct fuel as [|fuel]; [lia |].
    cbn [while]. rewrite !(reverseBits_S (S m)).
    pose proof (reverseBits_lt (S m) (i / 2)) as Hlt.
    pose proof (Nat.div_mod_eq i 2) as Hdm.
    assert (Hmod : (i mod 2 < 2)%nat) by (apply Nat.mod_upper_bound; lia).
    destruct (decide (i mod 2 = 0)%nat) as [Heven | Hodd].
    + rewrite Heven. rewrite Nat.mul_0_l, Nat.add_0_l.
      replace (2 ^ S m <=? reverseBits (S m) (i / 2))%nat with false
        by (symmetry; apply Nat.leb_gt; lia).
      eexists _, _. split; [reflexivity |].
      replace (S i mod 2)%nat with 1%nat
        by (replace (S i) with (1 + (i / 2) * 2)%nat by lia;
            now rewrite Nat.Div0.mod_add).
      replace (S i / 2)%nat with (i / 2)%nat
        by (replace (S i) with (1 + (i / 2) * 2)%nat by lia;
            now rewrite Nat.div_add by lia).
      lia.
    + assert (Hone : (i mod 2 = 1)%nat) by lia. rewrite Hone, Nat.mul_1_l.
      replace (2 ^ S m <=? 2 ^ S m + reverseBits (S m) (i / 2))%nat with true
        by (symmetry; apply Nat.leb_le; lia).
      replace (2 ^ S m + reverseBits (S m) (i / 2) - 2 ^ S m)%nat
        with (reverseBits (S m) (i / 2)) by lia.
      rewrite shiftr_pow2.
      assert (Hhalf : (S (i / 2) < 2 ^ S m)%nat).
      { rewrite (Nat.pow_succ_r' 2 (S m)) in Hi. lia. }
      destruct (IH (i / 2)%nat fuel Hhalf ltac:(lia)) as (j' & k' & Hw & Hsum).
      exists j', k'. split; [exact Hw |]. rewrite Hsum.
      replace (S i mod 2)%nat with 0%nat
        by (replace (S i) with (0 + (S (i / 2)) * 2)%nat by lia;
            now rewrite Nat.Div0.mod_add).
      replace (S i / 2)%nat with (S (i / 2))
        by (replace (S i) with (0 + (S (i / 2)) * 2)%nat by lia;
            now rewrite Nat.div_add by lia).
      lia.
Qed.

Lemma nextReversed_reverseBits m i fuel :
  (S i < 2 ^ m)%nat -> (m <= fuel)%nat ->
  nextReversed fuel (2 ^ m) (reverseBits m i) = Some (reverseBits m (S i)).
Proof.
  intros Hi Hfuel. destruct m as [|m]; [simpl in Hi; lia |].
  unfold nextReversed. rewrite shiftr_pow2.
  destruct (reversed_carry m i fuel Hi Hfuel) as (j' & k' & -> & Hsum).
  simpl. now rewrite Hsum.
Qed.

(** ** The bit-reversal loop *)

Lemma bitReversal_pow2 m fuel (fft : list num) :
  (m <= fuel)%nat ->
  bitReversal fuel (2 ^ m) fft = Some (permuted m (2 ^ m - 1) fft).
Proof.
  intros Hfuel. unfold bitReversal.
  destruct (forUpToM_invariant
              (fun i s => s = (permuted m i fft, reverseBits m i))
              (2 ^ m - 1) (bitReversalBody fuel (2 ^ m)) (fft, 0%nat))
    as (s' & -> & ->).
  - now rewrite reverseBits_0.
  - intros i s Hi ->. unfold bitReversalBody.
    rewrite nextReversed_reverseBits by lia. simpl.
    eexists. split; [reflexivity |]. unfold permuted. now rewrite forUpTo_S.
  - reflexivity.
Qed.

(** On three points the counter reaches [k = 0] with [j = 0], and the
    [while] loop never stops. *)
Lemma while_counter_stuck fuel :
  while fuel (fun '(j, k) => k <=? j) (fun '(j, k) => (j - k, Nat.shiftr k 1))
    (0, 0)%nat = None.
Proof. induction fuel as [|fuel IH]; [reflexivity | exact IH]. Qed.

Lemma nextReversed_three_stuck fuel : nextReversed fuel 3 1 = None.
Proof.
  unfold nextReversed. destruct fuel as [|fuel]; [reflexivity |].
  cbn [while]. change (Nat.shiftr 3 1) with 1%nat. cbn [Nat.leb Nat.sub].
  change (Nat.shiftr 1 1) with 0%nat. now rewrite while_counter_stuck.
Qed.

Lemma bitReversal_three fuel (fft : list num) : bitReversal fuel 3 fft = None.
Proof.
  unfold bitReversal. change (3 - 1)%nat with 2%nat. rewrite !forUpToM_S.
  change (forUpToM 0 (bitReversalBody fuel 3) (fft, 0%nat)) with (Some (fft, 0%nat)).
  destruct fuel as [|fuel]; [reflexivity |].
  change (Some (fft, 0%nat) ≫= bitReversalBody (S fuel) 3 0) with (Some (fft, 1%nat)).
  cbn [mbind option_bind]. unfold bitReversalBody.
  now rewrite nextReversed_three_stuck.
Qed.

(** ** Reading arrays *)

Lemma get_set (a : list num) i j v :
  get (set a i v) j = if decide (i = j /\ (i < length a)%nat) then v else get a j.
Proof.
  unfold get, set. case_decide as H.
  - destruct H as [-> H]. now rewrite list_lookup_insert_eq.
  - destruct (decide (i = j)) as [-> | Hne].
    + rewrite list_insert_ge by lia. reflexivity.
    + now rewrite list_lookup_insert_ne.
Qed.

Lemma get_ge (a : list num) i : (length a <= i)%nat -> get a i = NaN.
Proof. intros H. unfold get. now rewrite lookup_ge_None_2. Qed.

Lemma list_eq_get (l1 l2 : list num) :
  length l1 = length l2 ->
  (forall p, (p < length l1)%nat -> get l1 p = get l2 p) ->
  l1 = l2.
Proof.
  intros Hlen Hget. apply list_eq. intros p.
  destruct (decide (p < length l1)%nat) as [Hp | Hp].
  - specialize (Hget p Hp). unfold get in Hget.
    destruct (lookup_lt_is_Some_2 l1 p Hp) as [x Hx].
    destruct (lookup_lt_is_Some_2 l2 p ltac:(lia)) as [y Hy].
    rewrite Hx, Hy in *. simpl in Hget. now subst.
  - rewrite !lookup_ge_None_2 by lia. reflexivity.
Qed.

Lemma length_swapComplex (l : list num) i j : length (swapComplex l i j) = length l.
Proof. unfold swapComplex. now rewrite !length_set. Qed.

Lemma length_butterfly step group c s pair (l : list num) :
  length (butterfly step group c s pair l) = length l.
Proof. unfold butterfly. now rewrite !length_set. Qed.

Lemma get_impulse n c p :
  get (impulse n c) p =
    if decide (p < n)%nat then (if decide (p = c) then Fin 1 else Fin 0) else NaN.
Proof.
  unfold impulse. change (<[c:=Fin 1]> (zeros n)) with (set (zeros n) c (Fin 1)).
  rewrite get_set, length_zeros.
  repeat case_decide;
    first [ reflexivity | lia | now apply get_zeros
          | apply get_ge; rewrite length_zeros; lia ].
Qed.

Lemma length_impulse n c : length (impulse n c) = n.
Proof. unfold impulse. now rewrite length_insert, length_zeros. Qed.

(** ** The bit reversal of a centred impulse *)

Ltac solve_get :=
  repeat (rewrite ?get_set, ?get_impulse, ?length_set, ?length_impulse, ?length_zeros);
  repeat case_decide; destruct_and?; first [ reflexivity | lia | idtac ].

Lemma swapComplex_impulse n c :
  (1 < c)%nat -> (c * 2 + 1 < n)%nat ->
  swapComplex (impulse n (c * 2)) 1 c = impulse n 2.
Proof.
  intros Hc Hn. apply list_eq_get.
  - now rewrite length_swapComplex, !length_impulse.
  - intros p Hp. rewrite length_swapComplex, length_impulse in Hp.
    unfold swapComplex. solve_get.
Qed.

Lemma swapComplex_same (l : list num) i j :
  (i * 2 + 1 < length l)%nat -> (j * 2 + 1 < length l)%nat ->
  get l (i * 2) = get l (j * 2) -> get l (i * 2 + 1) = get l (j * 2 + 1) ->
  swapComplex l i j = l.
Proof.
  intros Hi Hj E0 E1. apply list_eq_get; [apply length_swapComplex |].
  intros p Hp. unfold swapComplex. solve_get; subst; congruence.
Qed.

Lemma half_pow2 m : (2 ^ S m / 2 = 2 ^ m)%nat.
Proof. rewrite Nat.pow_succ_r', Nat.mul_comm. apply Nat.div_mul. lia. Qed.

Lemma pow2_ge_2 m : (2 <= 2 ^ S m)%nat.
Proof. rewrite Nat.pow_succ_r'. pose proof (Nat.pow_nonzero 2 m). lia. Qed.

Lemma permuted_S m n (l : list num) :
  permuted m (S n) l =
    if n <? reverseBits m n then swapComplex (permuted m n l) n (reverseBits m n)
    else permuted m n l.
Proof. unfold permuted. now rewrite forUpTo_S. Qed.

Lemma permuted_impulse m :
  permuted (S m) (2 ^ S m - 1) (impulse (2 ^ S m * 2) (2 ^ S m / 2 * 2))
  = impulse (2 ^ S m * 2) 2.
Proof.
  rewrite half_pow2. destruct m as [|m]; [reflexivity |].
  pose proof (pow2_ge_2 m) as Hge.
  assert (Hpow : (2 ^ S (S m) = 2 * 2 ^ S m)%nat) by apply Nat.pow_succ_r'.
  assert (H : forall n, (S (S n) <= 2 ^ S (S m) - 1)%nat ->
            permuted (S (S m)) (S (S n)) (impulse (2 ^ S (S m) * 2) (2 ^ S m * 2))
            = impulse (2 ^ S (S m) * 2) 2).
  { induction n as [|n IH]; intros Hn.
    - rewrite !permuted_S. unfold permuted. rewrite forUpTo_0.
      rewrite reverseBits_0, reverseBits_1, Nat.ltb_irrefl.
      rewrite (proj2 (Nat.ltb_lt 1 (2 ^ S m))) by lia.
      apply swapComplex_impulse; lia.
    - rewrite permuted_S, IH by lia.
      pose proof (reverseBits_lt (S (S m)) (S (S n))) as Hlt.
      destruct (S (S n) <? reverseBits (S (S m)) (S (S n)))%nat eqn:E; [| reflexivity].
      apply Nat.ltb_lt in E.
      apply swapComplex_same; rewrite ?length_impulse; try lia; solve_get. }
  replace (2 ^ S (S m) - 1)%nat with (S (S (2 ^ S (S m) - 3)))%nat by lia.
  apply H. lia.
Qed.

(** ** The loops over the steps and the groups *)

Lemma doublingFrom_pow2 m : forall d t bound,
  m = (t + d)%nat -> (d <= bound)%nat ->
  doublingFrom bound (2 ^ m) (2 ^ t) = (fun t => 2 ^ t)%nat <$> seq t d.
Proof.
  induction d as [|d IH]; intros t bound Hm Hb.
  - replace t with m by lia. destruct bound; simpl; [reflexivity |].
    now rewrite Nat.ltb_irrefl.
  - destruct bound as [|bound]; [lia |]. cbn [doublingFrom seq fmap list_fmap].
    rewrite (proj2 (Nat.ltb_lt (2 ^ t) (2 ^ m)))
      by (apply Nat.pow_lt_mono_r; lia).
    f_equal. rewrite Nat.shiftl_mul_pow2. change (2 ^ 1)%nat with 2%nat.
    rewrite Nat.mul_comm, <- Nat.pow_succ_r'. apply IH; lia.
Qed.

Lemma stepsOf_pow2 m : stepsOf (2 ^ m) = (fun t => 2 ^ t)%nat <$> seq 0 m.
Proof.
  unfold stepsOf. apply (doublingFrom_pow2 m m 0); [reflexivity |].
  pose proof (Nat.pow_gt_lin_r 2 m). lia.
Qed.

Lemma stridedFrom_elem N stride : forall bound g g',
  g' ∈ stridedFrom bound N stride g ->
  (g' < N)%nat /\ exists q, g' = (g + q * stride)%nat.
Proof.
  induction bound as [|bound IH]; intros g g' Hin; simpl in Hin.
  - inversion Hin.
  - destruct (g <? N)%nat eqn:E; [| inversion Hin].
    apply Nat.ltb_lt in E. apply elem_of_cons in Hin as [-> | Hin].
    + split; [assumption |]. exists 0%nat. lia.
    + destruct (IH _ _ Hin) as [Hlt [q ->]]. split; [assumption |].
      exists (S q). lia.
Qed.

(** In a transform of [2 ^ m] points every group of a stage lies, with its
    partner half, inside the array. *)
Lemma group_in_range m t g :
  (t < m)%nat -> g ∈ groupsOf (2 ^ m) (2 ^ t) -> (g + 2 ^ t * 2 <= 2 ^ m)%nat.
Proof.
  intros Ht Hin. apply stridedFrom_elem in Hin as [Hlt [q ->]].
  replace m with (S t + (m - S t))%nat in * by lia.
  rewrite Nat.pow_add_r, Nat.pow_succ_r' in *.
  set (s := (2 ^ t)%nat) in *. set (r := (2 ^ (m - S t))%nat) in *.
  assert (0 < s)%nat by (subst s; pose proof (Nat.pow_nonzero 2 t); lia).
  assert (q < r)%nat by nia. nia.
Qed.

Lemma fold_left_invariant {A B : Type} (P : A -> Prop) (f : A -> B -> A) l a :
  P a -> (forall a b, b ∈ l -> P a -> P (f a b)) -> P (fold_left f l a).
Proof.
  revert a. induction l as [|b l IH]; intros a Ha Hstep; [exact Ha |].
  simpl. apply IH.
  - apply Hstep; [left | assumption].
  - intros a' b' Hin. apply Hstep. now right.
Qed.

(** ** Butterflies on zeros *)

Section Butterflies.

Local Open Scope R_scope.

Lemma set_zeros n i r : r = 0 -> set (zeros n) i (Fin r) = zeros n.
Proof. intros ->. apply insert_replicate. Qed.

Lemma factor_Fin pair step :
  step <> 0%nat -> div (ofNat pair) (ofNat step) = Fin (INR pair / INR step).
Proof. intros H. unfold ofNat. apply div_Fin. now apply not_0_INR. Qed.

Lemma butterfly_zeros n step group c s pair :
  step <> 0%nat ->
  (group * 2 + pair * 2 + step * 2 + 1 < n)%nat ->
  butterfly step group (Fin c) (Fin s) pair (zeros n) = zeros n.
Proof.
  intros Hstep Hn. unfold butterfly.
  rewrite !get_zeros by lia. rewrite factor_Fin by assumption.
  cbn [mul add sub neg]. rewrite !set_zeros by ring. reflexivity.
Qed.

Lemma angle_Fin step :
  step <> 0%nat -> div (neg pi) (ofNat step) = Fin (- PI / INR step).
Proof. intros H. unfold ofNat, pi. cbn [neg]. apply div_Fin. now apply not_0_INR. Qed.

Lemma stage_zeros m t :
  (t < m)%nat -> stage (2 ^ m) (zeros (2 ^ m * 2)) (2 ^ t) = zeros (2 ^ m * 2).
Proof.
  intros Ht. unfold stage.
  assert (Hstep : (2 ^ t)%nat <> 0%nat) by apply Nat.pow_nonzero, Nat.neq_succ_0.
  rewrite angle_Fin by assumption. cbn [cos sin].
  apply (fold_left_invariant (fun l => l = zeros (2 ^ m * 2))); [reflexivity |].
  intros l g Hg ->. apply group_in_range in Hg; [| assumption].
  apply (forUpTo_invariant (fun _ l => l = zeros (2 ^ m * 2))); [reflexivity |].
  intros pair l Hpair ->. apply butterfly_zeros; [assumption | lia].
Qed.

Lemma stages_zeros m (steps : list nat) :
  Forall (fun s => exists t, (t < m)%nat /\ s = (2 ^ t)%nat) steps ->
  fold_left (stage (2 ^ m)) steps (zeros (2 ^ m * 2)) = zeros (2 ^ m * 2).
Proof.
  induction 1 as [|s steps (t & Ht & ->) _ IH]; [reflexivity |].
  simpl. now rewrite stage_zeros.
Qed.

(** The first stage sends the impulse at complex index 1 to zero: the
    rotation of pair 0 is [factor = 0] times the cosine and the sine. *)
Lemma butterfly_impulse n c s :
  (3 < n)%nat -> butterfly 1 0 (Fin c) (Fin s) 0 (impulse n 2) = zeros n.
Proof.
  intros Hn. unfold butterfly. rewrite factor_Fin by lia.
  rewrite !get_impulse. repeat case_decide; try lia.
  cbn [mul add sub neg]. apply list_eq_get.
  - now rewrite !length_set, length_impulse, length_zeros.
  - intros p Hp. rewrite !length_set, length_impulse in Hp.
    rewrite (get_zeros n p) by assumption.
    solve_get; f_equal; simpl INR; field.
Qed.

Lemma stage_impulse m :
  stage (2 ^ S m) (impulse (2 ^ S m * 2) 2) 1 = zeros (2 ^ S m * 2).
Proof.
  pose proof (pow2_ge_2 m) as Hge. unfold stage.
  rewrite angle_Fin by lia. cbn [cos sin].
  unfold groupsOf. destruct (2 ^ S m)%nat as [|N'] eqn:EN; [lia |].
  cbn [stridedFrom]. rewrite (proj2 (Nat.ltb_lt 0 (S N'))) by lia.
  cbn [fold_left]. rewrite forUpTo_S, forUpTo_0, butterfly_impulse by lia.
  apply (fold_left_invariant (fun l => l = zeros (S N' * 2))); [reflexivity |].
  intros l g Hg ->. apply stridedFrom_elem in Hg as [Hlt [q ->]].
  assert (Heven : exists K, S N' = (2 * K)%nat)
    by (exists (2 ^ m)%nat; rewrite <- EN; apply Nat.pow_succ_r').
  destruct Heven as [K HK].
  rewrite forUpTo_S, forUpTo_0. apply butterfly_zeros; lia.
Qed.

End Butterflies.

(** ** The transform of a centred impulse *)

Lemma performFFT_impulse m fuel :
  (S m <= fuel)%nat ->
  performFFT fuel (impulse (2 ^ S m * 2) (2 ^ S m / 2 * 2)) = Some (zeros (2 ^ S m * 2)).
Proof.
  intros Hfuel. unfold performFFT.
  rewrite length_impulse, Nat.div_mul by lia.
  rewrite bitReversal_pow2 by assumption. cbn [mbind option_bind].
  rewrite permuted_impulse, stepsOf_pow2. cbn [seq fmap list_fmap fold_left].
  change (2 ^ 0)%nat with 1%nat. rewrite stage_impulse.
  f_equal. apply stages_zeros.
  apply Forall_forall. intros s Hs. apply list_elem_of_fmap in Hs as [t [-> Ht]].
  apply elem_of_seq in Ht. exists t. split; [lia | reflexivity].
Qed.

(** The interleaved array [computeSTFT] hands to [performFFT]. *)
Lemma packed_prefix (f : nat -> num) N n :
  (n <= N)%nat ->
  let r := forUpTo n (fun i r => set (set r (i * 2) (f i)) (i * 2 + 1) (Fin 0))
             (zeros (N * 2)) in
  length r = (N * 2)%nat /\
  forall i, (i < N)%nat ->
    get r (i * 2) = (if decide (i < n)%nat then f i else Fin 0) /\
    get r (i * 2 + 1) = Fin 0.
Proof.
  induction n as [|n IH]; intros Hn.
  - cbn zeta. rewrite forUpTo_0. split; [apply length_zeros |]. intros i Hi.
    rewrite !get_zeros by lia. now case_decide; [lia |].
  - cbn zeta. rewrite forUpTo_S. destruct (IH ltac:(lia)) as [Hlen Hget].
    split; [now rewrite !length_set |].
    intros i Hi. destruct (Hget i Hi) as [E0 E1].
    rewrite !get_set, !length_set, E0, E1.
    repeat case_decide; destruct_and?; try lia; split; try reflexivity.
    assert (i = n) by lia. now subst.
Qed.

Lemma packed_spec (f : nat -> num) N :
  let r := forUpTo N (fun i r => set (set r (i * 2) (f i)) (i * 2 + 1) (Fin 0))
             (zeros (N * 2)) in
  length r = (N * 2)%nat /\
  forall i, (i < N)%nat -> get r (i * 2) = f i /\ get r (i * 2 + 1) = Fin 0.
Proof.
  intros r. subst r. destruct (packed_prefix f N N (Nat.le_refl N)) as [Hlen Hget].
  split; [assumption |].
  intros i Hi. destruct (Hget i Hi) as [E0 E1]. split; [| assumption].
  rewrite E0. now case_decide.
Qed.

Lemma get_identityWindow N i : (i < N)%nat -> get (identityWindow N) i = Fin 1.
Proof. intros H. unfold get, identityWindow. now rewrite lookup_replicate_2. Qed.

Lemma computeSTFT_impulse_packed fuel N c :
  (c < N)%nat ->
  computeSTFT fuel (impulse N c) (identityWindow N)
  = performFFT fuel (impulse (N * 2) (c * 2)).
Proof.
  intros Hc. unfold computeSTFT. rewrite length_impulse, forUpTo_fill_zeros.
  f_equal.
  match goal with
  | |- forUpTo N (fun i r => set (set r (i * 2) (@?f i)) _ _) _ = _ =>
      destruct (packed_spec f N) as [Hlen Hget]
  end.
  apply list_eq_get; [now rewrite length_impulse |].
  intros p Hp. rewrite Hlen in Hp.
  rewrite get_impulse. case_decide; [| lia].
  pose proof (Nat.div_mod_eq p 2) as Hdm.
  assert (Hmod : (p mod 2 < 2)%nat) by (apply Nat.mod_upper_bound; lia).
  destruct (Hget (p / 2)%nat ltac:(lia)) as [E0 E1].
  destruct (decide (p mod 2 = 0)%nat) as [Hz | Hz].
  - replace p with (p / 2 * 2)%nat at 1 by lia. rewrite E0.
    rewrite get_fmap_seq by lia.
    rewrite get_impulse, get_identityWindow by lia.
    repeat case_decide; try lia; cbn [mul]; f_equal; lra.
  - replace p with (p / 2 * 2 + 1)%nat at 1 by lia. rewrite E1.
    case_decide; [lia | reflexivity].
Qed.

Lemma computeSTFT_impulse_zero m fuel :
  (S m <= fuel)%nat ->
  computeSTFT fuel (impulse (2 ^ S m) (2 ^ S m / 2)) (identityWindow (2 ^ S m))
  = Some (zeros (2 ^ S m * 2)).
Proof.
  intros Hfuel. rewrite computeSTFT_impulse_packed.
  - now apply performFFT_impulse.
  - rewrite half_pow2, Nat.pow_succ_r'. pose proof (Nat.pow_nonzero 2 m). lia.
Qed.

Section CentredImpulse.

Local Open Scope R_scope.

(** Samples that are zero add nothing to a bin of the discrete Fourier
    transform. *)
Lemma dftSum_zero_samples (N b : nat) : forall (k s : nat) (acc : R * R),
  fold_left
    (fun acc nx => (fst acc + fst (Spec.dftTerm N b (fst nx) (snd nx)),
                    snd acc + snd (Spec.dftTerm N b (fst nx) (snd nx))))
    (zip (seq s k) (replicate k (0, 0))) acc = acc.
Proof.
  induction k as [|k IH]; intros s acc; [reflexivity |].
  cbn [seq replicate zip_with fold_left]. rewrite IH.
  unfold Spec.dftTerm. cbn [fst snd]. destruct acc as [re im]. cbn [fst snd].
  f_equal; ring.
Qed.

(** The discrete Fourier transform of a unit sample at index [c]: bin [b] is
    [e^(-2πi·b·c/N)]. *)
Lemma dft_unit_sample (N c b : nat) :
  (c < N)%nat ->
  Spec.dft (<[c := (1, 0)]> (replicate N (0, 0))) b
  = (Rtrigo_def.cos (2 * PI * INR b * INR c / INR N),
     - Rtrigo_def.sin (2 * PI * INR b * INR c / INR N)).
Proof.
  intros Hc. unfold Spec.dft, Spec.dftSum.
  rewrite length_insert, length_replicate.
  rewrite insert_replicate_lt by assumption.
  assert (Hseq : seq 0 N = seq 0 c ++ seq (0 + c) (S (N - S c)))
    by (rewrite <- seq_app; f_equal; lia).
  rewrite Hseq.
  rewrite zip_with_app by now rewrite length_seq, length_replicate.
  rewrite fold_left_app.
  rewrite (dftSum_zero_samples N b c 0 (0, 0)).
  cbn [seq zip_with fold_left].
  rewrite (dftSum_zero_samples N b (N - S c) (S (0 + c))).
  unfold Spec.dftTerm. cbn [fst snd Nat.add]. f_equal; ring.
Qed.

Lemma unit_magnitude (theta : R) :
  R_sqrt.sqrt (Rtrigo_def.cos theta * Rtrigo_def.cos theta
               + - Rtrigo_def.sin theta * - Rtrigo_def.sin theta) = 1.
Proof.
  pose proof (sin2_cos2 theta) as H. unfold Rsqr in H.
  replace (Rtrigo_def.cos theta * Rtrigo_def.cos theta
           + - Rtrigo_def.sin theta * - Rtrigo_def.sin theta) with 1 by lra.
  apply sqrt_1.
Qed.

(** C2 (failing input).  For every [N = 2 ^ (m + 1)], the impulse with its
    unit sample at the window centre [N / 2], passed through [computeSTFT]
    with the identity window, comes out erased: the spectrum is zero, every
    bin has magnitude 0.  The discrete Fourier transform of the same impulse
    has magnitude 1 in every bin.  The spectrum of the code is that of
    silence, not the flat spectrum of an impulse. *)
Theorem centred_impulse_erased (m fuel : nat) :
  (S m <= fuel)%nat ->
  let N := (2 ^ S m)%nat in
  computeSTFT fuel (impulse N (N / 2)) (identityWindow N) = Some (zeros (N * 2)) /\
  forall b, (b < N)%nat ->
    magnitude (zeros (N * 2)) b = Fin 0 /\
    exists re im,
      Spec.dft (<[(N / 2)%nat := (1, 0)]> (replicate N (0, 0))) b = (re, im) /\
      R_sqrt.sqrt (re * re + im * im) = 1.
Proof.
  intros Hfuel N. split; [now apply computeSTFT_impulse_zero |].
  intros b Hb. split.
  - unfold magnitude. rewrite !get_zeros by lia. cbn [mul add].
    rewrite sqrt_Fin by lra. f_equal.
    replace (0 * 0 + 0 * 0) with 0 by ring. apply sqrt_0.
  - assert (Hc : (N / 2 < N)%nat) by (apply Nat.div_lt; lia).
    rewrite (dft_unit_sample N (N / 2) b Hc).
    eexists _, _. split; [reflexivity |]. apply unit_magnitude.
Qed.

Lemma centred_impulse_erased_witness :
  (2 <= 2)%nat /\
  let N := (2 ^ 2)%nat in
  computeSTFT 2 (impulse N (N / 2)) (identityWindow N) = Some (zeros (N * 2)) /\
  forall b, (b < N)%nat ->
    magnitude (zeros (N * 2)) b = Fin 0 /\
    exists re im,
      Spec.dft (<[(N / 2)%nat := (1, 0)]> (replicate N (0, 0))) b = (re, im) /\
      R_sqrt.sqrt (re * re + im * im) = 1.
Proof.
  split; [lia |]. apply (centred_impulse_erased 1 2). lia.
Defined.

End CentredImpulse.

(** ** Two points *)

Section TwoPoints.

Local Open Scope R_scope.

(** On two points the only butterfly has [pair = 0], so its rotation is
    zero: both output bins are the first sample, the second is dropped. *)
Lemma performFFT_two (fuel : nat) (a0 a1 b0 b1 : R) :
  performFFT (S fuel) [Fin a0; Fin a1; Fin b0; Fin b1]
  = Some [Fin a0; Fin a1; Fin a0; Fin a1].
Proof.
  unfold performFFT. change (length [Fin a0; Fin a1; Fin b0; Fin b1] / 2)%nat with (2 ^ 1)%nat.
  rewrite bitReversal_pow2 by lia. rewrite stepsOf_pow2.
  change (permuted 1 (2 ^ 1 - 1) [Fin a0; Fin a1; Fin b0; Fin b1])
    with [Fin a0; Fin a1; Fin b0; Fin b1].
  cbn [mbind option_bind seq fmap list_fmap fold_left]. f_equal.
  unfold stage. rewrite angle_Fin by (simpl; lia). cbn [cos sin].
  change (groupsOf (2 ^ 1) (2 ^ 0)) with [0%nat]. cbn [fold_left].
  change (2 ^ 0)%nat with 1%nat. rewrite forUpTo_S, forUpTo_0.
  unfold butterfly. rewrite factor_Fin by lia.
  cbn [get set Nat.mul Nat.add lookup list_lookup default from_option
       insert list_insert].
  unfold Datatypes.id. cbn [mul add sub neg].
  simpl INR. repeat f_equal; field.
Qed.

Lemma dft_two_bin0 (a0 a1 b0 b1 : R) :
  Spec.dft [(a0, a1); (b0, b1)] 0 = (a0 + b0, a1 + b1).
Proof.
  unfold Spec.dft, Spec.dftSum, Spec.dftTerm.
  cbn [zip zip_with seq fold_left length fst snd].
  simpl INR. replace (2 * PI * 0 * 0 / (1 + 1)) with 0 by field.
  replace (2 * PI * 0 * 1 / (1 + 1)) with 0 by field.
  rewrite cos_0, sin_0. f_equal; ring.
Qed.

(** C1 (failing input).  On the two samples [1, 1] the transform returns
    [1] in both bins, whereas bin 0 of the discrete Fourier transform is
    their sum [2]. *)
Theorem performFFT_differs_from_dft (fuel : nat) :
  performFFT (S fuel) [Fin 1; Fin 0; Fin 1; Fin 0] = Some [Fin 1; Fin 0; Fin 1; Fin 0] /\
  Spec.dft [(1, 0); (1, 0)] 0 = (2, 0).
Proof.
  split; [apply performFFT_two |].
  rewrite dft_two_bin0. f_equal; lra.
Qed.

End TwoPoints.

(** ** The bounds of the step and group loops are never reached *)



Lemma doublingFrom_complete N : forall bound t d,
  (2 ^ (t + d) < N)%nat -> (d < bound)%nat ->
  (2 ^ (t + d))%nat ∈ doublingFrom bound N (2 ^ t).
Proof.
  induction bound as [|bound IH]; intros t d Hlt Hd; [lia |].
  cbn [doublingFrom].
  assert (2 ^ t <= 2 ^ (t + d))%nat by (apply Nat.pow_le_mono_r; lia).
  rewrite (proj2 (Nat.ltb_lt (2 ^ t) N)) by lia.
  destruct d as [|d].
  - rewrite Nat.add_0_r. left.
  - right. rewrite Nat.shiftl_mul_pow2. change (2 ^ 1)%nat with 2%nat.
    rewrite Nat.mul_comm, <- Nat.pow_succ_r'.
    replace (t + S d)%nat with (S t + d)%nat in * by lia.
    apply IH; [assumption | lia].
Qed.

Lemma stepsOf_complete N t : (2 ^ t < N)%nat -> (2 ^ t)%nat ∈ stepsOf N.
Proof.
  intros Hlt. unfold stepsOf.
  apply (doublingFrom_complete N N 0 t); [assumption |].
  pose proof (Nat.pow_gt_lin_r 2 t). lia.
Qed.

(** ** The first bin of any transform *)

Section FirstBin.

Local Open Scope R_scope.

Lemma swapComplex_head (l : list num) i j :
  (0 < i)%nat -> (0 < j)%nat ->
  get (swapComplex l i j) 0 = get l 0 /\ get (swapComplex l i j) 1 = get l 1.
Proof.
  intros Hi Hj. unfold swapComplex. rewrite !get_set.
  split; repeat case_decide; destruct_and?; first [lia | reflexivity].
Qed.

Lemma swapComplex_finite (l : list num) i j :
  (i * 2 + 1 < length l)%nat -> (j * 2 + 1 < length l)%nat ->
  finiteEntries l -> finiteEntries (swapComplex l i j).
Proof.
  intros Hi Hj Hfin p Hp. rewrite length_swapComplex in Hp.
  unfold swapComplex. rewrite !get_set.
  repeat case_decide; destruct_and?; apply Hfin; lia.
Qed.

Lemma permuted_head m n (l : list num) :
  (n <= 2 ^ m)%nat -> length l = (2 ^ m * 2)%nat -> finiteEntries l ->
  length (permuted m n l) = length l /\ finiteEntries (permuted m n l) /\
  get (permuted m n l) 0 = get l 0 /\ get (permuted m n l) 1 = get l 1.
Proof.
  intros Hn Hlen Hfin. induction n as [|n IH]; [now repeat split |].
  destruct (IH ltac:(lia)) as (L & F & E0 & E1).
  rewrite permuted_S. pose proof (reverseBits_lt m n) as Hlt.
  destruct (n <? reverseBits m n)%nat eqn:E; [| now repeat split].
  apply Nat.ltb_lt in E. rewrite length_swapComplex.
  split; [assumption |]. split; [apply swapComplex_finite; [lia | lia | assumption] |].
  destruct n as [|n].
  - rewrite reverseBits_0 in E. lia.
  - destruct (swapComplex_head (permuted m (S n) l) (S n) (reverseBits m (S n)))
      as [-> ->]; [lia | lia |]. now split.
Qed.

(** A butterfly in range keeps the entries finite, and keeps the complex
    value at index 0: its pair 0 adds zero times the partner. *)
Lemma butterfly_head step group c s pair (l : list num) :
  step <> 0%nat ->
  (group * 2 + pair * 2 + step * 2 + 1 < length l)%nat ->
  finiteEntries l ->
  finiteEntries (butterfly step group (Fin c) (Fin s) pair l) /\
  get (butterfly step group (Fin c) (Fin s) pair l) 0 = get l 0 /\
  get (butterfly step group (Fin c) (Fin s) pair l) 1 = get l 1.
Proof.
  intros Hstep Hrange Hfin. unfold butterfly.
  destruct (Hfin (group * 2 + pair * 2)%nat ltac:(lia)) as [er Eer].
  destruct (Hfin (group * 2 + pair * 2 + 1)%nat ltac:(lia)) as [ei Eei].
  destruct (Hfin (group * 2 + pair * 2 + step * 2)%nat ltac:(lia)) as [or Eor].
  destruct (Hfin (group * 2 + pair * 2 + step * 2 + 1)%nat ltac:(lia)) as [oi Eoi].
  rewrite Eer, Eei, Eor, Eoi, factor_Fin by assumption. cbn [mul add sub neg].
  split; [| split].
  - intros p Hp. rewrite !length_set in Hp. rewrite !get_set.
    repeat case_decide; destruct_and?; eauto.
  - rewrite !get_set, !length_set.
    repeat case_decide; destruct_and?; try lia; try reflexivity.
    assert (group = 0%nat /\ pair = 0%nat) as [-> ->] by lia.
    cbn [Nat.mul Nat.add] in Eer. rewrite Eer. f_equal. simpl INR. unfold Rdiv. ring.
  - rewrite !get_set, !length_set.
    repeat case_decide; destruct_and?; try lia; try reflexivity.
    assert (group = 0%nat /\ pair = 0%nat) as [-> ->] by lia.
    cbn [Nat.mul Nat.add] in Eei. rewrite Eei. f_equal. simpl INR. unfold Rdiv. ring.
Qed.

Lemma stage_head m t (l : list num) :
  (t < m)%nat -> length l = (2 ^ m * 2)%nat -> finiteEntries l ->
  length (stage (2 ^ m) l (2 ^ t)) = length l /\
  finiteEntries (stage (2 ^ m) l (2 ^ t)) /\
  get (stage (2 ^ m) l (2 ^ t)) 0 = get l 0 /\
  get (stage (2 ^ m) l (2 ^ t)) 1 = get l 1.
Proof.
  intros Ht Hlen Hfin. unfold stage.
  assert (Hstep : (2 ^ t)%nat <> 0%nat) by apply Nat.pow_nonzero, Nat.neq_succ_0.
  rewrite angle_Fin by assumption. cbn [cos sin].
  apply (fold_left_invariant
           (fun l' => length l' = length l /\ finiteEntries l' /\
                      get l' 0 = get l 0 /\ get l' 1 = get l 1));
    [now repeat split |].
  intros l1 g Hg Hl1. apply group_in_range in Hg; [| assumption].
  apply (forUpTo_invariant
           (fun _ l' => length l' = length l /\ finiteEntries l' /\
                        get l' 0 = get l 0 /\ get l' 1 = get l 1));
    [assumption |].
  intros pair l2 Hpair (L & F & E0 & E1).
  destruct (butterfly_head (2 ^ t) g
              (Rtrigo_def.cos (- PI / INR (2 ^ t))) (Rtrigo_def.sin (- PI / INR (2 ^ t)))
              pair l2 Hstep ltac:(lia) F) as (F' & E0' & E1').
  rewrite length_butterfly.
  split; [exact L |]. split; [exact F' |]. split; congruence.
Qed.

(** For every [N = 2 ^ m] and every finite input, the transform returns,
    and its bin 0 is the first sample of the input. *)
Lemma performFFT_first_bin m fuel (l : list num) :
  (m <= fuel)%nat -> length l = (2 ^ m * 2)%nat -> finiteEntries l ->
  exists out, performFFT fuel l = Some out /\
              get out 0 = get l 0 /\ get out 1 = get l 1.
Proof.
  intros Hfuel Hlen Hfin. unfold performFFT.
  rewrite Hlen, Nat.div_mul by lia. rewrite bitReversal_pow2 by assumption.
  cbn [mbind option_bind]. eexists. split; [reflexivity |].
  destruct (permuted_head m (2 ^ m - 1) l ltac:(lia) Hlen Hfin) as (L & F & E0 & E1).
  rewrite stepsOf_pow2. rewrite <- E0, <- E1.
  assert (H : forall steps (l' : list num),
             Forall (fun s => exists t, (t < m)%nat /\ s = (2 ^ t)%nat) steps ->
             length l' = (2 ^ m * 2)%nat -> finiteEntries l' ->
             get (fold_left (stage (2 ^ m)) steps l') 0 = get l' 0 /\
             get (fold_left (stage (2 ^ m)) steps l') 1 = get l' 1).
  { induction steps as [|s steps IH]; intros l' Hs Hl' Hf'; [now split |].
    inversion Hs as [| ? ? (t & Ht & ->) Hs']; subst.
    destruct (stage_head m t l' Ht Hl' Hf') as (L' & F' & E0' & E1').
    cbn [fold_left].
    destruct (IH (stage (2 ^ m) l' (2 ^ t)) Hs' ltac:(congruence) F') as [-> ->].
    now split. }
  apply H; [| congruence | assumption].
  apply Forall_forall. intros s Hs. apply list_elem_of_fmap in Hs as [t [-> Ht]].
  apply elem_of_seq in Ht. exists t. split; [lia | reflexivity].
Qed.

End FirstBin.

(** ** A constant signal *)

Section ConstantSignal.

Local Open Scope R_scope.

Lemma dftSum_bin0 N : forall (xs : list (R * R)) (s : nat) (a b : R),
  fold_left
    (fun acc nx => let t := Spec.dftTerm N 0 (fst nx) (snd nx) in
                   (fst acc + fst t, snd acc + snd t))
    (zip (seq s (length xs)) xs) (a, b)
  = (a + sumR (fst <$> xs), b + sumR (snd <$> xs)).
Proof.
  induction xs as [|x xs IH]; intros s a b.
  - cbn. f_equal; ring.
  - cbn [length seq zip zip_with fold_left fmap list_fmap sumR fold_right].
    unfold zip in IH. rewrite IH. unfold Spec.dftTerm. cbn [fst snd].
    replace (2 * PI * INR 0 * INR s / INR N) with 0 by (simpl; unfold Rdiv; ring).
    rewrite cos_0, sin_0. fold (sumR (fst <$> xs)) (sumR (snd <$> xs)).
    f_equal; ring.
Qed.

(** Bin 0 of the discrete Fourier transform is the sum of the samples. *)
Lemma dft_bin0 (xs : list (R * R)) :
  Spec.dft xs 0 = (sumR (fst <$> xs), sumR (snd <$> xs)).
Proof.
  unfold Spec.dft, Spec.dftSum. rewrite dftSum_bin0. f_equal; ring.
Qed.

Lemma sumR_replicate n (x : R) : sumR (replicate n x) = INR n * x.
Proof.
  induction n as [|n IH]; [simpl; ring |].
  cbn [replicate sumR fold_right]. fold (sumR (replicate n x)).
  rewrite IH, S_INR. ring.
Qed.

(** For every [N = 2 ^ m >= 2], the constant signal of [N] ones through
    [computeSTFT] with the identity window gives 1 in bin 0, whereas bin 0 of
    its discrete Fourier transform is [N]. *)
Lemma constant_signal_bin0 m fuel :
  (S m <= fuel)%nat ->
  exists out,
    computeSTFT fuel (replicate (2 ^ S m) (Fin 1)) (identityWindow (2 ^ S m)) = Some out /\
    get out 0 = Fin 1 /\ get out 1 = Fin 0 /\
    Spec.dft (replicate (2 ^ S m) (1, 0)) 0 = (INR (2 ^ S m), 0).
Proof.
  intros Hfuel. pose proof (pow2_ge_2 m) as Hge.
  unfold computeSTFT. rewrite length_replicate, forUpTo_fill_zeros.
  match goal with
  | |- context [forUpTo ?N (fun i r => set (set r (i * 2) (@?f i)) _ _) ?z] =>
      destruct (packed_spec f N) as [Hlen Hget];
      set (packed := forUpTo N (fun i r => set (set r (i * 2) (f i)) (i * 2 + 1) (Fin 0)) z) in *
  end.
  assert (Hfin : finiteEntries packed).
  { intros p Hp. rewrite Hlen in Hp.
    pose proof (Nat.div_mod_eq p 2) as Hdm.
    assert (Hmod : (p mod 2 < 2)%nat) by (apply Nat.mod_upper_bound; lia).
    set (q := (p / 2)%nat) in *. clearbody q.
    destruct (Hget q ltac:(lia)) as [E0 E1].
    destruct (decide (p mod 2 = 0)%nat) as [Hz | Hz].
    - assert (p = q * 2)%nat as -> by lia. rewrite E0.
      rewrite get_fmap_seq, get_identityWindow by lia.
      unfold get. rewrite lookup_replicate_2 by lia. cbn [default from_option].
      unfold Datatypes.id. cbn [mul]. eauto.
    - assert (p = q * 2 + 1)%nat as -> by lia. rewrite E1. eauto. }
  destruct (performFFT_first_bin (S m) fuel packed Hfuel Hlen Hfin)
    as (out & -> & E0 & E1).
  exists out. split; [reflexivity |].
  destruct (Hget 0%nat ltac:(lia)) as [G0 G1]. cbn [Nat.mul Nat.add] in G0, G1.
  rewrite E0, E1, G0, G1.
  rewrite get_fmap_seq, get_identityWindow by lia.
  unfold get. rewrite lookup_replicate_2 by lia.
  cbn [default from_option]. unfold Datatypes.id. cbn [mul].
  split; [f_equal; lra |]. split; [reflexivity |].
  rewrite dft_bin0, !fmap_replicate. cbn [fst snd].
  rewrite !sumR_replicate. f_equal; ring.
Qed.

End ConstantSignal.

(** ** An impulse one sample before the centre *)

Section OffCentre.

Local Open Scope R_scope.

Lemma performFFT_four_off_centre :
  performFFT 2 (impulse 8 2)
  = Some [Fin 0; Fin 0; Fin 0; Fin (- (1 / 2)); Fin 0; Fin 0; Fin 0; Fin (1 / 2)].
Proof.
  unfold performFFT. rewrite length_impulse. change (8 / 2)%nat with (2 ^ 2)%nat.
  rewrite bitReversal_pow2 by lia. rewrite stepsOf_pow2.
  change (permuted 2 (2 ^ 2 - 1) (impulse 8 2))
    with [Fin 0; Fin 0; Fin 0; Fin 0; Fin 1; Fin 0; Fin 0; Fin 0].
  cbn [mbind option_bind seq fmap list_fmap fold_left]. f_equal.
  unfold stage. rewrite !angle_Fin by (simpl; lia). cbn [cos sin].
  change (groupsOf (2 ^ 2) (2 ^ 0)) with [0%nat; 2%nat].
  change (groupsOf (2 ^ 2) (2 ^ 1)) with [0%nat].
  change (2 ^ 0)%nat with 1%nat. change (2 ^ 1)%nat with 2%nat.
  cbn [fold_left]. rewrite !forUpTo_S, !forUpTo_0.
  unfold butterfly. rewrite !factor_Fin by lia.
  cbn [get set Nat.mul Nat.add lookup list_lookup default from_option
       insert list_insert].
  unfold Datatypes.id. cbn [mul add sub neg].
  simpl INR.
  replace (- PI / (1 + 1)) with (- (PI / 2)) by field.
  rewrite cos_neg, sin_neg, cos_PI2, sin_PI2.
  repeat f_equal; field.
Qed.

(** With the unit sample at index [N / 2 - 1] instead of [N / 2] the
    magnitudes on four points are [0, 1/2, 0, 1/2]: not flat. *)
Lemma off_centre_impulse_not_flat :
  exists out,
    computeSTFT 2 (impulse 4 1) (identityWindow 4) = Some out /\
    magnitude out 0 <> magnitude out 1.
Proof.
  eexists. split.
  - rewrite computeSTFT_impulse_packed by lia. apply performFFT_four_off_centre.
  - unfold magnitude.
    cbn [get Nat.mul Nat.add lookup list_lookup default from_option].
    unfold Datatypes.id. cbn [mul add].
    rewrite !sqrt_Fin by lra. intros [= E].
    replace (0 * 0 + 0 * 0) with 0 in E by ring. rewrite sqrt_0 in E.
    assert (0 < R_sqrt.sqrt (0 * 0 + - (1 / 2) * - (1 / 2)))
      by (apply sqrt_lt_R0; lra).
    lra.
Qed.

End OffCentre.

(** ** The frames *)

Section Frames.

Local Open Scope R_scope.

Lemma Zfloor_div (a b : Z) : (0 < b)%Z -> Zfloor (IZR a / IZR b) = (a / b)%Z.
Proof.
  intros Hb. apply Zfloor_eq.
  pose proof (Z.div_mod a b ltac:(lia)) as Hdm.
  pose proof (Z.mod_pos_bound a b Hb) as [Hr0 Hr1].
  apply (f_equal IZR) in Hdm. rewrite plus_IZR, mult_IZR in Hdm.
  apply IZR_le in Hr0. apply IZR_lt in Hr1. apply IZR_lt in Hb.
  assert (Hinv : 0 < / IZR b) by now apply Rinv_0_lt_compat.
  replace (IZR a / IZR b) with (IZR (a / b) + IZR (a mod b) * / IZR b)
    by (rewrite Hdm; field; lra).
  assert (IZR (a mod b) * / IZR b < 1).
  { apply (Rmult_lt_reg_r (IZR b)); [assumption |].
    rewrite Rmult_assoc, Rinv_l by lra. lra. }
  assert (0 <= IZR (a mod b) * / IZR b) by (apply Rmult_le_pos; lra).
  lra.
Qed.

Lemma Zceil_IZR z : Zceil (IZR z) = z.
Proof. unfold Zceil. rewrite ZfloorNZ. lia. Qed.

(** On integers and a positive step the number of frames computed on
    numbers is the integer formula. *)
Lemma nFramesOf_integer (len step : nat) :
  (0 < step)%nat ->
  nFramesOf len step =
    Fin (IZR (Z.max 1 ((Z.of_nat len - Z.of_nat WINDOW_SIZE) / Z.of_nat step + 1))).
Proof.
  intros Hstep. unfold nFramesOf, ofZ, ofNat.
  rewrite (INR_IZR_INZ step).
  rewrite div_Fin by (apply not_0_IZR; lia).
  cbn [floor]. rewrite Zfloor_div by lia. rewrite add_Fin, <- (plus_IZR _ 1).
  set (q := ((Z.of_nat len - Z.of_nat WINDOW_SIZE) / Z.of_nat step + 1)%Z).
  unfold max, lt.
  destruct (Z.le_gt_cases q 1) as [Hq | Hq].
  - rewrite Rltb_false by now apply IZR_le. now rewrite Z.max_l.
  - rewrite Rltb_true by (apply IZR_lt; lia). now rewrite Z.max_r by lia.
Qed.

Lemma iterationsBelow_nFramesOf (len step : nat) :
  (0 < step)%nat ->
  iterationsBelow (nFramesOf len step) =
    Some (Z.to_nat (Z.max 1 ((Z.of_nat len - Z.of_nat WINDOW_SIZE) / Z.of_nat step + 1))).
Proof.
  intros Hstep. rewrite nFramesOf_integer by assumption.
  cbn [iterationsBelow]. now rewrite Zceil_IZR.
Qed.

Lemma short_buffer_quotient (len step : nat) :
  (0 < step)%nat -> (len < WINDOW_SIZE)%nat ->
  Z.max 1 ((Z.of_nat len - Z.of_nat WINDOW_SIZE) / Z.of_nat step + 1) = 1%Z.
Proof.
  intros Hstep Hlen.
  assert ((Z.of_nat len - Z.of_nat WINDOW_SIZE) / Z.of_nat step < 0)%Z
    by (apply Z.div_lt_upper_bound; lia).
  lia.
Qed.

Example nFrames_3000 : iterationsBelow (nFramesOf 3000 512) = Some 2%nat.
Proof. rewrite iterationsBelow_nFramesOf by lia. reflexivity. Qed.

Example nFrames_1024 : iterationsBelow (nFramesOf 1024 512) = Some 1%nat.
Proof. rewrite iterationsBelow_nFramesOf by lia. reflexivity. Qed.

(** C7.  For every audio buffer and every positive step, the frame loop of
    [analyzeReassignment] runs [max (1, floor ((len - N) / step) + 1)] times,
    and once when the buffer is shorter than the window. *)
Theorem frame_count (fuel : nat) (phases audioData : list num) (sampleRate : num)
    (step K : nat) (tm : num) :
  (0 < step)%nat ->
  let len := length audioData in
  let n := Z.to_nat (Z.max 1 ((Z.of_nat len - Z.of_nat WINDOW_SIZE) / Z.of_nat step + 1)) in
  iterationsBelow (nFramesOf len step) = Some n /\
  analyzeReassignment fuel phases audioData sampleRate step K tm =
    forUpToM n
      (frameStep fuel sampleRate (createHermiteFunctions WINDOW_SIZE K tm)
         (normalize audioData) step K)
      (replicate (WINDOW_SIZE / 2) 0%Z, phases) /\
  (1 <= n)%nat /\
  ((len < WINDOW_SIZE)%nat -> n = 1%nat).
Proof.
  intros Hstep len n.
  assert (Hn : iterationsBelow (nFramesOf len step) = Some n)
    by now apply iterationsBelow_nFramesOf.
  split; [exact Hn |]. split; [| split].
  - unfold analyzeReassignment. fold len. now rewrite Hn.
  - subst n. lia.
  - intros Hlen. subst n. now rewrite short_buffer_quotient.
Qed.

Lemma frame_count_witness :
  (0 < 512)%nat /\
  iterationsBelow (nFramesOf (length (zeros 3000)) 512) =
    Some (Z.to_nat (Z.max 1 ((Z.of_nat (length (zeros 3000)) - Z.of_nat WINDOW_SIZE)
                             / Z.of_nat 512 + 1))).
Proof.
  split; [lia |].
  apply (frame_count 0 [] (zeros 3000) (Fin 44100) 512 6 (Fin 6)). lia.
Defined.

End Frames.

Section FrameLengths.

Lemma length_normalize (audioData : list num) :
  length (normalize audioData) = length audioData.
Proof.
  unfold normalize. now rewrite forUpTo_fill_zeros, length_fmap, length_seq.
Qed.

Lemma length_frameData (normalizedData : list num) step frame :
  length (frameData normalizedData step frame)
  = Nat.min WINDOW_SIZE (length normalizedData - frame * step).
Proof.
  unfold frameData, slice. rewrite length_take, length_drop. f_equal. lia.
Qed.

Lemma frameData_whole (normalizedData : list num) step :
  (length normalizedData <= WINDOW_SIZE)%nat ->
  frameData normalizedData step 0 = normalizedData.
Proof.
  intros H. unfold frameData, slice. rewrite Nat.mul_0_l, drop_0.
  apply take_ge. lia.
Qed.

(** A frame that starts inside a buffer of at least a window is full. *)
Lemma full_frame_start (len step frame : nat) :
  (0 < step)%nat -> (WINDOW_SIZE <= len)%nat ->
  (frame < Z.to_nat (Z.max 1 ((Z.of_nat len - Z.of_nat WINDOW_SIZE) / Z.of_nat step + 1)))%nat ->
  (frame * step + WINDOW_SIZE <= len)%nat.
Proof.
  intros Hstep Hlen Hframe.
  set (a := (Z.of_nat len - Z.of_nat WINDOW_SIZE)%Z) in *.
  assert (Ha : (0 <= a)%Z) by lia.
  pose proof (Z.div_pos a (Z.of_nat step) Ha ltac:(lia)) as Hq.
  pose proof (Z.mul_div_le a (Z.of_nat step) ltac:(lia)) as Hmul.
  assert (Hf : (Z.of_nat frame <= a / Z.of_nat step)%Z) by lia.
  assert ((Z.of_nat frame * Z.of_nat step <= a)%Z) by nia.
  lia.
Qed.

End FrameLengths.

(** ** The shape of the output *)

Section Output.

Lemma length_writeResult tfr (result : list Z) :
  length (writeResult tfr result) = length result.
Proof.
  unfold writeResult. destruct (gt _ _); [| reflexivity].
  apply (forUpTo_invariant (fun _ r => length r = length result)); [reflexivity |].
  intros i r _ Hr. now rewrite length_insert.
Qed.

Lemma frameStep_length fuel sampleRate w normalizedData step K frame s s' :
  frameStep fuel sampleRate w normalizedData step K frame s = Some s' ->
  length s'.1 = length s.1.
Proof.
  destruct s as [result phases]. unfold frameStep.
  destruct (forUpToM K _ _) as [b |]; [| discriminate].
  cbn [mbind option_bind]. intros [= <-]. apply length_writeResult.
Qed.

Lemma forUpToM_preserves {S : Type} (P : S -> Prop) n (body : nat -> S -> option S) s s' :
  (forall i a a', body i a = Some a' -> P a -> P a') ->
  P s -> forUpToM n body s = Some s' -> P s'.
Proof.
  intros Hbody Hs. revert s'. induction n as [|n IH]; intros s' H.
  - injection H as <-. exact Hs.
  - rewrite forUpToM_S in H. destruct (forUpToM n body s) as [a |]; [| discriminate].
    cbn [mbind option_bind] in H. eapply Hbody; [exact H |]. now apply IH.
Qed.

(** Whenever [analyzeReassignment] returns, it returns [N / 2 = 1024] bytes. *)
Lemma analyzeReassignment_length fuel phases audioData sampleRate step K tm out phases' :
  analyzeReassignment fuel phases audioData sampleRate step K tm = Some (out, phases') ->
  length out = 1024%nat.
Proof.
  unfold analyzeReassignment. destruct (iterationsBelow _) as [n |]; [| discriminate].
  cbn [mbind option_bind]. intros H.
  apply (forUpToM_preserves (fun s : list Z * list num => length s.1 = 1024%nat)) in H.
  - exact H.
  - intros i a a' Hstep Ha. apply frameStep_length in Hstep. congruence.
  - cbn [fst]. now rewrite length_replicate.
Qed.

(** A buffer of exactly one window gives one frame, whatever the step. *)
Lemma one_window_one_frame (step : nat) :
  (0 < step)%nat -> iterationsBelow (nFramesOf WINDOW_SIZE step) = Some 1%nat.
Proof.
  intros Hstep. rewrite iterationsBelow_nFramesOf by assumption.
  now rewrite Z.sub_diag, Z.div_0_l by lia.
Qed.

End Output.

(** ** The phase buffer is written and never read *)

Section PhaseBuffer.

Let same := samePhaseless.

Lemma forUpToM_related {S : Type} (R : S -> S -> Prop) n
    (body : nat -> S -> option S) s1 s2 :
  (forall i a1 a2, R a1 a2 -> option_Forall2 R (body i a1) (body i a2)) ->
  R s1 s2 ->
  option_Forall2 R (forUpToM n body s1) (forUpToM n body s2).
Proof.
  intros Hbody HR. induction n as [|n IH]; [now constructor |].
  rewrite !forUpToM_S. destruct IH as [a1 a2 Ha |]; [| constructor].
  simpl. now apply Hbody.
Qed.

Lemma binStep_same fuel sampleRate stft freqMod bin s1 s2 :
  same s1 s2 ->
  option_Forall2 same (binStep fuel sampleRate stft freqMod bin s1)
                      (binStep fuel sampleRate stft freqMod bin s2).
Proof.
  intros [Et Em]. unfold binStep. rewrite <- Em, <- Et.
  destruct (gt _ _); [| now constructor].
  destruct (freqOffsetOf fuel sampleRate stft freqMod bin) as [freqOffset |];
    [| constructor].
  cbn [mbind option_bind].
  destruct (_ && _); constructor; split; reflexivity.
Qed.

Lemma taperStep_same fuel sampleRate w frame k s1 s2 :
  same s1 s2 ->
  option_Forall2 same (taperStep fuel sampleRate w frame k s1)
                      (taperStep fuel sampleRate w frame k s2).
Proof.
  intros Hs. unfold taperStep.
  destruct (computeSTFT fuel frame (slice (h w) _ _)) as [stft |];
    [| constructor].
  destruct (computeSTFT fuel frame (slice (Dh w) _ _)) as [freqMod |];
    [| constructor].
  cbn [mbind option_bind].
  apply forUpToM_related; [| assumption].
  intros i a1 a2. apply binStep_same.
Qed.

Lemma frameStep_same fuel sampleRate w normalizedData step K frame
    (s1 s2 : list Z * list num) :
  s1.1 = s2.1 ->
  option_Forall2 (fun a1 a2 => a1.1 = a2.1)
    (frameStep fuel sampleRate w normalizedData step K frame s1)
    (frameStep fuel sampleRate w normalizedData step K frame s2).
Proof.
  destruct s1 as [result1 phases1], s2 as [result2 phases2]. cbn [fst].
  intros <-. unfold frameStep.
  pose proof (forUpToM_related same K
    (taperStep fuel sampleRate w (frameData normalizedData step frame))
    (mkBinState (zeros (WINDOW_SIZE / 2)) (Fin 0) phases1)
    (mkBinState (zeros (WINDOW_SIZE / 2)) (Fin 0) phases2)
    (fun i => taperStep_same fuel sampleRate w _ i)
    (conj eq_refl eq_refl)) as H.
  destruct H as [a1 a2 [Et Em] |]; constructor.
  cbn [fst]. now rewrite Et.
Qed.

Lemma analyzeReassignment_same fuel phases1 phases2 audioData sampleRate step K tm :
  fst <$> analyzeReassignment fuel phases1 audioData sampleRate step K tm
  = fst <$> analyzeReassignment fuel phases2 audioData sampleRate step K tm.
Proof.
  unfold analyzeReassignment.
  destruct (iterationsBelow _) as [n |]; [| reflexivity].
  cbn [mbind option_bind].
  pose proof (forUpToM_related (fun a1 a2 : list Z * list num => a1.1 = a2.1) n
    (frameStep fuel sampleRate (createHermiteFunctions WINDOW_SIZE K tm)
       (normalize audioData) step K)
    (replicate (WINDOW_SIZE / 2) 0%Z, phases1)
    (replicate (WINDOW_SIZE / 2) 0%Z, phases2)
    (fun i => frameStep_same fuel sampleRate _ _ step K i) eq_refl) as H.
  destruct H as [a1 a2 E |]; [| reflexivity]. cbn. now rewrite E.
Qed.

(** C5.  The output of [analyzeReassignment] is a function of the audio
    buffer, the sample rate, the step, [K] and [tm] alone: two calls that
    differ only in the contents of [previousPhase] return the same bytes (or
    neither returns), and a second call run on the buffer the first one left
    behind returns the bytes of the first. *)
Theorem analyzeReassignment_deterministic (fuel : nat) (audioData : list num)
    (sampleRate : num) (step K : nat) (tm : num) :
  (forall phases1 phases2,
     fst <$> analyzeReassignment fuel phases1 audioData sampleRate step K tm
     = fst <$> analyzeReassignment fuel phases2 audioData sampleRate step K tm) /\
  (forall phases out phases',
     analyzeReassignment fuel phases audioData sampleRate step K tm
       = Some (out, phases') ->
     exists phases'',
       analyzeReassignment fuel phases' audioData sampleRate step K tm
         = Some (out, phases'')).
Proof.
  split; [intros; apply analyzeReassignment_same |].
  intros phases out phases' H.
  pose proof (analyzeReassignment_same fuel phases phases' audioData sampleRate
                step K tm) as E.
  rewrite H in E. cbn in E.
  destruct (analyzeReassignment fuel phases' audioData sampleRate step K tm)
    as [[out' phases''] |]; [| discriminate].
  cbn in E. injection E as <-. now exists phases''.
Qed.

End PhaseBuffer.

(** ** The reassignment of one bin *)

Section BinStep.

Local Open Scope R_scope.

Lemma atan_pos x : 0 < x -> 0 < atan x.
Proof. intros H. rewrite <- atan_0. now apply atan_increasing. Qed.

Lemma atan_nonpos x : x <= 0 -> atan x <= 0.
Proof.
  intros [H | ->]; [| rewrite atan_0; lra].
  left. rewrite <- atan_0. now apply atan_increasing.
Qed.

Lemma Ratan2_range y x : - PI <= Ratan2 y x <= PI.
Proof.
  pose proof PI_RGT_0 as Hpi. unfold Ratan2, Rltb.
  destruct (Rlt_dec 0 x) as [Hx | Hx].
  { pose proof (atan_bound (y / x)). lra. }
  destruct (Rlt_dec x 0) as [Hx' | Hx'].
  - assert (Hinv : / x < 0) by now apply Rinv_lt_0_compat.
    pose proof (atan_bound (y / x)) as Hb.
    destruct (Rlt_dec y 0) as [Hy | Hy].
    + assert (0 < atan (y / x)) by (apply atan_pos; unfold Rdiv; nra). lra.
    + assert (atan (y / x) <= 0) by (apply atan_nonpos; unfold Rdiv; nra). lra.
  - destruct (Rlt_dec 0 y); [lra |]. destruct (Rlt_dec y 0); lra.
Qed.

Lemma atan2_range y x :
  atan2 y x = NaN \/ exists r, atan2 y x = Fin r /\ - PI <= r <= PI.
Proof.
  pose proof PI_RGT_0 as Hpi.
  destruct y as [| b | |], x as [| a | |]; cbn [atan2]; try (now left); right.
  - eexists. split; [reflexivity | apply Ratan2_range].
  - eexists. split; [reflexivity | lra].
  - destruct (Rltb b 0); eexists; (split; [reflexivity | lra]).
  - eexists. split; [reflexivity | lra].
  - eexists. split; [reflexivity | lra].
  - eexists. split; [reflexivity | lra].
  - eexists. split; [reflexivity | lra].
  - eexists. split; [reflexivity | lra].
  - eexists. split; [reflexivity | lra].
Qed.

Lemma while_exit {S : Type} fuel (cond : S -> bool) body s :
  cond s = false -> while (Datatypes.S fuel) cond body s = Some s.
Proof. intros H. cbn [while]. now rewrite H. Qed.

(** The offset before wrapping is a phase difference over [2π]; it lies in
    [-1, 1] and neither [while] loop runs its body. *)
Lemma raw_offset_range phase freqPhase :
  (phase = NaN \/ exists r, phase = Fin r /\ - PI <= r <= PI) ->
  (freqPhase = NaN \/ exists r, freqPhase = Fin r /\ - PI <= r <= PI) ->
  let x := div (sub freqPhase phase) (mul (Fin 2) pi) in
  x = NaN \/ exists r, x = Fin r /\ -1 <= r <= 1.
Proof.
  pose proof PI_RGT_0 as Hpi.
  intros [-> | (p & -> & Hp)] [-> | (q & -> & Hq)] x; subst x;
    try (left; reflexivity).
  right. unfold pi. rewrite sub_Fin, mul_Fin, div_Fin by lra.
  eexists. split; [reflexivity |].
  split.
  - apply (Rmult_le_reg_r (2 * PI)); [lra |].
    unfold Rdiv. rewrite Rmult_assoc, Rinv_l by lra. lra.
  - apply (Rmult_le_reg_r (2 * PI)); [lra |].
    unfold Rdiv. rewrite Rmult_assoc, Rinv_l by lra. lra.
Qed.

Lemma wrapOffset_identity fuel x :
  (x = NaN \/ exists r, x = Fin r /\ -1 <= r <= 1) ->
  wrapOffset (S fuel) x = Some x.
Proof.
  pose proof PI2_1 as Hpi.
  intros Hx. unfold wrapOffset.
  rewrite while_exit.
  - cbn [mbind option_bind]. apply while_exit.
    destruct Hx as [-> | (r & -> & Hr)]; [reflexivity |].
    unfold pi. cbn [neg lt]. apply Rltb_false. lra.
  - destruct Hx as [-> | (r & -> & Hr)]; [reflexivity |].
    unfold gt, pi. cbn [lt]. apply Rltb_false. lra.
Qed.

(** The limit [Math.max (-50, Math.min (50, x))]. *)
Lemma clamp_range x :
  let y := max (neg (Fin 50)) (min (Fin 50) x) in
  y = NaN \/ exists r, y = Fin r /\ -50 <= r <= 50.
Proof.
  destruct x as [| a | |]; cbn [neg min max lt]; [now left | | |]; right.
  - destruct (Rltb_cases a 50) as [[-> Ha] | [-> Ha]]; cbn [lt].
    + destruct (Rltb_cases (- (50)) a) as [[-> Hb] | [-> Hb]];
        eexists; (split; [reflexivity | lra]).
    + destruct (Rltb_cases (- (50)) 50) as [[-> Hb] | [-> Hb]];
        eexists; (split; [reflexivity | lra]).
  - destruct (Rltb_cases (- (50)) 50) as [[-> Hb] | [-> Hb]];
      eexists; (split; [reflexivity | lra]).
  - eexists. split; [reflexivity | lra].
Qed.

Lemma freqOffsetOf_total fuel sampleRate stft freqMod bin :
  exists freqOffset,
    freqOffsetOf (S fuel) sampleRate stft freqMod bin = Some freqOffset /\
    (freqOffset = NaN \/ exists r, freqOffset = Fin r /\ -50 <= r <= 50).
Proof.
  unfold freqOffsetOf. rewrite wrapOffset_identity.
  - cbn [mbind option_bind]. eexists. split; [reflexivity |]. apply clamp_range.
  - apply raw_offset_range; apply atan2_range.
Qed.

Lemma round_cases x :
  round x = NaN \/ round x = PInf \/ round x = NInf \/ exists z, round x = Fin (IZR z).
Proof. destruct x; cbn [round]; eauto. Qed.

Lemma half_window : (WINDOW_SIZE / 2 = 1024)%nat.
Proof. reflexivity. Qed.

(** A reassigned bin that passes the guard is an index below [N / 2]. *)
Lemma guard_index (reassignedBin : num) :
  (exists z, reassignedBin = Fin (IZR z)) \/ reassignedBin = NaN \/
  reassignedBin = PInf \/ reassignedBin = NInf ->
  ge reassignedBin (Fin 0) && lt reassignedBin (ofNat (WINDOW_SIZE / 2)) = true ->
  exists b', (b' < WINDOW_SIZE / 2)%nat /\ reassignedBin = Fin (INR b') /\
             asIndex reassignedBin = Some b'.
Proof.
  intros Hcases Hguard. apply andb_prop in Hguard as [Hge Hlt].
  destruct Hcases as [[z ->] | [-> | [-> | ->]]]; try discriminate.
  unfold ge, ofNat in *. cbn [le lt] in *.
  apply Rleb_spec in Hge. apply Rltb_spec in Hlt.
  rewrite INR_IZR_INZ in Hlt. apply le_IZR in Hge. apply lt_IZR in Hlt.
  exists (Z.to_nat z). split; [lia |].
  assert (E : INR (Z.to_nat z) = IZR z) by (rewrite INR_IZR_INZ; f_equal; lia).
  split; [now rewrite E |].
  unfold asIndex. rewrite isInteger_IZR, ZfloorZ.
  rewrite (proj2 (Rleb_spec 0 (IZR z))) by now apply IZR_le. reflexivity.
Qed.

Lemma reassignedBinOf_NaN sampleRate bin : reassignedBinOf sampleRate bin NaN = NaN.
Proof.
  unfold reassignedBinOf. now rewrite add_NaN_r, mul_NaN_l, div_NaN_l.
Qed.

End BinStep.

Section FiniteOffset.

Local Open Scope R_scope.

Lemma atan2_number y x : y <> NaN -> x <> NaN -> exists r, atan2 y x = Fin r.
Proof.
  intros Hy Hx. destruct (atan2_range y x) as [E | (r & E & _)]; [| eauto].
  destruct y, x; try congruence; cbn [atan2] in E; try discriminate.
  destruct (Rltb r 0); discriminate.
Qed.

(** When the two spectra hold numbers at the bin and the sample rate is
    finite, the offset is a real number. *)
Lemma atan2_finite y x :
  y <> NaN -> x <> NaN -> exists r, atan2 y x = Fin r /\ - PI <= r <= PI.
Proof.
  intros Hy Hx. destruct (atan2_number y x Hy Hx) as [r E].
  destruct (atan2_range y x) as [E' | (r' & E' & Hr')]; [congruence |].
  exists r'. split; [assumption | exact Hr'].
Qed.

Lemma clamp_Fin y :
  exists r, max (neg (Fin 50)) (min (Fin 50) (Fin y)) = Fin r /\ -50 <= r <= 50.
Proof.
  destruct (clamp_range (Fin y)) as [E | H]; [| exact H].
  exfalso. revert E. cbn [neg min max lt].
  destruct (Rltb y 50); cbn [lt]; destruct (Rltb _ _); discriminate.
Qed.

(** When the two spectra hold numbers at the bin and the sample rate is
    finite, the offset is a real number. *)
Lemma freqOffsetOf_finite fuel (sampleRate : R) stft freqMod bin :
  get stft (bin * 2) <> NaN -> get stft (bin * 2 + 1) <> NaN ->
  get freqMod (bin * 2) <> NaN -> get freqMod (bin * 2 + 1) <> NaN ->
  exists r, freqOffsetOf (S fuel) (Fin sampleRate) stft freqMod bin = Some (Fin r) /\
            -50 <= r <= 50.
Proof.
  intros Hr Hi Hfr Hfi. pose proof PI_RGT_0 as Hpi.
  unfold freqOffsetOf.
  destruct (atan2_finite _ _ Hi Hr) as (p & Hp & Hpr).
  destruct (atan2_finite _ _ Hfi Hfr) as (q & Hq & Hqr).
  rewrite wrapOffset_identity
    by (apply raw_offset_range; right; eauto).
  cbn [mbind option_bind]. rewrite Hp, Hq. unfold pi, ofNat.
  rewrite sub_Fin, mul_Fin, div_Fin by lra.
  rewrite mul_Fin, div_Fin by (apply not_0_INR; discriminate).
  destruct (clamp_Fin ((q - p) / (2 * PI) * sampleRate / INR WINDOW_SIZE))
    as (r & -> & Hr50).
  eauto.
Qed.

End FiniteOffset.

Section BinStepResult.

Local Open Scope R_scope.

(** C8.  Every step of the bin loop returns (one test of each [while]
    condition is enough).  Its frequency offset lies in [[-50, 50]] as soon
    as the sample rate is finite and the two spectra hold numbers at the
    bin, and is NaN otherwise at worst; [tfr] keeps its length and either is
    unchanged, or the offset is a real in [[-50, 50]] and [tfr] is updated at
    the single index [reassignedBin], an integer with
    [0 <= reassignedBin < N / 2]. *)
Theorem binStep_bounded (fuel : nat) (sampleRate : num) (stft freqMod : list num)
    (bin : nat) (s : binState) :
  exists s' freqOffset,
    binStep (S fuel) sampleRate stft freqMod bin s = Some s' /\
    freqOffsetOf (S fuel) sampleRate stft freqMod bin = Some freqOffset /\
    (freqOffset = NaN \/ exists r, freqOffset = Fin r /\ -50 <= r <= 50) /\
    ((exists sr, sampleRate = Fin sr) ->
     get stft (bin * 2) <> NaN -> get stft (bin * 2 + 1) <> NaN ->
     get freqMod (bin * 2) <> NaN -> get freqMod (bin * 2 + 1) <> NaN ->
     exists r, freqOffset = Fin r /\ -50 <= r <= 50) /\
    length (tfr s') = length (tfr s) /\
    (tfr s' = tfr s \/
     exists (r : R) (b' : nat) (v : num),
       freqOffset = Fin r /\ -50 <= r <= 50 /\
       reassignedBinOf sampleRate bin freqOffset = Fin (INR b') /\
       (b' < WINDOW_SIZE / 2)%nat /\
       tfr s' = set (tfr s) b' (add (get (tfr s) b') v)).
Proof.
  destruct (freqOffsetOf_total fuel sampleRate stft freqMod bin)
    as (freqOffset & Hoff & Hrange).
  assert (Hfinite : (exists sr, sampleRate = Fin sr) ->
     get stft (bin * 2) <> NaN -> get stft (bin * 2 + 1) <> NaN ->
     get freqMod (bin * 2) <> NaN -> get freqMod (bin * 2 + 1) <> NaN ->
     exists r, freqOffset = Fin r /\ -50 <= r <= 50).
  { intros [sr ->] H1 H2 H3 H4.
    destruct (freqOffsetOf_finite fuel sr stft freqMod bin H1 H2 H3 H4)
      as (r & E & Hr).
    exists r. split; [congruence | exact Hr]. }
  unfold binStep. rewrite Hoff. cbn [mbind option_bind].
  destruct (gt _ _).
  2:{ exists s, freqOffset. repeat split; auto. }
  destruct (ge (reassignedBinOf sampleRate bin freqOffset) (Fin 0) &&
            lt (reassignedBinOf sampleRate bin freqOffset) (ofNat (WINDOW_SIZE / 2)))
    eqn:Hguard.
  2:{ eexists _, freqOffset. repeat split; auto. }
  assert (Hcases :
    (exists z, reassignedBinOf sampleRate bin freqOffset = Fin (IZR z)) \/
    reassignedBinOf sampleRate bin freqOffset = NaN \/
    reassignedBinOf sampleRate bin freqOffset = PInf \/
    reassignedBinOf sampleRate bin freqOffset = NInf).
  { unfold reassignedBinOf.
    destruct (round_cases
                (div (mul (add (binFreqOf sampleRate bin) freqOffset)
                          (ofNat WINDOW_SIZE)) sampleRate))
      as [-> | [-> | [-> | [z ->]]]]; eauto. }
  destruct (guard_index _ Hcases Hguard) as (b' & Hb' & Hrb & Hidx).
  destruct Hrange as [-> | (r & -> & Hr)].
  { rewrite reassignedBinOf_NaN in Hrb. discriminate. }
  eexists _, (Fin r). split; [reflexivity |]. split; [reflexivity |].
  split; [right; eauto |]. split; [intros; eauto |]. cbn [tfr].
  unfold accumulate. rewrite Hidx. split; [apply length_set |].
  right. eexists r, b', _. repeat split; try eassumption; try lra.
Qed.

End BinStepResult.

(** ** The two spectra of a taper are NaN at the same places *)

Section Coupling.

Local Open Scope R_scope.

Lemma alike_Fin c : alike (Fin c) (Fin c).
Proof. right. eauto. Qed.

Lemma alike_NaN : alike NaN NaN.
Proof. now left. Qed.

Lemma alike_neg x x' : alike x x' -> alike (neg x) (neg x').
Proof.
  intros [[-> ->] | [[a ->] [a' ->]]]; cbn [neg]; [apply alike_NaN | right; eauto].
Qed.

Lemma alike_add x x' y y' : alike x x' -> alike y y' -> alike (add x y) (add x' y').
Proof.
  intros [[-> ->] | [[a ->] [a' ->]]] [[-> ->] | [[b ->] [b' ->]]];
    cbn [add]; first [apply alike_NaN | right; eauto].
Qed.

Lemma alike_sub x x' y y' : alike x x' -> alike y y' -> alike (sub x y) (sub x' y').
Proof.
  intros [[-> ->] | [[a ->] [a' ->]]] [[-> ->] | [[b ->] [b' ->]]];
    cbn [sub add neg]; first [apply alike_NaN | right; eauto].
Qed.

Lemma alike_mul x x' y y' : alike x x' -> alike y y' -> alike (mul x y) (mul x' y').
Proof.
  intros [[-> ->] | [[a ->] [a' ->]]] [[-> ->] | [[b ->] [b' ->]]];
    cbn [mul]; first [apply alike_NaN | right; eauto].
Qed.

Lemma coupled_set a b i va vb :
  coupled a b -> alike va vb -> coupled (set a i va) (set b i vb).
Proof.
  intros [Hlen Hget] Hv. split; [now rewrite !length_set |].
  intros p. rewrite !get_set, Hlen. case_decide; [assumption | apply Hget].
Qed.

Lemma swapComplex_coupled a b i j :
  coupled a b -> coupled (swapComplex a i j) (swapComplex b i j).
Proof.
  intros H. unfold swapComplex.
  assert (H1 := coupled_set a b (i * 2) _ _ H (proj2 H (j * 2)%nat)).
  assert (H2 := coupled_set _ _ (i * 2 + 1) _ _ H1 (proj2 H1 (j * 2 + 1)%nat)).
  assert (H3 := coupled_set _ _ (j * 2) _ _ H2 (proj2 H (i * 2)%nat)).
  exact (coupled_set _ _ (j * 2 + 1) _ _ H3 (proj2 H (i * 2 + 1)%nat)).
Qed.

Lemma butterfly_coupled step group c s pair a b :
  step <> 0%nat -> coupled a b ->
  coupled (butterfly step group (Fin c) (Fin s) pair a)
          (butterfly step group (Fin c) (Fin s) pair b).
Proof.
  intros Hstep H. unfold butterfly. rewrite factor_Fin by assumption.
  cbn [mul].
  pose proof (proj2 H (group * 2 + pair * 2)%nat) as Her.
  pose proof (proj2 H (group * 2 + pair * 2 + 1)%nat) as Hei.
  pose proof (proj2 H (group * 2 + pair * 2 + step * 2)%nat) as Hor.
  pose proof (proj2 H (group * 2 + pair * 2 + step * 2 + 1)%nat) as Hoi.
  repeat apply coupled_set; try assumption;
    repeat first [ apply alike_sub | apply alike_add | apply alike_neg
                 | apply alike_mul | apply alike_Fin | assumption ].
Qed.

Lemma forUpTo_related {S : Type} (R : S -> S -> Prop) n (body : nat -> S -> S) s1 s2 :
  (forall i a1 a2, R a1 a2 -> R (body i a1) (body i a2)) ->
  R s1 s2 -> R (forUpTo n body s1) (forUpTo n body s2).
Proof.
  intros Hbody HR. induction n as [|n IH]; [exact HR |].
  rewrite !forUpTo_S. now apply Hbody.
Qed.

Lemma fold_left_related {A B : Type} (R : A -> A -> Prop) (f : A -> B -> A)
    (P : B -> Prop) l a1 a2 :
  Forall P l ->
  (forall x a1 a2, P x -> R a1 a2 -> R (f a1 x) (f a2 x)) ->
  R a1 a2 -> R (fold_left f l a1) (fold_left f l a2).
Proof.
  intros Hl Hf. revert a1 a2. induction Hl as [|x l Hx _ IH]; intros a1 a2 HR;
    [exact HR |].
  cbn [fold_left]. apply IH. now apply Hf.
Qed.

Lemma doublingFrom_nonzero N : forall bound step,
  step <> 0%nat -> Forall (fun s => s <> 0%nat) (doublingFrom bound N step).
Proof.
  induction bound as [|bound IH]; intros step Hstep; cbn [doublingFrom];
    [constructor |].
  destruct (step <? N)%nat; constructor; [assumption |].
  apply IH. rewrite Nat.shiftl_mul_pow2. change (2 ^ 1)%nat with 2%nat. lia.
Qed.

Lemma stage_coupled N step a b :
  step <> 0%nat -> coupled a b -> coupled (stage N a step) (stage N b step).
Proof.
  intros Hstep H. unfold stage. rewrite angle_Fin by assumption. cbn [cos sin].
  apply (fold_left_related coupled _ (fun _ => True)); [| | assumption].
  - apply Forall_forall. auto.
  - intros g a1 a2 _ H12. apply forUpTo_related; [| assumption].
    intros pair b1 b2 Hb. now apply butterfly_coupled.
Qed.

Lemma bitReversal_coupled fuel N a b :
  coupled a b -> option_Forall2 coupled (bitReversal fuel N a) (bitReversal fuel N b).
Proof.
  intros H. unfold bitReversal.
  pose proof (forUpToM_related
    (fun s1 s2 : list num * nat => coupled s1.1 s2.1 /\ s1.2 = s2.2)
    (N - 1) (bitReversalBody fuel N) (a, 0%nat) (b, 0%nat)) as Hrel.
  destruct Hrel as [s1 s2 [Hc _] |]; [| | constructor; exact Hc | constructor].
  - intros i [fa ja] [fb jb] [Hc Hj]. cbn [fst snd] in Hc, Hj. subst jb.
    unfold bitReversalBody.
    destruct (nextReversed fuel N ja) as [j' |]; [| constructor].
    cbn [mbind option_bind]. constructor. cbn [fst snd]. split; [| reflexivity].
    destruct (i <? ja)%nat; [now apply swapComplex_coupled | assumption].
  - cbn [fst snd]. split; [assumption | reflexivity].
Qed.

Lemma performFFT_coupled fuel a b :
  coupled a b -> option_Forall2 coupled (performFFT fuel a) (performFFT fuel b).
Proof.
  intros H. unfold performFFT. rewrite <- (proj1 H).
  destruct (bitReversal_coupled fuel (length a / 2) a b H) as [fa fb Hf |];
    [| constructor].
  cbn [mbind option_bind]. constructor.
  apply (fold_left_related coupled _ (fun s => s <> 0%nat)); [| | assumption].
  - apply doublingFrom_nonzero. lia.
  - intros s a1 a2 Hs H12. now apply stage_coupled.
Qed.

(** The two spectra of a frame whose samples are finite or NaN, taken with
    two windows that are finite on the frame. *)
Lemma computeSTFT_coupled fuel (data wa wb : list num) :
  (forall i, (i < length data)%nat -> alike (get data i) (get data i)) ->
  (forall i, (i < length data)%nat -> exists r, get wa i = Fin r) ->
  (forall i, (i < length data)%nat -> exists r, get wb i = Fin r) ->
  option_Forall2 coupled (computeSTFT fuel data wa) (computeSTFT fuel data wb).
Proof.
  intros Hdata Hwa Hwb. unfold computeSTFT. rewrite !forUpTo_fill_zeros.
  apply performFFT_coupled.
  destruct (packed_spec
              (fun i => get ((fun j => mul (get data j) (get wa j)) <$>
                             seq 0 (length data)) i) (length data)) as [Lf Gf].
  destruct (packed_spec
              (fun i => get ((fun j => mul (get data j) (get wb j)) <$>
                             seq 0 (length data)) i) (length data)) as [Lg Gg].
  split; [congruence |]. intros p.
  destruct (decide (p < length data * 2)%nat) as [Hp | Hp].
  - pose proof (Nat.div_mod_eq p 2) as Hdm.
    assert (Hmod : (p mod 2 < 2)%nat) by (apply Nat.mod_upper_bound; lia).
    set (q := (p / 2)%nat) in *. clearbody q.
    destruct (Gf q ltac:(lia)) as [F0 F1]. destruct (Gg q ltac:(lia)) as [G0 G1].
    destruct (decide (p mod 2 = 0)%nat) as [Hz | Hz].
    + assert (p = q * 2)%nat as -> by lia. rewrite F0, G0.
      rewrite !get_fmap_seq by lia.
      destruct (Hwa q ltac:(lia)) as [ra ->]. destruct (Hwb q ltac:(lia)) as [rb ->].
      apply alike_mul; [apply Hdata; lia | right; eauto].
    + assert (p = q * 2 + 1)%nat as -> by lia. rewrite F1, G1. apply alike_Fin.
  - rewrite !get_ge by lia. apply alike_NaN.
Qed.

(** A magnitude that is a number has numbers for its real and imaginary
    parts. *)
Lemma magnitude_number spectrum bin :
  magnitude spectrum bin <> NaN ->
  get spectrum (bin * 2) <> NaN /\ get spectrum (bin * 2 + 1) <> NaN.
Proof.
  unfold magnitude. intros H.
  split; intros E; apply H; rewrite E.
  - reflexivity.
  - now rewrite mul_NaN_l, add_NaN_r.
Qed.

Lemma alike_number x y : alike x y -> x <> NaN -> y <> NaN.
Proof. intros [[-> _] | [_ [r ->]]] H; [congruence | discriminate]. Qed.

(** For two coupled spectra and a finite sample rate, a bin whose magnitude
    is a number has its offset in [[-50, 50]]. *)
Lemma freqOffsetOf_coupled fuel (sampleRate : R) stft freqMod bin :
  coupled stft freqMod -> magnitude stft bin <> NaN ->
  exists r, freqOffsetOf (S fuel) (Fin sampleRate) stft freqMod bin = Some (Fin r) /\
            -50 <= r <= 50.
Proof.
  intros [_ Hc] Hmag. destruct (magnitude_number stft bin Hmag) as [Hr Hi].
  apply freqOffsetOf_finite; try assumption.
  - exact (alike_number _ _ (Hc (bin * 2)%nat) Hr).
  - exact (alike_number _ _ (Hc (bin * 2 + 1)%nat) Hi).
Qed.

End Coupling.

Section FiniteInput.

Local Open Scope R_scope.

Lemma max_Fin a b : max (Fin a) (Fin b) = Fin (if Rltb a b then b else a).
Proof. unfold max. cbn [lt]. now destruct (Rltb a b). Qed.

Lemma fold_max_Fin (rs : list R) : forall m,
  exists m', fold_left max (Fin <$> rs) (Fin m) = Fin m' /\ m <= m' /\
             Forall (fun r => r <= m') rs.
Proof.
  induction rs as [|r rs IH]; intros m.
  - exists m. repeat split; [lra | constructor].
  - cbn [fmap list_fmap fold_left]. rewrite max_Fin.
    destruct (Rltb_cases m r) as [[-> Hlt] | [-> Hge]].
    + destruct (IH r) as (m' & E & Hm & Hall). exists m'.
      repeat split; [assumption | lra | now constructor].
    + destruct (IH m) as (m' & E & Hm & Hall). exists m'.
      repeat split; [assumption | assumption | constructor; [lra | assumption]].
Qed.

(** The peak of a non-empty buffer of finite samples is finite and bounds
    every sample. *)
Lemma maxList_abs_Fin (rs : list R) :
  rs <> [] ->
  exists m, maxList (abs <$> (Fin <$> rs)) = Fin m /\ Forall (fun r => Rabs r <= m) rs.
Proof.
  intros Hne. destruct rs as [|r rs]; [congruence |].
  unfold maxList. cbn [fmap list_fmap fold_left abs].
  change (max NInf (Fin (Rabs r))) with (Fin (Rabs r)).
  assert (Habs : abs <$> (Fin <$> rs) = Fin <$> (Rabs <$> rs))
    by (rewrite <- !list_fmap_compose; reflexivity).
  destruct (fold_max_Fin (Rabs <$> rs) (Rabs r)) as (m & E & Hm & Hall).
  exists m. split; [rewrite <- E; f_equal; exact Habs |]. constructor; [assumption |].
  now apply Forall_fmap in Hall.
Qed.

(** Every normalized sample of a finite buffer is finite or NaN. *)
Lemma normalize_numeric (rs : list R) i :
  alike (get (normalize (Fin <$> rs)) i) (get (normalize (Fin <$> rs)) i).
Proof.
  destruct (decide (i < length rs)%nat) as [Hi | Hi].
  2:{ rewrite get_ge by (rewrite length_normalize, length_fmap; lia). apply alike_NaN. }
  unfold normalize. rewrite length_fmap, forUpTo_fill_zeros, get_fmap_seq by assumption.
  destruct (maxList_abs_Fin rs) as (m & -> & Hall); [intros ->; simpl in Hi; lia |].
  destruct (lookup_lt_is_Some_2 rs i Hi) as [r Hr].
  assert (Hget : get (Fin <$> rs) i = Fin r)
    by (unfold get; now rewrite list_lookup_fmap, Hr).
  rewrite Hget.
  assert (Hrm : Rabs r <= m).
  { rewrite Forall_forall in Hall. apply Hall. eapply list_elem_of_lookup_2, Hr. }
  destruct (Req_dec_T m 0) as [-> | Hm].
  - assert (r = 0) as ->.
    { pose proof (Rabs_pos r). destruct (Req_dec_T r 0) as [E | E]; [exact E |].
      apply Rabs_pos_lt in E. lra. }
    unfold div. rewrite Reqb_true. unfold scaleInf. rewrite !Rltb_false by lra.
    apply alike_NaN.
  - rewrite div_Fin by assumption. cbn [mul]. apply alike_Fin.
Qed.

Lemma get_slice (a : list num) from to i :
  (i < to - from)%nat -> get (slice a from to) i = get a (from + i).
Proof.
  intros Hi. unfold get, slice. now rewrite lookup_take_lt, lookup_drop.
Qed.

Lemma frameData_numeric (rs : list R) step frame i :
  alike (get (frameData (normalize (Fin <$> rs)) step frame) i)
        (get (frameData (normalize (Fin <$> rs)) step frame) i).
Proof.
  destruct (decide (i < WINDOW_SIZE)%nat) as [Hi | Hi].
  - unfold frameData. rewrite get_slice by lia. apply normalize_numeric.
  - rewrite get_ge; [apply alike_NaN |]. rewrite length_frameData. lia.
Qed.

(** For a buffer of finite samples, a finite sample rate and a finite [tm]:
    at every frame, taper and bin whose magnitude is a number (as it is when
    the bin passes the test against [maxMagnitude]), the frequency offset is
    a real in [[-50, 50]]. *)
Lemma offset_in_range_on_finite_input fuel (rs : list R) (sampleRate tm : R)
    (step K frame k bin : nat) (stft freqMod : list num) :
  let w := createHermiteFunctions WINDOW_SIZE K (Fin tm) in
  let data := frameData (normalize (Fin <$> rs)) step frame in
  (k < K)%nat ->
  computeSTFT fuel data (slice (h w) (k * WINDOW_SIZE) ((k + 1) * WINDOW_SIZE))
    = Some stft ->
  computeSTFT fuel data (slice (Dh w) (k * WINDOW_SIZE) ((k + 1) * WINDOW_SIZE))
    = Some freqMod ->
  magnitude stft bin <> NaN ->
  exists r, freqOffsetOf (S fuel) (Fin sampleRate) stft freqMod bin = Some (Fin r) /\
            -50 <= r <= 50.
Proof.
  intros w data Hk Hs Hf Hmag.
  apply freqOffsetOf_coupled; [| assumption].
  assert (Hlen : forall i, (i < length data)%nat -> (i < WINDOW_SIZE)%nat).
  { intros i Hi. subst data. rewrite length_frameData in Hi. lia. }
  pose proof (computeSTFT_coupled fuel data
    (slice (h w) (k * WINDOW_SIZE) ((k + 1) * WINDOW_SIZE))
    (slice (Dh w) (k * WINDOW_SIZE) ((k + 1) * WINDOW_SIZE))) as Hc.
  rewrite Hs, Hf in Hc.
  assert (Hc' : option_Forall2 coupled (Some stft) (Some freqMod)).
  { apply Hc.
    - intros i _. apply frameData_numeric.
    - intros i Hi. rewrite get_slice by (apply Hlen in Hi; lia).
      destruct (window_entries_finite WINDOW_SIZE K k i tm) as (E & _ & _);
        [unfold WINDOW_SIZE; lia | assumption | now apply Hlen |].
      eauto.
    - intros i Hi. rewrite get_slice by (apply Hlen in Hi; lia).
      destruct (window_entries_finite WINDOW_SIZE K k i tm) as (_ & E & _);
        [unfold WINDOW_SIZE; lia | assumption | now apply Hlen |].
      eauto. }
  now inversion Hc'.
Qed.

End FiniteInput.

(** ** Silence *)

Section Silence.

Local Open Scope R_scope.

Lemma lt_NaN_r x : lt x NaN = false.
Proof. now destruct x. Qed.

Lemma max_zero : max (Fin 0) (Fin 0) = Fin 0.
Proof. unfold max. cbn [lt]. now rewrite Rltb_false by lra. Qed.

Lemma maxList_zeros n : n <> 0%nat -> maxList (zeros n) = Fin 0.
Proof.
  intros Hn. destruct n as [|n]; [congruence |]. unfold maxList, zeros.
  cbn [replicate fold_left]. change (max NInf (Fin 0)) with (Fin 0). clear Hn.
  induction n as [|n IH]; [reflexivity |].
  cbn [replicate fold_left]. now rewrite max_zero.
Qed.

Lemma abs_zeros n : abs <$> zeros n = zeros n.
Proof.
  unfold zeros. rewrite fmap_replicate. cbn [abs]. now rewrite Rabs_R0.
Qed.

(** The normalization of silence divides zero by the zero peak: every
    sample becomes NaN. *)
Lemma normalize_zeros n : normalize (zeros n) = replicate n NaN.
Proof.
  unfold normalize. rewrite length_zeros, forUpTo_fill_zeros, abs_zeros.
  apply list_eq_get; [now rewrite length_fmap, length_seq, length_replicate |].
  intros p Hp. rewrite length_fmap, length_seq in Hp.
  rewrite get_fmap_seq, get_zeros by assumption.
  rewrite maxList_zeros by lia.
  unfold div. rewrite Reqb_true. unfold scaleInf.
  rewrite !Rltb_false by lra. cbn [mul].
  unfold get. now rewrite lookup_replicate_2.
Qed.

Lemma frameData_NaN n step frame :
  frameData (replicate n NaN) step frame
  = replicate (Nat.min WINDOW_SIZE (n - frame * step)) NaN.
Proof.
  unfold frameData, slice. rewrite drop_replicate, take_replicate.
  f_equal. lia.
Qed.

Lemma get_replicate_NaN n i : get (replicate n NaN) i = NaN.
Proof.
  destruct (decide (i < n)%nat).
  - unfold get. now rewrite lookup_replicate_2.
  - apply get_ge. rewrite length_replicate. lia.
Qed.

(** *** NaN real parts survive the transform *)

Lemma swapComplex_realPartsNaN l i j :
  realPartsNaN l -> realPartsNaN (swapComplex l i j).
Proof.
  intros Q c. unfold swapComplex.
  rewrite !get_set. repeat case_decide; destruct_and?; try lia; apply Q.
Qed.

Lemma permuted_realPartsNaN m n l : realPartsNaN l -> realPartsNaN (permuted m n l).
Proof.
  intros Q. unfold permuted.
  apply (forUpTo_invariant (fun _ l => realPartsNaN l)); [assumption |].
  intros i l' _ Q'. destruct (_ <? _); [| assumption].
  now apply swapComplex_realPartsNaN.
Qed.

Lemma butterfly_realPartsNaN step group cosVal sinVal pair l :
  realPartsNaN l -> realPartsNaN (butterfly step group cosVal sinVal pair l).
Proof.
  intros Q c. unfold butterfly.
  replace (group * 2 + pair * 2)%nat with ((group + pair) * 2)%nat by lia.
  rewrite (Q (group + pair)%nat), sub_NaN_l, add_NaN_l.
  rewrite !get_set. repeat case_decide; destruct_and?; try lia;
    first [reflexivity | apply Q].
Qed.

Lemma stage_realPartsNaN N l step : realPartsNaN l -> realPartsNaN (stage N l step).
Proof.
  intros Q. unfold stage.
  apply (fold_left_invariant realPartsNaN); [assumption |].
  intros l' g _ Q'.
  apply (forUpTo_invariant (fun _ l => realPartsNaN l)); [assumption |].
  intros pair l'' _ Q''. now apply butterfly_realPartsNaN.
Qed.

Lemma stages_realPartsNaN N steps l :
  realPartsNaN l -> realPartsNaN (fold_left (stage N) steps l).
Proof.
  intros Q. apply (fold_left_invariant realPartsNaN); [assumption |].
  intros l' s _ Q'. now apply stage_realPartsNaN.
Qed.

Lemma performFFT_realPartsNaN fuel m l :
  (m <= fuel)%nat -> length l = (2 ^ m * 2)%nat -> realPartsNaN l ->
  exists out, performFFT fuel l = Some out /\ realPartsNaN out.
Proof.
  intros Hfuel Hlen Q. unfold performFFT.
  rewrite Hlen, Nat.div_mul by lia. rewrite bitReversal_pow2 by assumption.
  cbn [mbind option_bind]. eexists. split; [reflexivity |].
  now apply stages_realPartsNaN, permuted_realPartsNaN.
Qed.

Lemma performFFT_nil fuel : performFFT fuel [] = Some [].
Proof. reflexivity. Qed.

(** The spectrum of a frame of NaN, of a length the transform accepts. *)
Lemma computeSTFT_NaN fuel n window :
  n = 0%nat \/ (exists m, n = (2 ^ m)%nat /\ (m <= fuel)%nat) ->
  exists out, computeSTFT fuel (replicate n NaN) window = Some out /\ realPartsNaN out.
Proof.
  intros [-> | (m & -> & Hfuel)].
  - exists []. split; [reflexivity |]. intros c. reflexivity.
  - unfold computeSTFT. rewrite length_replicate, forUpTo_fill_zeros.
    match goal with
    | |- context [forUpTo ?N (fun i r => set (set r (i * 2) (@?f i)) _ _) _] =>
        destruct (packed_spec f N) as [Hlen Hget]
    end.
    apply (performFFT_realPartsNaN fuel m); [assumption | exact Hlen |].
    intros c. destruct (decide (c < 2 ^ m)%nat) as [Hc | Hc].
    + destruct (Hget c Hc) as [-> _]. rewrite get_fmap_seq by assumption.
      now rewrite get_replicate_NaN.
    + apply get_ge. rewrite Hlen. lia.
Qed.

(** *** A bin whose magnitude is NaN is skipped *)

Lemma binStep_skip fuel sampleRate stft freqMod bin s :
  realPartsNaN stft -> binStep fuel sampleRate stft freqMod bin s = Some s.
Proof.
  intros Q. unfold binStep. rewrite (Q bin), mul_NaN_l, add_NaN_l.
  cbn [sqrt]. unfold gt. now rewrite lt_NaN_r.
Qed.

Lemma forUpToM_skip {S : Type} n (body : nat -> S -> option S) s :
  (forall i s, body i s = Some s) -> forUpToM n body s = Some s.
Proof.
  intros H. induction n as [|n IH]; [reflexivity |].
  rewrite forUpToM_S, IH. apply H.
Qed.

Lemma taperStep_skip fuel sampleRate w n k s :
  n = 0%nat \/ (exists m, n = (2 ^ m)%nat /\ (m <= fuel)%nat) ->
  taperStep fuel sampleRate w (replicate n NaN) k s = Some s.
Proof.
  intros Hn. unfold taperStep.
  destruct (computeSTFT_NaN fuel n
              (slice (h w) (k * WINDOW_SIZE) ((k + 1) * WINDOW_SIZE)) Hn)
    as (stft & -> & Q).
  destruct (computeSTFT_NaN fuel n
              (slice (Dh w) (k * WINDOW_SIZE) ((k + 1) * WINDOW_SIZE)) Hn)
    as (freqMod & -> & _).
  cbn [mbind option_bind]. apply forUpToM_skip.
  intros i s'. now apply binStep_skip.
Qed.

Lemma writeResult_zeros result : writeResult (zeros (WINDOW_SIZE / 2)) result = result.
Proof.
  unfold writeResult. rewrite maxList_zeros by (rewrite half_window; lia).
  unfold gt. cbn [lt]. now rewrite Rltb_false by lra.
Qed.

Lemma frameStep_skip fuel sampleRate w n step K frame result phases :
  (Nat.min WINDOW_SIZE (n - frame * step) = 0%nat \/
   exists m, Nat.min WINDOW_SIZE (n - frame * step) = (2 ^ m)%nat /\ (m <= fuel)%nat) ->
  frameStep fuel sampleRate w (replicate n NaN) step K frame (result, phases)
  = Some (result, phases).
Proof.
  intros Hn. unfold frameStep. rewrite frameData_NaN.
  rewrite forUpToM_skip by (intros; now apply taperStep_skip).
  cbn [mbind option_bind tfr previousPhase]. now rewrite writeResult_zeros.
Qed.

End Silence.

Section SilenceResult.

Lemma window_pow2 : WINDOW_SIZE = (2 ^ 11)%nat.
Proof. reflexivity. Qed.

(** C4, as the code has it.  For an all-zero buffer whose length is zero, a
    power of two, or at least the window size, and a positive step,
    [analyzeReassignment] returns the all-zero byte vector (and leaves
    [previousPhase] untouched): the division by the zero peak turns every
    sample into NaN, every magnitude is NaN, and every bin is skipped. *)
Theorem zero_buffer_zero_output (fuel : nat) (phases : list num) (n : nat)
    (sampleRate : num) (step K : nat) (tm : num) :
  (0 < step)%nat -> (11 <= fuel)%nat ->
  (n = 0%nat \/ (exists m, n = (2 ^ m)%nat) \/ (WINDOW_SIZE <= n)%nat) ->
  analyzeReassignment fuel phases (zeros n) sampleRate step K tm
  = Some (replicate (WINDOW_SIZE / 2) 0%Z, phases).
Proof.
  intros Hstep Hfuel Hn. unfold analyzeReassignment.
  rewrite length_zeros, iterationsBelow_nFramesOf, normalize_zeros by assumption.
  cbn [mbind option_bind].
  set (count := Z.to_nat _).
  destruct (forUpToM_invariant
              (fun _ s => s = (replicate (WINDOW_SIZE / 2) 0%Z, phases)) count
              (frameStep fuel sampleRate (createHermiteFunctions WINDOW_SIZE K tm)
                 (replicate n NaN) step K)
              (replicate (WINDOW_SIZE / 2) 0%Z, phases))
    as (s' & -> & ->); [reflexivity | | reflexivity].
  intros frame s Hframe ->. eexists. split; [| reflexivity].
  apply frameStep_skip.
  destruct (le_lt_dec WINDOW_SIZE n) as [Hlong | Hshort].
  - right. exists 11%nat. split; [| assumption].
    pose proof (full_frame_start n step frame Hstep Hlong Hframe).
    rewrite <- window_pow2. lia.
  - assert (frame = 0%nat) as ->.
    { subst count. rewrite short_buffer_quotient in Hframe by assumption.
      change (Z.to_nat 1) with 1%nat in Hframe. lia. }
    rewrite Nat.mul_0_l, Nat.sub_0_r, Nat.min_r by lia.
    destruct Hn as [-> | [[m ->] | Hn]]; [now left | | lia].
    right. exists m. split; [reflexivity |].
    rewrite window_pow2 in Hshort.
    apply Nat.pow_lt_mono_r_iff in Hshort; lia.
Qed.

Lemma zero_buffer_zero_output_witness :
  (0 < 512)%nat /\ (11 <= 11)%nat /\
  (4 = 0 \/ (exists m, 4 = 2 ^ m) \/ WINDOW_SIZE <= 4)%nat /\
  analyzeReassignment 11 [] (zeros 4) (Fin 44100) 512 6 (Fin 6)
  = Some (replicate (WINDOW_SIZE / 2) 0%Z, []).
Proof.
  assert (H : (4 = 0 \/ (exists m, 4 = 2 ^ m) \/ WINDOW_SIZE <= 4)%nat)
    by (right; left; exists 2%nat; reflexivity).
  split; [lia |]. split; [lia |]. split; [exact H |].
  apply (zero_buffer_zero_output 11 [] 4 (Fin 44100) 512 6 (Fin 6)); [lia | lia | exact H].
Defined.

(** On three samples the frame is the whole buffer, the transform is taken
    on three points, and its bit-reversal counter never stops. *)
Lemma computeSTFT_three fuel data window :
  length data = 3%nat -> computeSTFT fuel data window = None.
Proof.
  intros Hlen. unfold computeSTFT. rewrite Hlen.
  match goal with
  | |- context [forUpTo 3 (fun i r => set (set r (i * 2) (@?f i)) _ _) _] =>
      destruct (packed_spec f 3) as [Hpacked _]
  end.
  unfold performFFT. rewrite Hpacked. change (3 * 2 / 2)%nat with 3%nat.
  now rewrite bitReversal_three.
Qed.

Lemma forUpToM_fail_first {S : Type} n (body : nat -> S -> option S) s :
  body 0%nat s = None -> forUpToM (Datatypes.S n) body s = None.
Proof.
  intros H. induction n as [|n IH].
  - rewrite forUpToM_S. exact H.
  - rewrite forUpToM_S, IH. reflexivity.
Qed.

Lemma three_zeros_never_return fuel phases :
  analyzeReassignment fuel phases (zeros 3) (Fin 44100) 512 6 (Fin 6) = None.
Proof.
  unfold analyzeReassignment.
  rewrite length_zeros, iterationsBelow_nFramesOf by lia.
  rewrite short_buffer_quotient by (unfold WINDOW_SIZE; lia).
  cbn [mbind option_bind]. change (Z.to_nat 1) with 1%nat.
  apply forUpToM_fail_first. unfold frameStep.
  rewrite forUpToM_fail_first; [reflexivity |].
  unfold taperStep.
  rewrite !computeSTFT_three
    by (rewrite length_frameData, length_normalize, length_zeros; reflexivity).
  reflexivity.
Qed.

(** C4 (counterexample).  With the default sample rate, step, [K] and [tm],
    the all-zero buffer of three samples makes [analyzeReassignment] loop
    for ever: no amount of fuel gives a result. *)
Lemma zero_buffer_of_three_hangs :
  ~ exists fuel phases out,
      analyzeReassignment fuel phases (zeros 3) (Fin 44100) 512 6 (Fin 6) = Some out.
Proof.
  intros (fuel & phases & out & H). now rewrite three_zeros_never_return in H.
Qed.

End SilenceResult.

(** ** Termination on the lengths the transform accepts *)

Section Totality.

Lemma performFFT_returns fuel m (l : list num) :
  (m <= fuel)%nat -> length l = (2 ^ m * 2)%nat ->
  exists out, performFFT fuel l = Some out.
Proof.
  intros Hfuel Hlen. unfold performFFT.
  rewrite Hlen, Nat.div_mul by lia. rewrite bitReversal_pow2 by assumption.
  cbn [mbind option_bind]. eauto.
Qed.

Lemma computeSTFT_returns fuel (data window : list num) :
  length data = 0%nat \/ (exists m, length data = (2 ^ m)%nat /\ (m <= fuel)%nat) ->
  exists out, computeSTFT fuel data window = Some out.
Proof.
  intros [H0 | (m & Hm & Hfuel)].
  - apply nil_length_inv in H0. subst data. exists []. reflexivity.
  - unfold computeSTFT. rewrite Hm, forUpTo_fill_zeros.
    match goal with
    | |- context [forUpTo ?N (fun i r => set (set r (i * 2) (@?f i)) _ _) _] =>
        destruct (packed_spec f N) as [Hlen _]
    end.
    now apply (performFFT_returns fuel m).
Qed.

Lemma binStep_returns fuel sampleRate stft freqMod bin s :
  exists s', binStep (S fuel) sampleRate stft freqMod bin s = Some s'.
Proof.
  destruct (freqOffsetOf_total fuel sampleRate stft freqMod bin)
    as (freqOffset & Hoff & _).
  unfold binStep. rewrite Hoff. cbn [mbind option_bind].
  destruct (gt _ _); [| eauto]. destruct (_ && _); eauto.
Qed.

Lemma binLoop_returns fuel sampleRate stft freqMod n s :
  exists s', forUpToM n (binStep (S fuel) sampleRate stft freqMod) s = Some s'.
Proof.
  destruct (forUpToM_invariant (fun _ _ => True) n
              (binStep (S fuel) sampleRate stft freqMod) s I) as (s' & H & _).
  - intros i a _ _.
    destruct (binStep_returns fuel sampleRate stft freqMod i a) as [a' Ha].
    eauto.
  - eauto.
Qed.

Lemma taperStep_returns fuel sampleRate w (frame : list num) k s :
  length frame = 0%nat \/
    (exists m, length frame = (2 ^ m)%nat /\ (m <= S fuel)%nat) ->
  exists s', taperStep (S fuel) sampleRate w frame k s = Some s'.
Proof.
  intros Hlen. unfold taperStep.
  destruct (computeSTFT_returns (S fuel) frame
              (slice (h w) (k * WINDOW_SIZE) ((k + 1) * WINDOW_SIZE)) Hlen)
    as [stft ->].
  destruct (computeSTFT_returns (S fuel) frame
              (slice (Dh w) (k * WINDOW_SIZE) ((k + 1) * WINDOW_SIZE)) Hlen)
    as [freqMod ->].
  cbn [mbind option_bind]. apply binLoop_returns.
Qed.

Lemma frameStep_returns fuel sampleRate w normalizedData step K frame s :
  length (frameData normalizedData step frame) = 0%nat \/
    (exists m, length (frameData normalizedData step frame) = (2 ^ m)%nat /\
               (m <= S fuel)%nat) ->
  exists s', frameStep (S fuel) sampleRate w normalizedData step K frame s = Some s'.
Proof.
  intros Hlen. destruct s as [result phases]. unfold frameStep.
  destruct (forUpToM_invariant (fun _ _ => True) K
              (taperStep (S fuel) sampleRate w (frameData normalizedData step frame))
              (mkBinState (zeros (WINDOW_SIZE / 2)) (Fin 0) phases) I)
    as (s' & -> & _).
  - intros k a _ _.
    destruct (taperStep_returns fuel sampleRate w _ k a Hlen) as [a' Ha]. eauto.
  - cbn [mbind option_bind]. eauto.
Qed.

(** For a buffer whose length is zero, a power of two or at least the
    window size, a positive step and enough fuel for eleven halvings of the
    bit-reversal counter, [analyzeReassignment] returns, and returns
    [N / 2 = 1024] bytes. *)
Lemma analyzeReassignment_returns fuel phases (audioData : list num) sampleRate
    step K tm :
  (0 < step)%nat -> (11 <= fuel)%nat ->
  (length audioData = 0%nat \/ (exists m, length audioData = (2 ^ m)%nat) \/
   (WINDOW_SIZE <= length audioData)%nat) ->
  exists out phases',
    analyzeReassignment fuel phases audioData sampleRate step K tm
      = Some (out, phases') /\
    length out = 1024%nat.
Proof.
  intros Hstep Hfuel Hlen.
  destruct fuel as [|fuel]; [lia |].
  assert (H : exists s',
    analyzeReassignment (S fuel) phases audioData sampleRate step K tm = Some s').
  { unfold analyzeReassignment.
    rewrite iterationsBelow_nFramesOf by assumption. cbn [mbind option_bind].
    set (count := Z.to_nat _).
    destruct (forUpToM_invariant (fun _ _ => True) count
                (frameStep (S fuel) sampleRate
                   (createHermiteFunctions WINDOW_SIZE K tm)
                   (normalize audioData) step K)
                (replicate (WINDOW_SIZE / 2) 0%Z, phases) I) as (s' & E & _);
      [| eauto].
    intros frame a Hframe _.
    destruct (frameStep_returns fuel sampleRate
                (createHermiteFunctions WINDOW_SIZE K tm)
                (normalize audioData) step K frame a) as [a' Ha]; [| eauto].
    rewrite length_frameData, length_normalize.
    destruct (le_lt_dec WINDOW_SIZE (length audioData)) as [Hlong | Hshort].
    - right. exists 11%nat. split; [| lia].
      pose proof (full_frame_start (length audioData) step frame Hstep Hlong Hframe).
      rewrite <- window_pow2. lia.
    - assert (frame = 0%nat) as ->.
      { subst count. rewrite short_buffer_quotient in Hframe by assumption.
        change (Z.to_nat 1) with 1%nat in Hframe. lia. }
      rewrite Nat.mul_0_l, Nat.sub_0_r, Nat.min_r by lia.
      destruct Hlen as [H0 | [[m Hm] | Hlong]]; [now left | | lia].
      right. exists m. split; [assumption |].
      rewrite Hm, window_pow2 in Hshort.
      apply Nat.pow_lt_mono_r_iff in Hshort; lia. }
  destruct H as [[out phases'] H]. exists out, phases'. split; [exact H |].
  now apply analyzeReassignment_length in H.
Qed.

End Totality.

(** ** The bit reversal is the reversal of the bits *)

Lemma reverseBits_high m : forall r b,
  (r < 2 ^ m)%nat -> (b < 2)%nat ->
  reverseBits (S m) (b * 2 ^ m + r) = (2 * reverseBits m r + b)%nat.
Proof.
  induction m as [|m IH]; intros r b Hr Hb.
  - simpl in Hr. assert (r = 0)%nat as -> by lia.
    destruct b as [|[|b]]; try lia; reflexivity.
  - rewrite reverseBits_S.
    assert (Hpow : (2 ^ S m = 2 * 2 ^ m)%nat) by apply Nat.pow_succ_r'.
    assert (Hmod : ((b * 2 ^ S m + r) mod 2 = r mod 2)%nat).
    { rewrite Hpow. replace (b * (2 * 2 ^ m) + r)%nat with (r + (b * 2 ^ m) * 2)%nat by lia.
      apply Nat.Div0.mod_add. }
    assert (Hdiv : ((b * 2 ^ S m + r) / 2 = b * 2 ^ m + r / 2)%nat).
    { rewrite Hpow. replace (b * (2 * 2 ^ m) + r)%nat with (r + (b * 2 ^ m) * 2)%nat by lia.
      rewrite Nat.div_add by lia. lia. }
    rewrite Hmod, Hdiv, IH; [| | exact Hb].
    + rewrite (reverseBits_S m r). lia.
    + apply Nat.Div0.div_lt_upper_bound. lia.
Qed.

Lemma reverseBits_involutive m : forall i,
  (i < 2 ^ m)%nat -> reverseBits m (reverseBits m i) = i.
Proof.
  induction m as [|m IH]; intros i Hi.
  - simpl in *. lia.
  - assert (Hpow : (2 ^ S m = 2 * 2 ^ m)%nat) by apply Nat.pow_succ_r'.
    rewrite (reverseBits_S m i).
    rewrite reverseBits_high.
    + rewrite IH by (apply Nat.Div0.div_lt_upper_bound; lia).
      pose proof (Nat.div_mod_eq i 2). lia.
    + apply reverseBits_lt.
    + apply Nat.mod_upper_bound. lia.
Qed.

Lemma swapComplex_get (l : list num) i j p :
  i <> j -> (i * 2 + 1 < length l)%nat -> (j * 2 + 1 < length l)%nat ->
  get (swapComplex l i j) p =
    if decide (p = i * 2)%nat then get l (j * 2)
    else if decide (p = i * 2 + 1)%nat then get l (j * 2 + 1)
    else if decide (p = j * 2)%nat then get l (i * 2)
    else if decide (p = j * 2 + 1)%nat then get l (i * 2 + 1)
    else get l p.
Proof.
  intros Hne Hi Hj. unfold swapComplex.
  rewrite ?get_set, ?length_set.
  repeat case_decide; destruct_and?; subst; first [reflexivity | lia].
Qed.

(** After [n] iterations the complex values at the indices [i] with [i < n]
    or [reverseBits m i < n] have changed places with their mirror. *)
Lemma permuted_get m (l : list num) : forall n i c,
  length l = (2 ^ m * 2)%nat -> (n <= 2 ^ m)%nat -> (i < 2 ^ m)%nat -> (c < 2)%nat ->
  length (permuted m n l) = length l /\
  get (permuted m n l) (i * 2 + c) =
    if decide (i < n \/ reverseBits m i < n)%nat
    then get l (reverseBits m i * 2 + c) else get l (i * 2 + c).
Proof.
  intros n. induction n as [|n IH]; intros i c Hlen Hn Hi Hc.
  - unfold permuted. rewrite forUpTo_0. split; [reflexivity |].
    case_decide; [lia | reflexivity].
  - rewrite permuted_S.
    pose proof (reverseBits_lt m n) as Hrn.
    pose proof (reverseBits_lt m i) as Hri.
    pose proof (reverseBits_involutive m i Hi) as Hinv.
    pose proof (reverseBits_involutive m n ltac:(lia)) as Hinvn.
    assert (Hlen' : length (permuted m n l) = length l)
      by (apply (IH 0%nat 0%nat); lia).
    assert (Hget : forall i c, (i < 2 ^ m)%nat -> (c < 2)%nat ->
              get (permuted m n l) (i * 2 + c) =
                if decide (i < n \/ reverseBits m i < n)%nat
                then get l (reverseBits m i * 2 + c) else get l (i * 2 + c))
      by (intros i' c' Hi' Hc'; apply IH; lia).
    destruct (n <? reverseBits m n)%nat eqn:E.
    + apply Nat.ltb_lt in E. split; [now rewrite length_swapComplex |].
      rewrite swapComplex_get by lia.
      pose proof (Hget n 0%nat ltac:(lia) ltac:(lia)) as Hn0.
      pose proof (Hget n 1%nat ltac:(lia) ltac:(lia)) as Hn1.
      pose proof (Hget (reverseBits m n) 0%nat Hrn ltac:(lia)) as Hr0.
      pose proof (Hget (reverseBits m n) 1%nat Hrn ltac:(lia)) as Hr1.
      rewrite Hinvn in Hr0, Hr1.
      rewrite Nat.add_0_r in Hn0, Hr0.
      destruct (decide (i = n)) as [-> | Hin].
      * destruct c as [|[|c]]; try lia.
        -- rewrite Nat.add_0_r. rewrite decide_True by reflexivity.
           rewrite Hr0. rewrite decide_False by lia.
           rewrite decide_True by lia. now rewrite Nat.add_0_r.
        -- rewrite decide_False by lia. rewrite decide_True by reflexivity.
           rewrite Hr1. rewrite decide_False by lia.
           now rewrite decide_True by lia.
      * destruct (decide (i = reverseBits m n)) as [-> | Hirn].
        -- rewrite Hinvn.
           destruct c as [|[|c]]; try lia.
           ++ rewrite Nat.add_0_r. rewrite decide_False by lia.
              rewrite decide_False by lia. rewrite decide_True by reflexivity.
              rewrite Hn0. rewrite decide_False by lia.
              rewrite decide_True by lia. now rewrite Nat.add_0_r.
           ++ rewrite decide_False by lia. rewrite decide_False by lia.
              rewrite decide_False by lia. rewrite decide_True by reflexivity.
              rewrite Hn1. rewrite decide_False by lia.
              now rewrite decide_True by lia.
        -- assert (reverseBits m i <> n) by (intros Heq; apply Hirn; now rewrite <- Heq, Hinv).
           rewrite !decide_False by lia.
           rewrite Hget by lia.
           repeat case_decide; first [reflexivity | lia].
    + apply Nat.ltb_ge in E. split; [exact Hlen' |].
      rewrite Hget by lia.
      destruct (decide (i = n)) as [-> | Hin].
      * destruct (decide (reverseBits m n = n)) as [Heq | Hneq].
        -- rewrite Heq. repeat case_decide; reflexivity.
        -- repeat case_decide; first [reflexivity | lia].
      * destruct (decide (reverseBits m i = n)) as [Heq | Hneq].
        -- assert (i = reverseBits m n) by (now rewrite <- Heq, Hinv).
           repeat case_decide; first [reflexivity | lia].
        -- repeat case_decide; first [reflexivity | lia].
Qed.

Lemma bitReversal_get m fuel (fft : list num) i c :
  (m <= fuel)%nat -> length fft = (2 ^ m * 2)%nat -> (i < 2 ^ m)%nat -> (c < 2)%nat ->
  exists out,
    bitReversal fuel (2 ^ m) fft = Some out /\
    length out = length fft /\
    get out (i * 2 + c) = get fft (reverseBits m i * 2 + c).
Proof.
  intros Hfuel Hlen Hi Hc. rewrite bitReversal_pow2 by exact Hfuel.
  eexists. split; [reflexivity |].
  pose proof (Nat.pow_nonzero 2 m ltac:(lia)) as Hnz.
  destruct (permuted_get m fft (2 ^ m - 1) i c Hlen ltac:(lia) Hi Hc) as [HL HG].
  split; [exact HL |]. rewrite HG.
  case_decide as Hd; [reflexivity |].
  assert (i = 2 ^ m - 1)%nat as Hi1 by lia.
  pose proof (reverseBits_lt m i) as Hri.
  assert (reverseBits m i = 2 ^ m - 1)%nat as Hr by lia.
  rewrite Hr, Hi1. reflexivity.
Qed.

(** ** The bit-reversal counter on a length that is not a power of two *)

Lemma shiftr_1 k : Nat.shiftr k 1 = (k / 2)%nat.
Proof. change (Nat.shiftr k 1) with (Nat.div2 k). apply Nat.div2_div. Qed.

Lemma mirrored_S m n c :
  mirrored (S m) n c = (c mod 2 * (n / 2) + mirrored m (n / 2) (c / 2))%nat.
Proof. reflexivity. Qed.

Lemma mirrored_zero m : forall c, mirrored m 0 c = 0%nat.
Proof.
  induction m as [|m IH]; intros c; [reflexivity |].
  rewrite mirrored_S. change (0 / 2)%nat with 0%nat. rewrite IH. lia.
Qed.

Lemma mirrored_lt m : forall n c, (1 <= n)%nat -> (mirrored m n c < n)%nat.
Proof.
  induction m as [|m IH]; intros n c Hn; [simpl; lia |].
  rewrite mirrored_S.
  pose proof (Nat.mod_upper_bound c 2 ltac:(lia)) as Hc.
  pose proof (Nat.div_mod_eq n 2) as Hdiv.
  destruct (decide (n / 2 = 0)%nat) as [Hz | Hz].
  - rewrite Hz, mirrored_zero. lia.
  - specialize (IH (n / 2)%nat (c / 2)%nat ltac:(lia)). nia.
Qed.

Lemma while_mono {S : Type} (cond : S -> bool) body : forall fuel fuel' (s r : S),
  while fuel cond body s = Some r -> (fuel <= fuel')%nat ->
  while fuel' cond body s = Some r.
Proof.
  induction fuel as [|fuel IH]; intros fuel' s r H Hle; [discriminate |].
  destruct fuel' as [|fuel']; [lia |].
  simpl in *. destruct (cond s); [| exact H].
  apply IH; [exact H | lia].
Qed.

Lemma pow2_half_le m n : (2 ^ S m <= n)%nat -> (2 ^ m <= n / 2)%nat.
Proof.
  intros H. rewrite Nat.pow_succ_r' in H.
  apply Nat.div_le_lower_bound; lia.
Qed.

Lemma pow2_half_lt m n : (n < 2 ^ S (S m))%nat -> (n / 2 < 2 ^ S m)%nat.
Proof.
  intros H. rewrite Nat.pow_succ_r' in H.
  apply Nat.Div0.div_lt_upper_bound. lia.
Qed.

(** An increment that does not overflow the [m] digits. *)
Lemma mirrored_carry m : forall n c fuel,
  (2 ^ m <= n)%nat -> (S c < 2 ^ m)%nat -> (m <= fuel)%nat ->
  exists j' k',
    while fuel (fun '(j, k) => k <=? j) (fun '(j, k) => (j - k, Nat.shiftr k 1))
      (mirrored m n c, n / 2)%nat = Some (j', k') /\
    (j' + k')%nat = mirrored m n (S c).
Proof.
  induction m as [|m IH]; intros n c fuel Hn Hc Hfuel; [simpl in Hc; lia |].
  destruct fuel as [|fuel]; [lia |].
  assert (Hpow : (2 ^ S m = 2 * 2 ^ m)%nat) by apply Nat.pow_succ_r'.
  pose proof (pow2_half_le m n Hn) as Hhalf.
  pose proof (Nat.pow_nonzero 2 m ltac:(lia)) as Hnz.
  pose proof (Nat.div_mod_eq c 2) as Hc2.
  pose proof (Nat.mod_upper_bound c 2 ltac:(lia)) as Hcm.
  rewrite !mirrored_S.
  destruct (decide (c mod 2 = 0)%nat) as [He | Ho].
  - (* the lowest digit is 0: it becomes 1 *)
    assert (HS : (S c mod 2 = 1 /\ S c / 2 = c / 2)%nat).
    { replace (S c) with (1 + (c / 2) * 2)%nat by lia.
      rewrite Nat.Div0.mod_add, Nat.div_add by lia. split; reflexivity. }
    destruct HS as [-> ->]. rewrite He.
    pose proof (mirrored_lt m (n / 2) (c / 2) ltac:(lia)) as Hlt.
    exists (mirrored m (n / 2) (c / 2)), (n / 2)%nat. split; [| lia].
    cbn [while]. rewrite Nat.mul_0_l, Nat.add_0_l.
    rewrite (proj2 (Nat.leb_gt _ _)) by lia. reflexivity.
  - (* the lowest digit is 1: it becomes 0 and the carry goes on *)
    assert (Hcm1 : (c mod 2 = 1)%nat) by lia.
    assert (HS : (S c mod 2 = 0 /\ S c / 2 = S (c / 2))%nat).
    { replace (S c) with (0 + (S (c / 2)) * 2)%nat by lia.
      rewrite Nat.Div0.mod_add, Nat.div_add by lia. split; reflexivity. }
    destruct HS as [-> ->]. rewrite Hcm1.
    destruct (IH (n / 2)%nat (c / 2)%nat fuel Hhalf ltac:(lia) ltac:(lia))
      as (j' & k' & Hw & Hsum).
    exists j', k'. split; [| lia].
    cbn [while].
    rewrite (proj2 (Nat.leb_le _ _)) by lia.
    rewrite shiftr_1.
    replace (1 * (n / 2) + mirrored m (n / 2) (c / 2) - n / 2)%nat
      with (mirrored m (n / 2) (c / 2)) by lia.
    exact Hw.
Qed.

(** The increment of the counter whose [m] digits are all 1 never ends. *)
Lemma mirrored_overflow m : forall n fuel,
  (2 ^ m <= n)%nat -> (n < 2 ^ S m)%nat ->
  while fuel (fun '(j, k) => k <=? j) (fun '(j, k) => (j - k, Nat.shiftr k 1))
    (mirrored m n (2 ^ m - 1), n / 2)%nat = None.
Proof.
  induction m as [|m IH]; intros n fuel Hlo Hhi.
  - simpl in Hlo, Hhi. assert (n = 1)%nat as -> by lia.
    apply while_counter_stuck.
  - destruct fuel as [|fuel]; [reflexivity |].
    assert (Hpow : (2 ^ S m = 2 * 2 ^ m)%nat) by apply Nat.pow_succ_r'.
    pose proof (Nat.pow_nonzero 2 m ltac:(lia)) as Hnz.
    assert (HS : ((2 ^ S m - 1) mod 2 = 1 /\ (2 ^ S m - 1) / 2 = 2 ^ m - 1)%nat).
    { replace (2 ^ S m - 1)%nat with (1 + (2 ^ m - 1) * 2)%nat by lia.
      rewrite Nat.Div0.mod_add, Nat.div_add by lia. split; reflexivity. }
    rewrite mirrored_S. destruct HS as [-> ->].
    cbn [while].
    rewrite (proj2 (Nat.leb_le _ _)) by lia.
    rewrite shiftr_1.
    replace (1 * (n / 2) + mirrored m (n / 2) (2 ^ m - 1) - n / 2)%nat
      with (mirrored m (n / 2) (2 ^ m - 1)) by lia.
    apply IH; [now apply pow2_half_le | now apply pow2_half_lt].
Qed.

Lemma nextReversed_mirrored m n c fuel :
  (2 ^ m <= n)%nat -> (S c < 2 ^ m)%nat ->
  nextReversed fuel n (mirrored m n c) = None \/
  nextReversed fuel n (mirrored m n c) = Some (mirrored m n (S c)).
Proof.
  intros Hn Hc. unfold nextReversed. rewrite shiftr_1.
  destruct (mirrored_carry m n c (Nat.max m fuel) Hn Hc ltac:(lia))
    as (j' & k' & Hw & Hsum).
  destruct (while fuel _ _ (mirrored m n c, (n / 2)%nat)) as [[j k] |] eqn:E.
  - right. apply (while_mono _ _ _ (Nat.max m fuel)) in E; [| lia].
    rewrite Hw in E. injection E as <- <-. simpl. now rewrite Hsum.
  - left. reflexivity.
Qed.

Lemma nextReversed_overflow m n fuel :
  (2 ^ m <= n)%nat -> (n < 2 ^ S m)%nat ->
  nextReversed fuel n (mirrored m n (2 ^ m - 1)) = None.
Proof.
  intros Hlo Hhi. unfold nextReversed. rewrite shiftr_1.
  now rewrite mirrored_overflow.
Qed.

Lemma forUpToM_None {S : Type} (body : nat -> S -> option S) s n d :
  forUpToM n body s = None -> forUpToM (n + d) body s = None.
Proof.
  intros H. induction d as [|d IH]; [now rewrite Nat.add_0_r |].
  rewrite Nat.add_succ_r, forUpToM_S, IH. reflexivity.
Qed.

(** The bit-reversal loop of [n] points, [2 ^ m < n < 2 ^ (m + 1)], counts
    up to the counter of all ones and stays in its next increment. *)
Lemma bitReversal_loop_mirrored m n fuel (fft : list num) : forall i,
  (2 ^ m <= n)%nat -> (i < 2 ^ m)%nat ->
  forUpToM i (bitReversalBody fuel n) (fft, 0%nat) = None \/
  exists l, forUpToM i (bitReversalBody fuel n) (fft, 0%nat) = Some (l, mirrored m n i).
Proof.
  intros i Hn. induction i as [|i IH]; intros Hi.
  - right. exists fft. unfold forUpToM. simpl.
    replace (mirrored m n 0) with 0%nat; [reflexivity |].
    clear. revert n. induction m as [|m IH]; intros n; [reflexivity |].
    rewrite mirrored_S, <- IH. reflexivity.
  - rewrite forUpToM_S.
    destruct (IH ltac:(lia)) as [-> | [l ->]]; [now left |].
    simpl. destruct (nextReversed_mirrored m n i fuel Hn Hi) as [-> | ->].
    + now left.
    + right. eexists. reflexivity.
Qed.

Lemma bitReversal_hangs m n fuel (fft : list num) :
  (2 ^ m < n)%nat -> (n < 2 ^ S m)%nat -> bitReversal fuel n fft = None.
Proof.
  intros Hlo Hhi. unfold bitReversal.
  pose proof (Nat.pow_nonzero 2 m ltac:(lia)) as Hnz.
  assert (H : forUpToM (S (2 ^ m - 1)) (bitReversalBody fuel n) (fft, 0%nat) = None).
  { rewrite forUpToM_S.
    destruct (bitReversal_loop_mirrored m n fuel fft (2 ^ m - 1) ltac:(lia) ltac:(lia))
      as [-> | [l ->]]; [reflexivity |].
    simpl. rewrite nextReversed_overflow by lia. reflexivity. }
  replace (n - 1)%nat with (S (2 ^ m - 1) + (n - 1 - 2 ^ m))%nat by lia.
  rewrite forUpToM_None by exact H. reflexivity.
Qed.

Lemma performFFT_hangs m fuel (input : list num) :
  (2 ^ m < length input / 2)%nat -> (length input / 2 < 2 ^ S m)%nat ->
  performFFT fuel input = None.
Proof.
  intros Hlo Hhi. unfold performFFT.
  rewrite (bitReversal_hangs m) by assumption. reflexivity.
Qed.

Lemma length_forUpTo_set {A : Type} (f : nat -> list A -> list A) n (l : list A) :
  (forall i a, length (f i a) = length a) -> length (forUpTo n f l) = length l.
Proof.
  intros Hf. induction n as [|n IH]; [reflexivity |].
  rewrite forUpTo_S, Hf. exact IH.
Qed.

Lemma computeSTFT_input_length fuel (data window : list num) :
  exists packed, computeSTFT fuel data window = performFFT fuel packed /\
                 length packed = (length data * 2)%nat.
Proof.
  unfold computeSTFT. eexists. split; [reflexivity |].
  rewrite length_forUpTo_set; [apply length_zeros |].
  intros i a. now rewrite !length_set.
Qed.

Lemma computeSTFT_hangs m fuel (data window : list num) :
  (2 ^ m < length data)%nat -> (length data < 2 ^ S m)%nat ->
  computeSTFT fuel data window = None.
Proof.
  intros Hlo Hhi.
  destruct (computeSTFT_input_length fuel data window) as (packed & -> & Hlen).
  apply (performFFT_hangs m); rewrite Hlen, Nat.div_mul by lia; assumption.
Qed.

(** ** The lengths on which the transform and the engine return *)

Lemma between_powers n :
  (0 < n)%nat -> (forall m, n <> 2 ^ m)%nat ->
  exists m, (2 ^ m < n)%nat /\ (n < 2 ^ S m)%nat.
Proof.
  intros Hn Hne. exists (Nat.log2 n).
  pose proof (Nat.log2_spec n Hn) as [Hlo Hhi].
  specialize (Hne (Nat.log2 n)). split; lia.
Qed.


Lemma analyzeReassignment_short_hangs fuel phases (audioData : list num) sampleRate
    step K tm m :
  (0 < step)%nat -> (0 < K)%nat ->
  (length audioData < WINDOW_SIZE)%nat ->
  (2 ^ m < length audioData)%nat -> (length audioData < 2 ^ S m)%nat ->
  analyzeReassignment fuel phases audioData sampleRate step K tm = None.
Proof.
  intros Hstep HK Hshort Hlo Hhi.
  unfold analyzeReassignment.
  rewrite iterationsBelow_nFramesOf by assumption.
  rewrite short_buffer_quotient by assumption.
  cbn [mbind option_bind]. change (Z.to_nat 1) with 1%nat.
  apply forUpToM_fail_first. unfold frameStep.
  destruct K as [|K]; [lia |].
  rewrite forUpToM_fail_first; [reflexivity |].
  unfold taperStep.
  assert (Hlen : length (frameData (normalize audioData) step 0) = length audioData)
    by (rewrite length_frameData, length_normalize, Nat.mul_0_l, Nat.sub_0_r, Nat.min_r;
        lia).
  rewrite !(computeSTFT_hangs m) by (rewrite Hlen; assumption).
  reflexivity.
Qed.

(** With a step of zero the frame count is [-Infinity + 1], [NaN] or
    [Infinity + 1] according to the length of the buffer. *)
Lemma nFramesOf_step_zero (len : nat) :
  nFramesOf len 0 =
    if decide (len < WINDOW_SIZE)%nat then Fin 1
    else if decide (len = WINDOW_SIZE) then NaN else PInf.
Proof.
  unfold nFramesOf, ofZ, ofNat. cbn [INR div].
  rewrite Reqb_true.
  unfold scaleInf.
  repeat case_decide.
  - rewrite Rltb_false, Rltb_true; [reflexivity | |];
      [apply IZR_lt | apply IZR_le]; lia.
  - subst len. rewrite Z.sub_diag.
    rewrite !Rltb_false by apply Rle_refl. reflexivity.
  - rewrite Rltb_true by (apply IZR_lt; lia). reflexivity.
Qed.

(** ** The packed input of the transform *)

Lemma computeSTFT_packed fuel (data window : list num) :
  exists packed,
    computeSTFT fuel data window = performFFT fuel packed /\
    length packed = (length data * 2)%nat /\
    forall i, (i < length data)%nat ->
      get packed (i * 2) = mul (get data i) (get window i) /\
      get packed (i * 2 + 1) = Fin 0.
Proof.
  unfold computeSTFT. rewrite forUpTo_fill_zeros.
  match goal with
  | |- context [forUpTo ?N (fun i r => set (set r (i * 2) (@?f i)) _ _) ?z] =>
      destruct (packed_spec f N) as [Hlen Hget];
      set (packed := forUpTo N (fun i r => set (set r (i * 2) (f i)) (i * 2 + 1) (Fin 0)) z) in *
  end.
  exists packed. split; [reflexivity |]. split; [exact Hlen |].
  intros i Hi. destruct (Hget i Hi) as [E0 E1]. split; [| exact E1].
  rewrite E0. now rewrite get_fmap_seq.
Qed.

Lemma get_fmap_Fin (rs : list R) i r : rs !! i = Some r -> get (Fin <$> rs) i = Fin r.
Proof. intros H. unfold get. now rewrite list_lookup_fmap, H. Qed.

Lemma length_stage N (l : list num) step : length (stage N l step) = length l.
Proof.
  unfold stage. apply (fold_left_invariant (fun a => length a = length l)).
  - reflexivity.
  - intros a g _ Ha. rewrite <- Ha. apply length_forUpTo_set.
    intros i b. apply length_butterfly.
Qed.

Lemma length_stages N steps : forall (l : list num),
  length (fold_left (stage N) steps l) = length l.
Proof.
  induction steps as [|s steps IH]; intros l; [reflexivity |].
  cbn [fold_left]. now rewrite IH, length_stage.
Qed.

Lemma bitReversal_length fuel N (l out : list num) :
  bitReversal fuel N l = Some out -> length out = length l.
Proof.
  unfold bitReversal. intros H.
  destruct (forUpToM (N - 1) (bitReversalBody fuel N) (l, 0%nat)) as [[l' j] |] eqn:E;
    [| discriminate].
  injection H as <-.
  apply (forUpToM_preserves (fun s => length s.1 = length l)) in E; [exact E | | reflexivity].
  intros i [a j0] [a' j'] Hb Ha. simpl in *. unfold bitReversalBody in Hb.
  destruct (nextReversed fuel N j0); [| discriminate].
  injection Hb as <- <-. destruct (i <? j0)%nat; [| exact Ha].
  now rewrite length_swapComplex.
Qed.

Lemma performFFT_length fuel (l out : list num) :
  performFFT fuel l = Some out -> length out = length l.
Proof.
  unfold performFFT. intros H.
  destruct (bitReversal fuel (length l / 2) l) as [l' |] eqn:E; [| discriminate].
  injection H as <-. rewrite length_stages. eapply bitReversal_length, E.
Qed.

Lemma computeSTFT_length fuel (data window out : list num) :
  computeSTFT fuel data window = Some out -> length out = (length data * 2)%nat.
Proof.
  destruct (computeSTFT_packed fuel data window) as (packed & -> & Hlen & _).
  intros H. apply performFFT_length in H. congruence.
Qed.

(** ** The transform is linear *)

(** ** The frames, as they reach the transform *)

Section FramesReachTheTransform.

Lemma get_take (a : list num) (n i : nat) : (i < n)%nat -> get (take n a) i = get a i.
Proof. intros H. unfold get. now rewrite lookup_take_lt. Qed.

(** [computeSTFT] reads the window at the indices of the data only. *)
Lemma computeSTFT_window_prefix fuel (data window : list num) :
  computeSTFT fuel data window = computeSTFT fuel data (take (length data) window).
Proof.
  unfold computeSTFT. rewrite !forUpTo_fill_zeros.
  replace ((fun i => mul (get data i) (get (take (length data) window) i))
             <$> seq 0 (length data))
    with ((fun i => mul (get data i) (get window i)) <$> seq 0 (length data));
    [reflexivity |].
  apply Forall_fmap_ext_1, Forall_forall. intros i Hi.
  apply elem_of_seq in Hi. now rewrite get_take by lia.
Qed.

(** A bin beyond the end of the spectrum reads [undefined] and is skipped. *)
Lemma binStep_beyond fuel sampleRate (stft freqMod : list num) bin s :
  (length stft <= bin * 2)%nat -> binStep fuel sampleRate stft freqMod bin s = Some s.
Proof.
  intros H. unfold binStep. rewrite (get_ge stft (bin * 2)) by assumption.
  rewrite mul_NaN_l, add_NaN_l. cbn [sqrt]. unfold gt. now rewrite lt_NaN_r.
Qed.

Lemma forUpToM_ext {S : Type} n (body body' : nat -> S -> option S) s :
  (forall i a, body i a = body' i a) -> forUpToM n body s = forUpToM n body' s.
Proof.
  intros H. induction n as [|n IH]; [reflexivity |].
  rewrite !forUpToM_S, IH. destruct (forUpToM n body' s); [apply H | reflexivity].
Qed.

(** The body of the frame loop, with the calls of [computeSTFT] written out:
    the frame goes to the transform as it was sliced, against the first
    entries of each window. *)
Lemma frameStep_as_sliced fuel sampleRate (w : windows) (normalizedData : list num)
    (step K f : nat) (result : list Z) (ph : list num) :
  let frame := frameData normalizedData step f in
  frameStep fuel sampleRate w normalizedData step K f (result, ph) =
    (s ← forUpToM K
           (fun k s =>
              stft ← computeSTFT fuel frame
                       (take (length frame)
                          (slice (h w) (k * WINDOW_SIZE) ((k + 1) * WINDOW_SIZE)));
              freqMod ← computeSTFT fuel frame
                          (take (length frame)
                             (slice (Dh w) (k * WINDOW_SIZE) ((k + 1) * WINDOW_SIZE)));
              forUpToM (WINDOW_SIZE / 2) (binStep fuel sampleRate stft freqMod) s)
           (mkBinState (zeros (WINDOW_SIZE / 2)) (Fin 0) ph);
     Some (writeResult (tfr s) result, previousPhase s)).
Proof.
  intros frame. unfold frameStep. fold frame.
  rewrite (forUpToM_ext K (taperStep fuel sampleRate w frame)
             (fun k s =>
                stft ← computeSTFT fuel frame
                         (take (length frame)
                            (slice (h w) (k * WINDOW_SIZE) ((k + 1) * WINDOW_SIZE)));
                freqMod ← computeSTFT fuel frame
                            (take (length frame)
                               (slice (Dh w) (k * WINDOW_SIZE) ((k + 1) * WINDOW_SIZE)));
                forUpToM (WINDOW_SIZE / 2) (binStep fuel sampleRate stft freqMod) s));
    [reflexivity |].
  intros k s. unfold taperStep. now rewrite <- !computeSTFT_window_prefix.
Qed.

(** C9, as the code has it.  For a positive step the engine runs [n >= 1]
    frames, and frame [f] goes to the transform as it was sliced: it is
    [normalizedData.slice (f * step, f * step + 2048)], of length
    [min (2048, len - f * step)]; both calls of [computeSTFT] in every taper
    receive it unpadded, read the first [length frame] entries of the
    2048-sample window only, and when they return they return
    [2 * length frame] numbers, so that the bins from [length frame] on read
    [undefined] and are skipped.  Every frame is a full window when the
    buffer holds at least 2048 samples; a shorter buffer gives the single
    frame that is the whole normalized buffer, neither padded nor
    rejected. *)
Theorem frames_reach_fft_as_sliced (fuel : nat) (phases audioData : list num)
    (sampleRate : num) (step K : nat) (tm : num) :
  (0 < step)%nat ->
  let w := createHermiteFunctions WINDOW_SIZE K tm in
  let normalizedData := normalize audioData in
  let len := length audioData in
  exists n,
    (1 <= n)%nat /\
    analyzeReassignment fuel phases audioData sampleRate step K tm =
      forUpToM n (frameStep fuel sampleRate w normalizedData step K)
        (replicate (WINDOW_SIZE / 2) 0%Z, phases) /\
    (forall f result ph,
       let frame := frameData normalizedData step f in
       length frame = Nat.min WINDOW_SIZE (len - f * step) /\
       frameStep fuel sampleRate w normalizedData step K f (result, ph) =
         (s ← forUpToM K
                (fun k s =>
                   stft ← computeSTFT fuel frame
                            (take (length frame)
                               (slice (h w) (k * WINDOW_SIZE) ((k + 1) * WINDOW_SIZE)));
                   freqMod ← computeSTFT fuel frame
                               (take (length frame)
                                  (slice (Dh w) (k * WINDOW_SIZE) ((k + 1) * WINDOW_SIZE)));
                   forUpToM (WINDOW_SIZE / 2) (binStep fuel sampleRate stft freqMod) s)
                (mkBinState (zeros (WINDOW_SIZE / 2)) (Fin 0) ph);
          Some (writeResult (tfr s) result, previousPhase s)) /\
       (forall window out,
          computeSTFT fuel frame window = Some out ->
          length out = (length frame * 2)%nat /\
          forall freqMod bin s, (length frame <= bin)%nat ->
            binStep fuel sampleRate out freqMod bin s = Some s)) /\
    ((WINDOW_SIZE <= len)%nat ->
     forall f, (f < n)%nat -> length (frameData normalizedData step f) = WINDOW_SIZE) /\
    ((len < WINDOW_SIZE)%nat ->
     n = 1%nat /\ frameData normalizedData step 0 = normalizedData /\
     length normalizedData = len).
Proof.
  intros Hstep w normalizedData len.
  exists (Z.to_nat (Z.max 1 ((Z.of_nat len - Z.of_nat WINDOW_SIZE) / Z.of_nat step + 1))).
  split; [lia |]. split; [| split; [| split]].
  - unfold analyzeReassignment. fold len.
    now rewrite iterationsBelow_nFramesOf by assumption.
  - intros f result ph frame. split; [| split].
    + unfold frame, normalizedData. now rewrite length_frameData, length_normalize.
    + apply frameStep_as_sliced.
    + intros window out Hout. apply computeSTFT_length in Hout.
      split; [exact Hout |]. intros freqMod bin s Hbin.
      apply binStep_beyond. lia.
  - intros Hlen f Hf. unfold normalizedData.
    rewrite length_frameData, length_normalize. fold len.
    pose proof (full_frame_start len step f Hstep Hlen Hf). lia.
  - intros Hlen. rewrite short_buffer_quotient by assumption.
    split; [reflexivity |]. split; [| apply length_normalize].
    apply frameData_whole. unfold normalizedData. rewrite length_normalize. fold len. lia.
Qed.

Lemma frames_reach_fft_as_sliced_witness :
  (0 < 512)%nat /\
  let w := createHermiteFunctions WINDOW_SIZE 6 (Fin 6) in
  let normalizedData := normalize (replicate 1024 (Fin 1)) in
  let len := length (replicate 1024 (Fin 1)) in
  exists n,
    (1 <= n)%nat /\
    analyzeReassignment 11 (zeros WINDOW_SIZE) (replicate 1024 (Fin 1)) (Fin 44100) 512 6 (Fin 6) =
      forUpToM n (frameStep 11 (Fin 44100) w normalizedData 512 6)
        (replicate (WINDOW_SIZE / 2) 0%Z, zeros WINDOW_SIZE) /\
    (forall f result ph,
       let frame := frameData normalizedData 512 f in
       length frame = Nat.min WINDOW_SIZE (len - f * 512) /\
       frameStep 11 (Fin 44100) w normalizedData 512 6 f (result, ph) =
         (s ← forUpToM 6
                (fun k s =>
                   stft ← computeSTFT 11 frame
                            (take (length frame)
                               (slice (h w) (k * WINDOW_SIZE) ((k + 1) * WINDOW_SIZE)));
                   freqMod ← computeSTFT 11 frame
                               (take (length frame)
                                  (slice (Dh w) (k * WINDOW_SIZE) ((k + 1) * WINDOW_SIZE)));
                   forUpToM (WINDOW_SIZE / 2) (binStep 11 (Fin 44100) stft freqMod) s)
                (mkBinState (zeros (WINDOW_SIZE / 2)) (Fin 0) ph);
          Some (writeResult (tfr s) result, previousPhase s)) /\
       (forall window out,
          computeSTFT 11 frame window = Some out ->
          length out = (length frame * 2)%nat /\
          forall freqMod bin s, (length frame <= bin)%nat ->
            binStep 11 (Fin 44100) out freqMod bin s = Some s)) /\
    ((WINDOW_SIZE <= len)%nat ->
     forall f, (f < n)%nat -> length (frameData normalizedData 512 f) = WINDOW_SIZE) /\
    ((len < WINDOW_SIZE)%nat ->
     n = 1%nat /\ frameData normalizedData 512 0 = normalizedData /\
     length normalizedData = len).
Proof.
  split; [lia |].
  apply (frames_reach_fft_as_sliced 11 (zeros WINDOW_SIZE) (replicate 1024 (Fin 1))
           (Fin 44100) 512 6 (Fin 6)).
  lia.
Defined.

(** C9 (counterexample).  The buffer of 1024 samples that the renderer
    passes at the default analyser size is analysed as one frame of 1024
    samples: [analyzeReassignment] is the body of the frame loop run once,
    that body hands the 1024 samples to [computeSTFT] against the first 1024
    entries of each window, and the transform returns on them, with the
    2048 numbers of 1024 bins instead of the 4096 of a full window. *)
Lemma short_frame_reaches_fft :
  let audioData := replicate 1024 (Fin 1) in
  let frame := frameData (normalize audioData) 512 0 in
  length frame = 1024%nat /\ 1024%nat <> WINDOW_SIZE /\
  (forall fuel phases sampleRate K tm,
     analyzeReassignment fuel phases audioData sampleRate 512 K tm =
       let w := createHermiteFunctions WINDOW_SIZE K tm in
       s ← forUpToM K
              (fun k s =>
                 stft ← computeSTFT fuel frame
                          (take 1024 (slice (h w) (k * WINDOW_SIZE) ((k + 1) * WINDOW_SIZE)));
                 freqMod ← computeSTFT fuel frame
                             (take 1024 (slice (Dh w) (k * WINDOW_SIZE) ((k + 1) * WINDOW_SIZE)));
                 forUpToM (WINDOW_SIZE / 2) (binStep fuel sampleRate stft freqMod) s)
              (mkBinState (zeros (WINDOW_SIZE / 2)) (Fin 0) phases);
       Some (writeResult (tfr s) (replicate (WINDOW_SIZE / 2) 0%Z), previousPhase s)) /\
  (forall fuel window, (10 <= fuel)%nat ->
     exists out, computeSTFT fuel frame window = Some out /\ length out = 2048%nat).
Proof.
  intros audioData frame.
  assert (Hlen : length audioData = 1024%nat) by apply length_replicate.
  assert (Hframe : length frame = 1024%nat).
  { unfold frame. rewrite length_frameData, length_normalize, Hlen.
    unfold WINDOW_SIZE. reflexivity. }
  split; [exact Hframe |]. split; [unfold WINDOW_SIZE; lia |]. split.
  - intros fuel phases sampleRate K tm. cbv zeta.
    unfold analyzeReassignment.
    rewrite iterationsBelow_nFramesOf by lia.
    rewrite short_buffer_quotient by (rewrite ?Hlen; unfold WINDOW_SIZE; lia).
    cbn [mbind option_bind]. change (Z.to_nat 1) with 1%nat. rewrite forUpToM_S.
    change (forUpToM 0 ?F ?s) with (Some s). cbn [mbind option_bind].
    rewrite frameStep_as_sliced. fold frame. rewrite Hframe. reflexivity.
  - intros fuel window Hfuel.
    destruct (computeSTFT_returns fuel frame window) as [out Hout].
    { right. exists 10%nat. split; [rewrite Hframe; reflexivity | exact Hfuel]. }
    exists out. split; [exact Hout |].
    apply computeSTFT_length in Hout. rewrite Hout, Hframe. reflexivity.
Qed.

End FramesReachTheTransform.

Section Superposition.

Local Open Scope R_scope.

Variables a b : R.
















End Superposition.


(** ** The normalization of the input *)

Section Normalization.

Local Open Scope R_scope.

Lemma fold_max_Fin_attained (rs : list R) : forall m,
  exists m', fold_left max (Fin <$> rs) (Fin m) = Fin m' /\ (m' = m \/ m' ∈ rs) /\
             m <= m' /\ Forall (fun r => r <= m') rs.
Proof.
  induction rs as [|r rs IH]; intros m.
  - exists m. repeat split; [now left | lra | constructor].
  - cbn [fmap list_fmap fold_left]. rewrite max_Fin.
    destruct (Rltb_cases m r) as [[-> Hlt] | [-> Hge]].
    + destruct (IH r) as (m' & E & Hin & Hm & Hall). exists m'.
      repeat split; [assumption | | lra | now constructor].
      right. destruct Hin as [-> | Hin]; [left | now right].
    + destruct (IH m) as (m' & E & Hin & Hm & Hall). exists m'.
      repeat split; [assumption | | assumption | constructor; [lra | assumption]].
      destruct Hin as [-> | Hin]; [now left | right; now right].
Qed.

(** The peak of a non-empty buffer of finite samples is the largest of
    their absolute values. *)
Lemma maxList_abs_attained (rs : list R) :
  rs <> [] ->
  exists m, maxList (abs <$> (Fin <$> rs)) = Fin m /\
            Forall (fun r => Rabs r <= m) rs /\ exists r, r ∈ rs /\ m = Rabs r.
Proof.
  intros Hne. destruct rs as [|r rs]; [congruence |].
  unfold maxList. cbn [fmap list_fmap fold_left abs].
  change (max NInf (Fin (Rabs r))) with (Fin (Rabs r)).
  assert (Habs : abs <$> (Fin <$> rs) = Fin <$> (Rabs <$> rs))
    by (rewrite <- !list_fmap_compose; reflexivity).
  destruct (fold_max_Fin_attained (Rabs <$> rs) (Rabs r)) as (m & E & Hin & Hm & Hall).
  exists m. split; [rewrite <- E; f_equal; exact Habs |].
  split; [constructor; [assumption | now apply Forall_fmap in Hall] |].
  destruct Hin as [-> | Hin].
  - exists r. split; [left | reflexivity].
  - apply list_elem_of_fmap in Hin as (r' & -> & Hr'). exists r'. split; [now right | reflexivity].
Qed.

Lemma maxList_abs_unique (rs : list R) m :
  Forall (fun r => Rabs r <= m) rs -> (exists r, r ∈ rs /\ m = Rabs r) ->
  maxList (abs <$> (Fin <$> rs)) = Fin m.
Proof.
  intros Hall (r & Hr & ->).
  destruct (maxList_abs_attained rs) as (m' & -> & Hall' & r' & Hr' & ->).
  { intros ->. inversion Hr. }
  f_equal. rewrite Forall_forall in Hall, Hall'.
  specialize (Hall r' Hr'). specialize (Hall' r Hr). simpl in *. lra.
Qed.

Lemma get_normalize (rs : list R) i r m :
  rs !! i = Some r -> maxList (abs <$> (Fin <$> rs)) = Fin m ->
  get (normalize (Fin <$> rs)) i = mul (div (Fin r) (Fin m)) (Fin 200).
Proof.
  intros Hr Hm. apply lookup_lt_Some in Hr as Hi.
  unfold normalize. rewrite length_fmap, forUpTo_fill_zeros, get_fmap_seq by assumption.
  rewrite Hm. now rewrite (get_fmap_Fin rs i r).
Qed.

Lemma normalize_scaled (rs : list R) (c : R) :
  0 < c -> normalize (Fin <$> ((fun r => c * r) <$> rs)) = normalize (Fin <$> rs).
Proof.
  intros Hc. destruct (decide (rs = [])) as [-> | Hne]; [reflexivity |].
  destruct (maxList_abs_attained rs Hne) as (m & Hm & Hall & r0 & Hr0 & Em).
  assert (Hm' : maxList (abs <$> (Fin <$> ((fun r => c * r) <$> rs))) = Fin (c * m)).
  { apply maxList_abs_unique.
    - apply Forall_fmap. eapply Forall_impl; [exact Hall |].
      intros r Hr. simpl. rewrite Rabs_mult, (Rabs_pos_eq c) by lra.
      apply Rmult_le_compat_l; lra.
    - exists (c * r0). split; [now apply list_elem_of_fmap_2 |].
      rewrite Rabs_mult, (Rabs_pos_eq c) by lra. now rewrite Em. }
  apply list_eq_get; [now rewrite !length_normalize, !length_fmap |].
  intros p Hp. rewrite length_normalize, !length_fmap in Hp.
  destruct (lookup_lt_is_Some_2 rs p Hp) as [r Hr].
  rewrite (get_normalize _ p (c * r) (c * m)); [| now rewrite list_lookup_fmap, Hr | exact Hm'].
  rewrite (get_normalize rs p r m Hr Hm).
  assert (Hrm : Rabs r <= m).
  { rewrite Forall_forall in Hall. apply Hall. eapply list_elem_of_lookup_2, Hr. }
  destruct (Req_dec_T m 0) as [-> | Hmnz].
  - assert (r = 0) as ->.
    { destruct (Req_dec_T r 0) as [E | E]; [exact E |].
      apply Rabs_pos_lt in E. lra. }
    rewrite !Rmult_0_r. reflexivity.
  - rewrite !div_Fin by (try assumption; apply Rmult_integral_contrapositive; lra).
    cbn [mul]. f_equal. field. lra.
Qed.

End Normalization.

(** ** The bytes of a frame *)

Section OutputBytes.

Local Open Scope R_scope.

Lemma forUpTo_insert_lookup {A : Type} (g : nat -> A) n : forall (l : list A) i,
  (i < length l)%nat ->
  forUpTo n (fun i r => <[i := g i]> r) l !! i =
    if decide (i < n)%nat then Some (g i) else l !! i.
Proof.
  induction n as [|n IH]; intros l i Hi.
  - rewrite forUpTo_0. now rewrite decide_False by lia.
  - rewrite forUpTo_S.
    assert (Hlen : length (forUpTo n (fun i r => <[i := g i]> r) l) = length l).
    { apply length_forUpTo_set. intros j a0. apply length_insert. }
    destruct (decide (i = n)) as [-> | Hne].
    + rewrite list_lookup_insert_eq by lia. now rewrite decide_True by lia.
    + rewrite list_lookup_insert_ne by congruence. rewrite IH by assumption.
      repeat case_decide; first [reflexivity | lia].
Qed.

Lemma writeResult_lookup tfr (result : list Z) i M :
  maxList tfr = Fin M -> 0 < M -> (i < WINDOW_SIZE / 2)%nat -> (i < length result)%nat ->
  writeResult tfr result !! i =
    Some (toUint8 (min (Fin 255)
            (max (Fin 0)
               (mul (mul (pow (div (get tfr i) (Fin M)) (Fin (1 / 10))) (Fin 255)) (Fin 5))))).
Proof.
  intros HM Hpos Hi Hlen. unfold writeResult. rewrite HM.
  unfold gt. cbn [lt]. rewrite Rltb_true by assumption.
  rewrite (forUpTo_insert_lookup
             (fun i => toUint8 (min (Fin 255)
                (max (Fin 0)
                   (mul (mul (pow (div (get tfr i) (Fin M)) (Fin (1 / 10))) (Fin 255))
                        (Fin 5)))))) by assumption.
  now rewrite decide_True by assumption.
Qed.

Lemma tenth_not_integer : isInteger (1 / 10) = false.
Proof.
  unfold isInteger. apply Reqb_false.
  assert (Zfloor (1 / 10) = 0%Z) as -> by (apply Zfloor_eq; simpl; lra).
  simpl. lra.
Qed.

Lemma pow_tenth_pos x : 0 < x -> pow (Fin x) (Fin (1 / 10)) = Fin (Rpower x (1 / 10)).
Proof.
  intros Hx. unfold pow. rewrite Reqb_false by lra.
  rewrite tenth_not_integer. now rewrite Rltb_true.
Qed.

Lemma pow_tenth_zero : pow (Fin 0) (Fin (1 / 10)) = Fin 0.
Proof.
  unfold pow. rewrite Reqb_false by lra. rewrite tenth_not_integer.
  rewrite (Rltb_false 0 0) by lra. now rewrite Rltb_true by lra.
Qed.


Lemma toUint8_IZR z : (0 <= z < 256)%Z -> toUint8 (Fin (IZR z)) = z.
Proof.
  intros Hz. unfold toUint8. rewrite Rltb_false by (apply IZR_le; lia).
  rewrite ZfloorZ. now apply Z.mod_small.
Qed.

End OutputBytes.

(** ** The parity of the Hermite polynomials and of the tapers *)

Section Parity.

Local Open Scope R_scope.






End Parity.

(** ** Frequencies and MIDI notes *)

Section MidiNotes.

Import MidiUtils.

Local Open Scope R_scope.

Lemma ln2_pos : 0 < ln 2.
Proof. pose proof ln_lt_2. lra. Qed.

Lemma pow2_Rpower y : pow (Fin 2) (Fin y) = Fin (Rpower 2 y).
Proof.
  unfold pow. destruct (Req_dec_T y 0) as [-> | Hy].
  - rewrite Reqb_true. now rewrite Rpower_O by lra.
  - rewrite Reqb_false by assumption.
    destruct (isInteger y) eqn:E.
    + rewrite (Reqb_false 2 0) by lra. cbn [andb].
      unfold isInteger in E. apply Reqb_spec in E.
      rewrite powerRZ_Rpower by lra. now rewrite E.
    + now rewrite Rltb_true by lra.
Qed.

Lemma log2_pos a : 0 < a -> log2 (Fin a) = Fin (ln a / ln 2).
Proof.
  intros Ha. unfold log2. rewrite Rltb_false by lra. now rewrite Reqb_false by lra.
Qed.

Lemma MIDIToFrequency_Fin m :
  MIDIToFrequency (Fin m) = Fin (440 * Rpower 2 ((m - 69) / 12)).
Proof.
  unfold MIDIToFrequency. rewrite sub_Fin, div_Fin by lra. now rewrite pow2_Rpower.
Qed.

Lemma frequencyToMIDI_Fin f :
  0 < f ->
  frequencyToMIDI (Fin f) = Fin (IZR (Zfloor (69 + 12 * (ln (f / 440) / ln 2) + / 2))).
Proof.
  intros Hf. unfold frequencyToMIDI. rewrite div_Fin by lra.
  rewrite log2_pos by (apply Rdiv_lt_0_compat; lra). reflexivity.
Qed.

Lemma log2_Rpower y : ln (Rpower 2 y) / ln 2 = y.
Proof.
  unfold Rpower. rewrite ln_exp. field. pose proof ln2_pos. lra.
Qed.

Lemma Rpower_pos x y : 0 < Rpower x y.
Proof. unfold Rpower. apply exp_pos. Qed.

Lemma note_of_frequency m :
  69 + 12 * (ln (440 * Rpower 2 ((m - 69) / 12) / 440) / ln 2) = m.
Proof.
  replace (440 * Rpower 2 ((m - 69) / 12) / 440) with (Rpower 2 ((m - 69) / 12))
    by (field; lra).
  rewrite log2_Rpower. field.
Qed.

Lemma round_IZR z : round (Fin (IZR z)) = Fin (IZR z).
Proof.
  unfold round. do 2 f_equal. apply Zfloor_eq. lra.
Qed.

End MidiNotes.

(** ** The 32-bit operators on integers *)

Section Bits.

Local Open Scope Z_scope.

Lemma truncate_IZR z : truncate (IZR z) = z.
Proof.
  unfold truncate. destruct (Rltb_cases (IZR z) 0) as [[-> H] | [-> H]].
  - rewrite <- opp_IZR, ZfloorZ. lia.
  - apply ZfloorZ.
Qed.

Lemma toInt32_ofZ z : - 2 ^ 31 <= z < 2 ^ 31 -> toInt32 (ofZ z) = z.
Proof.
  intros Hz. unfold toInt32, ofZ. rewrite truncate_IZR. cbv zeta.
  destruct (Z_lt_le_dec z 0) as [Hneg | Hpos].
  - replace (z mod 2 ^ 32) with (z + 2 ^ 32).
    + rewrite (proj2 (Z.leb_le _ _)) by lia. lia.
    + apply Z.mod_unique with (q := -1); lia.
  - rewrite Z.mod_small by lia. now rewrite (proj2 (Z.leb_gt _ _)) by lia.
Qed.

Lemma toInt32_ofNat n : (Z.of_nat n < 2 ^ 31) -> toInt32 (ofNat n) = Z.of_nat n.
Proof.
  intros Hn. unfold ofNat. rewrite INR_IZR_INZ. apply toInt32_ofZ. lia.
Qed.

Lemma land_127 d : Z.land d 0x7F = d mod 128.
Proof. change 0x7F with (Z.ones 7). now rewrite Z.land_ones by lia. Qed.

Lemma land_255 d : Z.land d 0xFF = d mod 256.
Proof. change 0xFF with (Z.ones 8). now rewrite Z.land_ones by lia. Qed.

Lemma lor_128 x : 0 <= x < 128 -> Z.lor x 0x80 = x + 128.
Proof.
  intros Hx.
  assert (Hland : Z.land x 0x80 = 0).
  { apply Z.bits_inj'. intros n Hn. rewrite Z.land_spec, Z.bits_0.
    change 0x80 with (2 ^ 7). rewrite Z.pow2_bits_eqb by lia.
    destruct (Z.eqb_spec 7 n) as [<- | Hne]; [| apply andb_false_r].
    rewrite andb_true_r. apply Z.testbit_false; [lia |].
    rewrite Z.div_small by lia. reflexivity. }
  rewrite <- Z.lxor_lor by assumption.
  symmetry. now apply Z.add_nocarry_lxor.
Qed.

Lemma testbit_7_low x : 0 <= x < 128 -> Z.testbit x 7 = false.
Proof.
  intros Hx. apply Z.testbit_false; [lia |]. rewrite Z.div_small by lia. reflexivity.
Qed.

Lemma testbit_7_high x : 0 <= x < 128 -> Z.testbit (x + 128) 7 = true.
Proof.
  intros Hx. apply Z.testbit_true; [lia |].
  replace (x + 128) with (x + 1 * 2 ^ 7) by lia.
  rewrite Z.div_add by lia. rewrite Z.div_small by lia. reflexivity.
Qed.

Lemma toUint8_ofZ z : 0 <= z < 256 -> toUint8 (ofZ z) = z.
Proof.
  intros Hz. unfold toUint8, ofZ. rewrite Rltb_false by (apply IZR_le; lia).
  rewrite ZfloorZ. now apply Z.mod_small.
Qed.

Lemma gt_ofZ_0 z : gt (ofZ z) (Fin 0) = (0 <? z).
Proof.
  unfold gt, ofZ. cbn [lt].
  destruct (Z.ltb_spec 0 z) as [H | H].
  - apply Rltb_true. now apply IZR_lt.
  - apply Rltb_false. now apply IZR_le.
Qed.

Lemma toInt32_range x : - 2 ^ 31 <= toInt32 x < 2 ^ 31.
Proof.
  destruct x as [| a | |]; cbn [toInt32]; try lia.
  pose proof (Z.mod_pos_bound (truncate a) (2 ^ 32) ltac:(lia)) as H.
  cbv zeta. destruct (Z.leb_spec (2 ^ 31) (truncate a mod 2 ^ 32)); lia.
Qed.

Lemma toUint8_range x : 0 <= toUint8 x < 256.
Proof.
  destruct x as [| a | |]; cbn [toUint8]; try lia.
  apply Z.mod_pos_bound. lia.
Qed.

End Bits.

(** ** The variable-length quantities *)

Section VariableLength.

Import MidiUtils.

Local Open Scope Z_scope.

Let cond : list num * num -> bool := fun '(_, deltaTime) => gt deltaTime (Fin 0).

Let body : list num * num -> list num * num :=
  fun '(bytes, deltaTime) =>
    let bytes1 := bitAnd deltaTime (ofZ 0x7F) :: bytes in
    let deltaTime' := shiftRight deltaTime 7 in
    let bytes2 :=
      if (1 <? length bytes1)%nat
      then set bytes1 0 (bitOr (get bytes1 0) (ofZ 0x80)) else bytes1 in
    (bytes2, deltaTime').

Lemma variableLength_unfold fuel deltaTime :
  variableLength fuel deltaTime =
    if gt deltaTime (Fin 0) then fst <$> while fuel cond body ([], deltaTime)
    else Some [Fin 0].
Proof. reflexivity. Qed.

(** One turn of the loop on an integer. *)
Lemma body_ofZ bytes d :
  0 <= d < 2 ^ 31 ->
  body (bytes, ofZ d) =
    (ofZ (d mod 128 + (if decide (bytes = []) then 0 else 128)) :: bytes, ofZ (d / 128)).
Proof.
  intros Hd. unfold body, bitAnd, bitOr, shiftRight.
  rewrite !toInt32_ofZ by lia. rewrite land_127.
  rewrite Z.shiftr_div_pow2 by lia. change (2 ^ 7) with 128.
  pose proof (Z.mod_pos_bound d 128 ltac:(lia)) as Hmod.
  destruct bytes as [|b bytes].
  - cbn [length Nat.ltb Nat.leb]. rewrite decide_True by reflexivity.
    now rewrite Z.add_0_r.
  - cbn [length]. rewrite decide_False by discriminate.
    replace (1 <? S (S (length bytes)))%nat with true
      by (symmetry; apply Nat.ltb_lt; lia).
    unfold set, get. cbn [insert list_insert lookup list_lookup default from_option].
    unfold Datatypes.id.
    rewrite !toInt32_ofZ by lia.
    now rewrite lor_128 by lia.
Qed.

(** The loop from a state reached on the way of writing [z]: [bytes] holds
    the low [7 * length bytes] bits of [z], [d] the bits above them. *)
Lemma variableLength_loop z : forall (n : nat) bytes d,
  0 <= z -> 0 <= d < 2 ^ (7 * Z.of_nat n) -> d < 2 ^ 31 ->
  d = z / 2 ^ (7 * Z.of_nat (length bytes)) ->
  (bytes = [] -> 0 < d) ->
  (bytes <> [] -> forall value rest,
     readVariableLength value ((toUint8 <$> bytes) ++ rest) =
       Some (value * 2 ^ (7 * Z.of_nat (length bytes))
             + z mod 2 ^ (7 * Z.of_nat (length bytes)), rest)) ->
  exists out d',
    while (S n) cond body (bytes, ofZ d) = Some (out, d') /\
    (length bytes <= length out <= length bytes + n)%nat /\
    (1 <= length out)%nat /\
    forall rest, readVariableLength 0 ((toUint8 <$> out) ++ rest) = Some (z, rest).
Proof.
  induction n as [|n IH]; intros bytes d Hz Hd Hd31 Hdz Hne Hread.
  - change (2 ^ (7 * Z.of_nat 0)) with 1 in Hd. assert (d = 0) as -> by lia.
    exists bytes, (ofZ 0). cbn [while]. unfold cond at 1. rewrite gt_ofZ_0.
    cbn [Z.ltb Z.compare]. split; [reflexivity |].
    assert (Hnil : bytes <> []) by (intros E; specialize (Hne E); lia).
    split; [lia |]. split; [destruct bytes; [congruence | simpl; lia] |].
    intros rest. rewrite (Hread Hnil 0 rest). f_equal. f_equal.
    set (p := 2 ^ (7 * Z.of_nat (length bytes))) in *.
    assert (Hp : 0 < p) by (apply Z.pow_pos_nonneg; lia).
    symmetry in Hdz. apply Z.div_small_iff in Hdz; [| lia].
    rewrite Z.mod_small by lia. lia.
  - destruct (Z.eq_dec d 0) as [-> | Hdnz].
    + exists bytes, (ofZ 0). cbn [while]. unfold cond at 1. rewrite gt_ofZ_0.
      cbn [Z.ltb Z.compare]. split; [reflexivity |].
      assert (Hnil : bytes <> []) by (intros E; specialize (Hne E); lia).
      split; [lia |]. split; [destruct bytes; [congruence | simpl; lia] |].
      intros rest. rewrite (Hread Hnil 0 rest). f_equal. f_equal.
      set (p := 2 ^ (7 * Z.of_nat (length bytes))) in *.
      assert (Hp : 0 < p) by (apply Z.pow_pos_nonneg; lia).
      symmetry in Hdz. apply Z.div_small_iff in Hdz; [| lia].
      rewrite Z.mod_small by lia. lia.
    + set (k := length bytes) in *.
      set (p := 2 ^ (7 * Z.of_nat k)) in *.
      assert (Hp : 0 < p) by (apply Z.pow_pos_nonneg; lia).
      assert (Hpow : 2 ^ (7 * Z.of_nat (S k)) = p * 128).
      { replace (7 * Z.of_nat (S k)) with (7 * Z.of_nat k + 7) by lia.
        rewrite Z.pow_add_r by lia. reflexivity. }
      assert (Hpown : 2 ^ (7 * Z.of_nat (S n)) = 2 ^ (7 * Z.of_nat n) * 128).
      { replace (7 * Z.of_nat (S n)) with (7 * Z.of_nat n + 7) by lia.
        rewrite Z.pow_add_r by lia. reflexivity. }
      pose proof (Z.mod_pos_bound d 128 ltac:(lia)) as Hmod.
      set (b := d mod 128 + (if decide (bytes = []) then 0 else 128)).
      destruct (IH (ofZ b :: bytes) (d / 128)) as (out & d' & Hw & Hlen & Hlen1 & Hout).
      * exact Hz.
      * split; [apply Z.div_pos; lia |].
        apply Z.div_lt_upper_bound; lia.
      * assert (d / 128 <= d) by (apply Z.div_le_upper_bound; lia). lia.
      * cbn [length]. fold k. rewrite Hpow, Hdz.
        now rewrite Z.div_div by lia.
      * discriminate.
      * intros _ value rest. cbn [length]. fold k. rewrite Hpow.
        cbn [fmap list_fmap app readVariableLength].
        assert (Hb : 0 <= b < 256) by (subst b; case_decide; lia).
        rewrite toUint8_ofZ by exact Hb. rewrite land_127.
        assert (Hrem : z mod (p * 128) = z mod p + p * (d mod 128)).
        { rewrite Z.rem_mul_r by lia. now rewrite Hdz. }
        subst b. case_decide as Hnil.
        -- subst bytes. rewrite Z.add_0_r, Z.mod_mod by lia.
           rewrite testbit_7_low by lia.
           subst k p. cbn [length] in *. change (2 ^ (7 * Z.of_nat 0)) with 1 in *.
           f_equal. f_equal. rewrite Hrem. rewrite Z.mod_1_r. lia.
        -- replace ((d mod 128 + 128) mod 128) with (d mod 128)
             by (rewrite <- (Z.mod_mod d 128) at 1 by lia;
                 replace (d mod 128 + 128) with (d mod 128 + 1 * 128) by lia;
                 now rewrite Z.mod_add, Z.mod_mod by lia).
           rewrite testbit_7_high by lia.
           rewrite (Hread Hnil). f_equal. f_equal. rewrite Hrem. lia.
      * exists out, d'. split.
        -- cbn [while]. unfold cond at 1. rewrite gt_ofZ_0.
           rewrite (proj2 (Z.ltb_lt 0 d)) by lia.
           rewrite body_ofZ by lia. exact Hw.
        -- cbn [length] in Hlen. split; [lia |]. split; [exact Hlen1 | exact Hout].
Qed.

Lemma variableLength_integer fuel z :
  (6 <= fuel)%nat -> 0 <= z < 2 ^ 31 ->
  exists bytes,
    variableLength fuel (ofZ z) = Some bytes /\
    (1 <= length bytes <= 5)%nat /\
    forall rest, readVariableLength 0 ((toUint8 <$> bytes) ++ rest) = Some (z, rest).
Proof.
  intros Hfuel Hz. rewrite variableLength_unfold, gt_ofZ_0.
  destruct (Z.ltb_spec 0 z) as [Hpos | Hzero].
  - destruct (variableLength_loop z 5 [] z) as (out & d' & Hw & Hlen & Hlen1 & Hout);
      try lia.
    + cbn [length]. change (2 ^ (7 * Z.of_nat 0)) with 1. now rewrite Z.div_1_r.
    + congruence.
    + exists out. apply (while_mono _ _ _ fuel) in Hw; [| lia].
      rewrite Hw. split; [reflexivity |]. cbn [length] in Hlen.
      split; [lia | exact Hout].
  - assert (z = 0) as -> by lia. exists [Fin 0]. split; [reflexivity |].
    split; [simpl; lia |]. intros rest.
    cbn [fmap list_fmap app readVariableLength].
    change (Fin 0) with (ofZ 0). rewrite toUint8_ofZ by lia. reflexivity.
Qed.

(** The loop ends within [n] turns on a value below [2 ^ (7 n)]. *)
Lemma variableLength_loop_ends : forall (n : nat) bytes d,
  0 <= d < 2 ^ (7 * Z.of_nat n) -> d < 2 ^ 31 ->
  exists out d',
    while (S n) cond body (bytes, ofZ d) = Some (out, d') /\
    (length bytes <= length out <= length bytes + n)%nat.
Proof.
  induction n as [|n IH]; intros bytes d Hd Hd31.
  - change (2 ^ (7 * Z.of_nat 0)) with 1 in Hd. assert (d = 0) as -> by lia.
    exists bytes, (ofZ 0). cbn [while]. unfold cond at 1. rewrite gt_ofZ_0.
    cbn [Z.ltb Z.compare]. split; [reflexivity | lia].
  - destruct (Z.eq_dec d 0) as [-> | Hdnz].
    + exists bytes, (ofZ 0). cbn [while]. unfold cond at 1. rewrite gt_ofZ_0.
      cbn [Z.ltb Z.compare]. split; [reflexivity | lia].
    + assert (Hpown : 2 ^ (7 * Z.of_nat (S n)) = 2 ^ (7 * Z.of_nat n) * 128).
      { replace (7 * Z.of_nat (S n)) with (7 * Z.of_nat n + 7) by lia.
        rewrite Z.pow_add_r by lia. reflexivity. }
      set (b := d mod 128 + (if decide (bytes = []) then 0 else 128)).
      destruct (IH (ofZ b :: bytes) (d / 128)) as (out & d' & Hw & Hlen).
      * split; [apply Z.div_pos; lia |]. apply Z.div_lt_upper_bound; lia.
      * assert (d / 128 <= d) by (apply Z.div_le_upper_bound; lia). lia.
      * exists out, d'. split.
        -- cbn [while]. unfold cond at 1. rewrite gt_ofZ_0.
           rewrite (proj2 (Z.ltb_lt 0 d)) by lia.
           rewrite body_ofZ by lia. exact Hw.
        -- cbn [length] in Hlen. lia.
Qed.

Lemma variableLength_returns fuel deltaTime :
  (6 <= fuel)%nat ->
  exists bytes, variableLength fuel deltaTime = Some bytes /\
                (1 <= length bytes <= 5)%nat.
Proof.
  intros Hfuel. rewrite variableLength_unfold.
  destruct (gt deltaTime (Fin 0)) eqn:Hgt; [| exists [Fin 0]; split; [reflexivity | simpl; lia]].
  destruct fuel as [|fuel]; [lia |].
  cbn [while]. unfold cond at 1. rewrite Hgt.
  unfold body at 2. cbn [length Nat.ltb Nat.leb]. unfold bitAnd at 1, shiftRight at 1.
  pose proof (toInt32_range deltaTime) as Hr.
  set (n := toInt32 deltaTime) in *.
  rewrite Z.shiftr_div_pow2 by lia. change (2 ^ 7) with 128.
  destruct (Z_lt_le_dec 0 (n / 128)) as [Hpos | Hneg].
  - assert (n / 128 < 2 ^ 24) by (apply Z.div_lt_upper_bound; lia).
    destruct (variableLength_loop_ends 4 [ofZ (Z.land n (toInt32 (ofZ 127)))] (n / 128))
      as (out & d' & Hw & Hlen); [change (2 ^ (7 * Z.of_nat 4)) with (2 ^ 28); lia | lia |].
    apply (while_mono _ _ _ fuel) in Hw; [| lia].
    rewrite Hw. exists out. split; [reflexivity |]. cbn [length] in Hlen. lia.
  - destruct fuel as [|fuel]; [lia |]. cbn [while]. unfold cond at 1. rewrite gt_ofZ_0.
    rewrite (proj2 (Z.ltb_ge 0 (n / 128))) by lia.
    eexists. split; [reflexivity | simpl; lia].
Qed.

End VariableLength.

(** ** The bytes of the file *)

Section MidiFile.

Import MidiUtils.

Local Open Scope Z_scope.

Lemma trackDataOf_returns fuel (events : list (list num)) :
  (6 <= fuel)%nat ->
  exists data, trackDataOf fuel events =
                 Some (data ++ (ofZ <$> [0x00; 0xFF; 0x2F; 0x00])).
Proof.
  intros Hfuel. unfold trackDataOf.
  assert (H : forall acc, exists data,
            fold_left (fun acc event => acc ≫= fun t => writeEvent fuel t event)
              events (Some acc) = Some data).
  { induction events as [|e events IH]; intros acc; [now exists acc |].
    cbn [fold_left mbind option_bind]. unfold writeEvent at 2.
    destruct (variableLength_returns fuel (get e 0) Hfuel) as (bytes & -> & _).
    cbn [mbind option_bind]. apply IH. }
  destruct (H []) as [data ->]. cbn [mbind option_bind]. now exists data.
Qed.

Lemma byte_of_length (len : nat) (k : Z) :
  Z.of_nat len < 2 ^ 31 -> 0 <= k ->
  toUint8 (bitAnd (shiftRight (ofNat len) k) (ofZ 0xFF)) = (Z.of_nat len / 2 ^ k) mod 256.
Proof.
  intros Hlen Hk. unfold bitAnd, shiftRight.
  rewrite toInt32_ofNat by assumption.
  rewrite Z.shiftr_div_pow2 by assumption.
  assert (H0 : 0 <= Z.of_nat len / 2 ^ k)
    by (apply Z.div_pos; [lia | apply Z.pow_pos_nonneg; lia]).
  assert (H1 : Z.of_nat len / 2 ^ k <= Z.of_nat len).
  { apply Z.div_le_upper_bound; [apply Z.pow_pos_nonneg; lia |].
    assert (0 < 2 ^ k) by (apply Z.pow_pos_nonneg; lia). nia. }
  rewrite !toInt32_ofZ by lia. rewrite land_255.
  apply toUint8_ofZ. apply Z.mod_pos_bound. lia.
Qed.

Lemma byte_of_length_0 (len : nat) :
  Z.of_nat len < 2 ^ 31 ->
  toUint8 (bitAnd (ofNat len) (ofZ 0xFF)) = Z.of_nat len mod 256.
Proof.
  intros Hlen. unfold bitAnd. rewrite toInt32_ofNat by assumption.
  rewrite !toInt32_ofZ by lia. rewrite land_255.
  apply toUint8_ofZ. apply Z.mod_pos_bound. lia.
Qed.

Lemma big_endian_32 n :
  0 <= n < 2 ^ 32 ->
  (n / 2 ^ 24) mod 256 * 2 ^ 24 + (n / 2 ^ 16) mod 256 * 2 ^ 16
  + (n / 2 ^ 8) mod 256 * 2 ^ 8 + n mod 256 = n.
Proof.
  intros Hn.
  pose proof (Z.div_mod n 256 ltac:(lia)) as H0.
  pose proof (Z.div_mod (n / 256) 256 ltac:(lia)) as H1.
  pose proof (Z.div_mod (n / 256 / 256) 256 ltac:(lia)) as H2.
  rewrite !Z.div_div in H1, H2 by lia.
  rewrite !Z.div_div in H2 by lia.
  change (2 ^ 8) with 256. change (2 ^ 16) with (256 * 256).
  change (2 ^ 24) with (256 * 256 * 256).
  assert (H3 : n / (256 * 256 * 256) < 256) by (apply Z.div_lt_upper_bound; lia).
  assert (H4 : 0 <= n / (256 * 256 * 256)) by (apply Z.div_pos; lia).
  rewrite (Z.mod_small (n / (256 * 256 * 256))) by lia.
  change (256 * 256 * 256) with 16777216 in *. change (256 * 256) with 65536 in *.
  lia.
Qed.

Lemma ticks_bytes z :
  0 <= z < 65536 ->
  toUint8 (bitAnd (shiftRight (ofZ z) 8) (ofZ 0xFF)) * 256
  + toUint8 (bitAnd (ofZ z) (ofZ 0xFF)) = z.
Proof.
  intros Hz. unfold bitAnd, shiftRight.
  rewrite (toInt32_ofZ z) by lia.
  rewrite Z.shiftr_div_pow2 by lia. change (2 ^ 8) with 256.
  assert (0 <= z / 256 < 256)
    by (split; [apply Z.div_pos; lia | apply Z.div_lt_upper_bound; lia]).
  rewrite !toInt32_ofZ by lia. rewrite !land_255.
  rewrite !toUint8_ofZ by (apply Z.mod_pos_bound; lia).
  rewrite (Z.mod_small (z / 256)) by lia.
  pose proof (Z.div_mod z 256 ltac:(lia)). lia.
Qed.

(** The bytes of the file, chunk by chunk, from those of the track. *)
Lemma fileData_chunks (fuel : nat) (d : midiData) (t : track) (others : list track)
    (data : list num) :
  tracks d = t :: others ->
  trackDataOf fuel
    (toDeltaTimes (sortArray (fun a b => sub (get a 0) (get b 0)) (pushedEvents t)))
    = Some (data ++ (ofZ <$> [0x00; 0xFF; 0x2F; 0x00])) ->
  let len := (length data + 4)%nat in
  saveMidiFile fuel d =
    Some ([0x4D; 0x54; 0x68; 0x64; 0; 0; 0; 6; 0; 1; 0; 1;
           toUint8 (bitAnd (shiftRight (ticksPerBeat d) 8) (ofZ 0xFF));
           toUint8 (bitAnd (ticksPerBeat d) (ofZ 0xFF))]
          ++ [0x4D; 0x54; 0x72; 0x6B;
              toUint8 (bitAnd (shiftRight (ofNat len) 24) (ofZ 0xFF));
              toUint8 (bitAnd (shiftRight (ofNat len) 16) (ofZ 0xFF));
              toUint8 (bitAnd (shiftRight (ofNat len) 8) (ofZ 0xFF));
              toUint8 (bitAnd (ofNat len) (ofZ 0xFF))]
          ++ (toUint8 <$> data) ++ [0x00; 0xFF; 0x2F; 0x00]).
Proof.
  intros Htracks Hdata. cbv zeta. unfold saveMidiFile. rewrite Htracks.
  cbn [lookup list_lookup mbind option_bind]. rewrite Hdata.
  cbn [mbind option_bind]. f_equal.
  assert (Hlen : length (data ++ (ofZ <$> [0x00; 0xFF; 0x2F; 0x00])) = (length data + 4)%nat)
    by (rewrite length_app, length_fmap; reflexivity).
  rewrite Hlen. unfold header, trackHeader.
  rewrite !fmap_app. cbn [fmap list_fmap].
  rewrite !toUint8_ofZ by lia. rewrite <- !app_assoc. reflexivity.
Qed.

Lemma fileData_fields (tpb : num) (len : nat) :
  let hi := toUint8 (bitAnd (shiftRight tpb 8) (ofZ 0xFF)) in
  let lo := toUint8 (bitAnd tpb (ofZ 0xFF)) in
  let b3 := toUint8 (bitAnd (shiftRight (ofNat len) 24) (ofZ 0xFF)) in
  let b2 := toUint8 (bitAnd (shiftRight (ofNat len) 16) (ofZ 0xFF)) in
  let b1 := toUint8 (bitAnd (shiftRight (ofNat len) 8) (ofZ 0xFF)) in
  let b0 := toUint8 (bitAnd (ofNat len) (ofZ 0xFF)) in
  Forall (fun b => 0 <= b < 256) [hi; lo; b3; b2; b1; b0] /\
  (Z.of_nat len < 2 ^ 31 -> b3 * 2 ^ 24 + b2 * 2 ^ 16 + b1 * 2 ^ 8 + b0 = Z.of_nat len) /\
  (forall z, 0 <= z < 65536 -> tpb = ofZ z -> hi * 256 + lo = z).
Proof.
  cbv zeta. split; [| split].
  - repeat (apply Forall_cons; split; [apply toUint8_range |]). constructor.
  - intros Hsmall. rewrite !byte_of_length, byte_of_length_0 by lia.
    apply big_endian_32. lia.
  - intros z Hz ->. now apply ticks_bytes.
Qed.

Lemma ticks_480 :
  toUint8 (bitAnd (shiftRight (Fin 480) 8) (ofZ 0xFF)) = 1 /\
  toUint8 (bitAnd (Fin 480) (ofZ 0xFF)) = 224.
Proof.
  change (Fin 480) with (ofZ 480). unfold bitAnd, shiftRight.
  rewrite (toInt32_ofZ 480), (toInt32_ofZ 255) by lia.
  change (Z.shiftr 480 8) with 1. rewrite (toInt32_ofZ 1) by lia.
  change (Z.land 1 255) with 1. change (Z.land 480 255) with 224.
  split; apply toUint8_ofZ; lia.
Qed.

End MidiFile.

(** ** The delta times *)

Section DeltaTimes.

Import MidiUtils.

Local Open Scope R_scope.

Lemma toDeltaTimes_fold (evs : list (R * list num)) : forall converted lastTime,
  exists lastTime',
    fold_left
      (fun '(converted, lastTime) event =>
         let deltaTime := sub (get event 0) lastTime in
         let event' := set event 0 deltaTime in
         (converted ++ [event'], get event' 0))
      ((fun e => Fin e.1 :: e.2) <$> evs) (converted, Fin lastTime)
    = (converted
       ++ zip_with (fun d e => Fin d :: e.2) (deltasFrom lastTime (fst <$> evs)) evs,
       Fin lastTime').
Proof.
  induction evs as [|[t bs] evs IH]; intros converted lastTime.
  - exists lastTime. cbn. now rewrite app_nil_r.
  - cbn [fmap list_fmap fold_left fst snd deltasFrom zip_with].
    change (get (Fin t :: bs) 0) with (Fin t). rewrite sub_Fin.
    change (set (Fin t :: bs) 0 (Fin (t - lastTime))) with (Fin (t - lastTime) :: bs).
    change (get (Fin (t - lastTime) :: bs) 0) with (Fin (t - lastTime)).
    destruct (IH (converted ++ [Fin (t - lastTime) :: bs]) (t - lastTime)) as [l' Hl'].
    exists l'. rewrite <- app_assoc in Hl'. cbn [app] in Hl'. rewrite <- Hl'. reflexivity.
Qed.

Lemma toDeltaTimes_spec (evs : list (R * list num)) :
  toDeltaTimes ((fun e => Fin e.1 :: e.2) <$> evs)
  = zip_with (fun d e => Fin d :: e.2) (deltasFrom 0 (fst <$> evs)) evs.
Proof.
  destruct (toDeltaTimes_fold evs [] 0) as [l' Hl'].
  exact (f_equal fst Hl').
Qed.




End DeltaTimes.

(** ** The sort *)

Section Sort.

Local Open Scope R_scope.

Context {A : Type}.

Lemma insertSorted_perm (cmp : A -> A -> num) v : forall l,
  insertSorted cmp v l ≡ₚ v :: l.
Proof.
  induction l as [|u l IH]; [reflexivity |].
  cbn [insertSorted]. destruct (gt (cmp u v) (Fin 0)); [reflexivity |].
  rewrite IH. apply Permutation_swap.
Qed.

Lemma sortArray_fold_perm (cmp : A -> A -> num) : forall l acc,
  fold_left (fun sorted v => insertSorted cmp v sorted) l acc ≡ₚ acc ++ l.
Proof.
  induction l as [|v l IH]; intros acc; [now rewrite app_nil_r |].
  cbn [fold_left]. rewrite IH, insertSorted_perm.
  now rewrite (Permutation_middle acc l v).
Qed.

Lemma sortArray_perm (cmp : A -> A -> num) l : sortArray cmp l ≡ₚ l.
Proof. unfold sortArray. now rewrite sortArray_fold_perm. Qed.

Lemma length_sortArray (cmp : A -> A -> num) l : length (sortArray cmp l) = length l.
Proof. now rewrite sortArray_perm. Qed.

Variable key : A -> R.
Variable numKey : A -> num.

Let cmp : A -> A -> num := fun p q => sub (numKey p) (numKey q).



End Sort.


(** ** The persistence score *)

Section Persistence.

Import Renderer.

Local Open Scope R_scope.

Let entryOf (p : R * R) : entry := mkEntry (Fin p.1) (Fin p.2).

Lemma filter_entries (f : entry -> bool) (tas : list (R * R)) :
  List.filter f (entryOf <$> tas) = entryOf <$> List.filter (fun p => f (entryOf p)) tas.
Proof.
  induction tas as [|p tas IH]; [reflexivity |].
  cbn [fmap list_fmap List.filter]. destruct (f (entryOf p)); cbn [fmap list_fmap]; now rewrite IH.
Qed.

Lemma sum_amplitudes (tas : list (R * R)) : forall s,
  fold_left (fun sum e => add sum (amplitude e)) (entryOf <$> tas) (Fin s)
  = Fin (s + sumR (snd <$> tas)).
Proof.
  induction tas as [|p tas IH]; intros s.
  - cbn. f_equal. ring.
  - rewrite !fmap_cons.
    match goal with
    | |- fold_left ?f (?x :: ?l) ?a = _ =>
        change (fold_left f (x :: l) a) with (fold_left f l (Fin (s + p.2)))
    end.
    rewrite IH. f_equal. cbn [sumR fold_right].
    fold (sumR (snd <$> tas)). ring.
Qed.

Lemma sum_squares (tas : list (R * R)) (avg : R) : forall s,
  fold_left
    (fun sum e => let diff := sub (amplitude e) (Fin avg) in add sum (mul diff diff))
    (entryOf <$> tas) (Fin s)
  = Fin (s + sumR ((fun p => (p.2 - avg) * (p.2 - avg)) <$> tas)).
Proof.
  induction tas as [|p tas IH]; intros s.
  - cbn. f_equal. ring.
  - rewrite !fmap_cons.
    match goal with
    | |- fold_left ?f (?x :: ?l) ?a = _ =>
        change (fold_left f (x :: l) a)
          with (fold_left f l (Fin (s + (p.2 + - avg) * (p.2 + - avg))))
    end.
    rewrite IH. f_equal. cbn [sumR fold_right].
    fold (sumR ((fun p => (p.2 - avg) * (p.2 - avg)) <$> tas)). ring.
Qed.

Lemma sumR_squares_nonneg (tas : list (R * R)) avg :
  0 <= sumR ((fun p => (p.2 - avg) * (p.2 - avg)) <$> tas).
Proof.
  induction tas as [|p tas IH]; [simpl; lra |].
  cbn [fmap list_fmap sumR fold_right].
  fold (sumR ((fun p => (p.2 - avg) * (p.2 - avg)) <$> tas)).
  pose proof (Rle_0_sqr (p.2 - avg)) as H. unfold Rsqr in H. lra.
Qed.

(** The score on a non-empty history of finite entries, in real arithmetic. *)
Lemma score_finite (tas : list (R * R)) (tl : R * R) :
  last tas = Some tl ->
  let recent := List.filter (fun p => Rleb (tl.1 - 500) p.1) tas in
  let n := INR (length recent) in
  let avg := sumR (snd <$> recent) / n in
  let variance := sumR ((fun p => (p.2 - avg) * (p.2 - avg)) <$> recent) / n in
  recent <> [] /\
  calculatePersistenceScore (entryOf <$> tas)
    = if Rltb avg (15 / 100 * 255) then Fin 0
      else max (Fin 0) (Fin (1 - R_sqrt.sqrt variance / avg)).
Proof.
  intros Elast. cbv zeta.
  set (recent := List.filter (fun p => Rleb (tl.1 - 500) p.1) tas).
  assert (Htas : tas <> []) by (intros ->; discriminate).
  assert (Hne : recent <> []).
  { assert (Hin : tl ∈ recent).
    { apply list_elem_of_In, filter_In. split.
      - apply list_elem_of_In. now apply last_Some_elem_of.
      - apply Rleb_spec. lra. }
    intros E. rewrite E in Hin. inversion Hin. }
  split; [exact Hne |].
  unfold calculatePersistenceScore.
  assert (Hlast : from_option time NaN (last (entryOf <$> tas)) = Fin tl.1)
    by (rewrite fmap_last, Elast; reflexivity).
  assert (Hfilter :
    List.filter (fun e => ge (time e) (sub (Fin tl.1) PERSISTENCE_WINDOW)) (entryOf <$> tas)
    = entryOf <$> recent) by (rewrite filter_entries; reflexivity).
  cbv zeta. rewrite !Hlast, !Hfilter, !length_fmap.
  assert (Hlen : (length tas =? 0)%nat = false)
    by (destruct tas; [congruence | reflexivity]).
  rewrite Hlen.
  assert (Hpos : (0 < length recent)%nat) by (destruct recent; [congruence | simpl; lia]).
  rewrite (proj2 (Nat.eqb_neq _ _)) by lia.
  rewrite !sum_amplitudes, !Rplus_0_l.
  assert (Hn : 0 < INR (length recent)) by (apply lt_0_INR; lia).
  unfold ofNat. rewrite !div_Fin by lra.
  unfold PERSISTENCE_MIN_AMPLITUDE. cbn [mul lt].
  destruct (Rltb_cases (sumR (snd <$> recent) / INR (length recent)) (15 / 100 * 255))
    as [[-> Hlt] | [-> Hge]]; [reflexivity |].
  pose proof (sum_squares recent (sumR (snd <$> recent) / INR (length recent)) 0) as Hsq.
  cbv zeta in Hsq. rewrite Hsq, Rplus_0_l. rewrite div_Fin by lra.
  rewrite sqrt_Fin.
  2:{ apply Rmult_le_pos; [apply sumR_squares_nonneg |].
      now apply Rlt_le, Rinv_0_lt_compat. }
  rewrite div_Fin by lra. rewrite sub_Fin. reflexivity.
Qed.

Lemma sumR_bounded (l : list R) (c : R) :
  l <> [] -> Forall (fun r => r < c) l -> sumR l < INR (length l) * c.
Proof.
  intros Hne Hall. induction l as [|r l IH]; [congruence |].
  inversion Hall as [| ? ? Hr Hl]; subst.
  cbn [sumR fold_right length]. fold (sumR l). rewrite S_INR.
  destruct l as [|r' l'].
  - simpl. lra.
  - specialize (IH ltac:(discriminate) Hl). lra.
Qed.

Lemma sumR_constant (l : list R) (c : R) :
  Forall (fun r => r = c) l -> sumR l = INR (length l) * c.
Proof.
  intros Hall. induction l as [|r l IH]; [simpl; ring |].
  inversion Hall as [| ? ? Hr Hl]; subst.
  cbn [sumR fold_right length]. fold (sumR l). rewrite S_INR, IH by assumption. ring.
Qed.

Lemma max_0_Fin r : max (Fin 0) (Fin r) = Fin (Rmax 0 r).
Proof.
  rewrite max_Fin. f_equal. unfold Rmax.
  destruct (Rltb_cases 0 r) as [[-> H] | [-> H]]; destruct (Rle_dec 0 r); lra.
Qed.

End Persistence.

(** ** The notes of the export *)

Section MidiExport.

Import MidiUtils Renderer.

Local Open Scope R_scope.




End MidiExport.

(** ** The file of a single note *)

Section SingleNote.

Import MidiUtils.

Local Open Scope R_scope.

Lemma insertSorted_last {A : Type} (cmp : A -> A -> num) v : forall l,
  Forall (fun u => gt (cmp u v) (Fin 0) = false) l -> insertSorted cmp v l = l ++ [v].
Proof.
  induction l as [|u l IH]; intros H; [reflexivity |].
  inversion H as [| ? ? Hu Hl]; subst. cbn [insertSorted]. rewrite Hu.
  cbn [app]. now rewrite IH.
Qed.

Lemma not_later a b : a <= b -> gt (sub (Fin a) (Fin b)) (Fin 0) = false.
Proof. intros H. rewrite sub_Fin. unfold gt. cbn [lt]. apply Rltb_false. lra. Qed.

Lemma variableLength_zero fuel : variableLength fuel (Fin 0) = Some [Fin 0].
Proof.
  unfold variableLength. unfold gt at 1. cbn [lt]. now rewrite Rltb_false by lra.
Qed.

(** The events of a track of one note, after the sort and the conversion
    of the times. *)
Lemma single_note_events (nm : list nat) (k v : num) (s d : Z) :
  (0 <= s)%Z -> (0 <= d)%Z ->
  let t := mkTrack nm [mkNote k (ofZ s) (ofZ d) v] in
  toDeltaTimes (sortArray (fun a b => sub (get a 0) (get b 0)) (pushedEvents t))
  = [nameEvent t; tempoEvent; [ofZ s; ofZ 0x90; k; v]; [ofZ d; ofZ 0x80; k; ofZ 0]].
Proof.
  intros Hs Hd. cbv zeta.
  set (t := mkTrack nm [mkNote k (ofZ s) (ofZ d) v]).
  assert (Hpushed : pushedEvents t =
            [nameEvent t; tempoEvent; [ofZ s; ofZ 0x90; k; v];
             [Fin (IZR s + IZR d); ofZ 0x80; k; ofZ 0]]) by reflexivity.
  rewrite Hpushed.
  assert (H0 : get (nameEvent t) 0 = Fin 0) by reflexivity.
  assert (H1 : get tempoEvent 0 = Fin 0) by reflexivity.
  assert (IZs : 0 <= IZR s) by (now apply IZR_le).
  assert (IZd : 0 <= IZR d) by (now apply IZR_le).
  assert (Hsort :
    sortArray (fun a b => sub (get a 0) (get b 0))
      [nameEvent t; tempoEvent; [ofZ s; ofZ 0x90; k; v];
       [Fin (IZR s + IZR d); ofZ 0x80; k; ofZ 0]]
    = [nameEvent t; tempoEvent; [ofZ s; ofZ 0x90; k; v];
       [Fin (IZR s + IZR d); ofZ 0x80; k; ofZ 0]]).
  { unfold sortArray. cbn [fold_left].
    rewrite (insertSorted_last _ (nameEvent t) []) by constructor.
    rewrite (insertSorted_last _ tempoEvent [nameEvent t]).
    2:{ repeat constructor. rewrite H0, H1. apply not_later. lra. }
    rewrite (insertSorted_last _ _ [nameEvent t; tempoEvent]).
    2:{ repeat constructor; rewrite ?H0, ?H1;
          change (get [ofZ s; ofZ 144; k; v] 0) with (Fin (IZR s));
          apply not_later; lra. }
    rewrite insertSorted_last; [reflexivity |].
    repeat constructor; rewrite ?H0, ?H1;
      change (get [Fin (IZR s + IZR d); ofZ 128; k; ofZ 0] 0) with (Fin (IZR s + IZR d));
      try change (get [ofZ s; ofZ 144; k; v] 0) with (Fin (IZR s));
      apply not_later; lra. }
  rewrite Hsort.
  set (name' := drop 1 (nameEvent t)).
  assert (Hname : nameEvent t = Fin 0 :: name') by reflexivity.
  pose proof (toDeltaTimes_spec
    [(0, name'); (0, drop 1 tempoEvent); (IZR s, [ofZ 0x90; k; v]);
     (IZR s + IZR d, [ofZ 0x80; k; ofZ 0])]) as Hspec.
  cbn [fmap list_fmap fst snd deltasFrom zip_with] in Hspec.
  rewrite Hname.
  change tempoEvent with (Fin 0 :: drop 1 tempoEvent).
  change (ofZ s) with (Fin (IZR s)). change (ofZ d) with (Fin (IZR d)).
  etransitivity; [exact Hspec |].
  repeat f_equal; ring.
Qed.

Lemma single_note_trackData fuel (nm : list nat) (k v : num) (s d : Z) (vs vd : list num) :
  (0 <= s)%Z -> (0 <= d)%Z ->
  variableLength fuel (ofZ s) = Some vs -> variableLength fuel (ofZ d) = Some vd ->
  let t := mkTrack nm [mkNote k (ofZ s) (ofZ d) v] in
  trackDataOf fuel
    (toDeltaTimes (sortArray (fun a b => sub (get a 0) (get b 0)) (pushedEvents t)))
  = Some ((nameEvent t ++ tempoEvent ++ vs ++ [ofZ 0x90; k; v] ++ vd ++ [ofZ 0x80; k; ofZ 0])
          ++ (ofZ <$> [0x00; 0xFF; 0x2F; 0x00]%Z)).
Proof.
  intros Hs Hd Hvs Hvd. cbv zeta. rewrite single_note_events by assumption.
  unfold trackDataOf. cbn [fold_left mbind option_bind]. unfold writeEvent.
  change (get (nameEvent (mkTrack nm [mkNote k (ofZ s) (ofZ d) v])) 0) with (Fin 0).
  change (get tempoEvent 0) with (Fin 0).
  change (get [ofZ s; ofZ 144; k; v] 0) with (ofZ s).
  change (get [ofZ d; ofZ 128; k; ofZ 0] 0) with (ofZ d).
  rewrite !variableLength_zero, Hvs, Hvd. cbn [mbind option_bind].
  do 2 f_equal.
  cbn [drop app]. rewrite <- !app_assoc. reflexivity.
Qed.

End SingleNote.

(** ** The first stage drops every second value *)

Section FirstStage.

Local Open Scope R_scope.



Variable l : list num.
Hypothesis Hfin : finiteEntries l.
Variables c s : R.



End FirstStage.



(** * Further properties of the transform and of the engine *)

Section TransformProperties.

Local Open Scope R_scope.







(** X4.  For a positive step and at least one taper, [analyzeReassignment]
    returns exactly on the buffers of 0 samples, of [2 ^ m] samples, or of at
    least [WINDOW_SIZE = 2048] samples; on every other buffer (a short one
    whose length is not a power of two, whatever it holds) it loops for
    ever. *)
Theorem analyzeReassignment_returns_iff (phases audioData : list num)
    (sampleRate : num) (step K : nat) (tm : num) :
  (0 < step)%nat -> (0 < K)%nat ->
  ((exists fuel out,
      analyzeReassignment fuel phases audioData sampleRate step K tm = Some out) <->
   (length audioData = 0%nat \/ (exists m, length audioData = (2 ^ m)%nat) \/
    (WINDOW_SIZE <= length audioData)%nat)).
Proof.
  intros Hstep HK. split.
  - intros (fuel & out & H).
    destruct (decide (length audioData = 0%nat)) as [Hz | Hnz]; [now left |].
    destruct (le_lt_dec WINDOW_SIZE (length audioData)) as [Hlong | Hshort];
      [right; now right |].
    destruct (decide (length audioData = 2 ^ Nat.log2 (length audioData))%nat)
      as [Hp | Hnp]; [right; left; eauto |].
    exfalso.
    pose proof (Nat.log2_spec (length audioData) ltac:(lia)) as [Hlo Hhi].
    rewrite (analyzeReassignment_short_hangs fuel phases audioData sampleRate step K tm
               (Nat.log2 (length audioData))) in H by (assumption || lia).
    discriminate.
  - intros Hlen.
    destruct (analyzeReassignment_returns 11 phases audioData sampleRate step K tm
                Hstep ltac:(lia) Hlen) as (out & phases' & H & _).
    eauto.
Qed.

Lemma analyzeReassignment_returns_iff_witness :
  (0 < 512)%nat /\ (0 < 6)%nat /\
  ((exists fuel out,
      analyzeReassignment fuel [] (zeros 4) (Fin 44100) 512 6 (Fin 6) = Some out) <->
   (length (zeros 4) = 0%nat \/ (exists m, length (zeros 4) = (2 ^ m)%nat) \/
    (WINDOW_SIZE <= length (zeros 4))%nat)).
Proof.
  split; [lia |]. split; [lia |].
  apply (analyzeReassignment_returns_iff [] (zeros 4) (Fin 44100) 512 6 (Fin 6)); lia.
Defined.

(** X5.  A step of 0.  On a buffer longer than the window the frame count
    is [Infinity] and the loop over the frames never ends; on a buffer of
    exactly [WINDOW_SIZE] samples the count is [NaN], no frame is analysed
    and the result is all zero. *)
Theorem analyzeReassignment_step_zero (fuel : nat) (phases audioData : list num)
    (sampleRate : num) (K : nat) (tm : num) :
  ((WINDOW_SIZE < length audioData)%nat ->
   analyzeReassignment fuel phases audioData sampleRate 0 K tm = None) /\
  (length audioData = WINDOW_SIZE ->
   analyzeReassignment fuel phases audioData sampleRate 0 K tm
   = Some (replicate (WINDOW_SIZE / 2) 0%Z, phases)).
Proof.
  split; intros Hlen; unfold analyzeReassignment; rewrite nFramesOf_step_zero.
  - rewrite decide_False by lia. rewrite decide_False by lia. reflexivity.
  - rewrite decide_False by lia. rewrite decide_True by assumption. reflexivity.
Qed.

(** X6.  With no taper ([K = 0]) nothing is analysed: for every buffer and
    every positive step the result is 1024 zero bytes, and the phase buffer
    is left as it was. *)
Theorem analyzeReassignment_no_taper (fuel : nat) (phases audioData : list num)
    (sampleRate : num) (step : nat) (tm : num) :
  (0 < step)%nat ->
  analyzeReassignment fuel phases audioData sampleRate step 0 tm
  = Some (replicate (WINDOW_SIZE / 2) 0%Z, phases).
Proof.
  intros Hstep. unfold analyzeReassignment.
  rewrite iterationsBelow_nFramesOf by assumption. cbn [mbind option_bind].
  apply forUpToM_skip. intros frame [result phases'].
  unfold frameStep. unfold forUpToM at 1. cbn [seq fold_left mbind option_bind tfr previousPhase].
  now rewrite writeResult_zeros.
Qed.

Lemma analyzeReassignment_no_taper_witness :
  (0 < 512)%nat /\
  analyzeReassignment 0 [] [Fin 1; Fin 2; Fin 3] (Fin 44100) 512 0 (Fin 6)
  = Some (replicate (WINDOW_SIZE / 2) 0%Z, []).
Proof.
  split; [lia |].
  apply (analyzeReassignment_no_taper 0 [] [Fin 1; Fin 2; Fin 3] (Fin 44100) 512 (Fin 6)).
  lia.
Defined.

End TransformProperties.

Section SpectrumProperties.

Local Open Scope R_scope.






(** X9.  The normalization scales the buffer to a peak of 200: for finite
    samples that are not all zero, every normalized sample lies in
    [[-200, 200]] and one of them is 200 or -200. *)
Theorem normalize_peak (rs : list R) :
  (exists r : R, r ∈ rs /\ r <> 0) ->
  (forall i, (i < length rs)%nat ->
     exists v, get (normalize (Fin <$> rs)) i = Fin v /\ -200 <= v <= 200) /\
  (exists i v, get (normalize (Fin <$> rs)) i = Fin v /\ Rabs v = 200).
Proof.
  intros (r1 & Hr1 & Hnz).
  destruct (maxList_abs_attained rs) as (m & Hm & Hall & r0 & Hr0 & Em).
  { intros ->. inversion Hr1. }
  rewrite Forall_forall in Hall.
  assert (Hpos : 0 < m).
  { specialize (Hall r1 Hr1). simpl in Hall. apply Rabs_pos_lt in Hnz. lra. }
  assert (Hval : forall i r, rs !! i = Some r ->
            get (normalize (Fin <$> rs)) i = Fin (r / m * 200)).
  { intros i r Hr. rewrite (get_normalize rs i r m Hr Hm).
    rewrite div_Fin by lra. reflexivity. }
  split.
  - intros i Hi. destruct (lookup_lt_is_Some_2 rs i Hi) as [r Hr].
    exists (r / m * 200). split; [now apply Hval |].
    assert (Hrm : Rabs r <= m) by (apply Hall; eapply list_elem_of_lookup_2, Hr).
    pose proof (Rle_abs r) as Hr1'. pose proof (Rle_abs (- r)) as Hr2'.
    rewrite Rabs_Ropp in Hr2'.
    assert (Hq : r / m * m = r) by (field; lra).
    set (q := r / m) in *. clearbody q. nra.
  - apply list_elem_of_lookup_1 in Hr0 as [i Hi].
    exists i, (r0 / m * 200). split; [now apply Hval |].
    unfold Rdiv. rewrite !Rabs_mult, Rabs_inv, <- Em.
    rewrite (Rabs_pos_eq m) by lra. rewrite (Rabs_pos_eq 200) by lra.
    field. lra.
Qed.

Lemma normalize_peak_witness :
  (exists r : R, r ∈ [3; -4] /\ r <> 0) /\
  (forall i, (i < length ([3; -4]%R : list R))%nat ->
     exists v, get (normalize (Fin <$> [3; -4])) i = Fin v /\ -200 <= v <= 200) /\
  (exists i v, get (normalize (Fin <$> [3; -4])) i = Fin v /\ Rabs v = 200).
Proof.
  assert (H : exists r : R, r ∈ [3; -4] /\ r <> 0).
  { exists 3. split; [left | lra]. }
  split; [exact H |]. apply (normalize_peak [3; -4]). exact H.
Defined.

(** X10.  The result does not depend on the gain of the input: multiplying
    every (finite) sample by the same positive factor leaves the output of
    [analyzeReassignment] unchanged. *)
Theorem analyzeReassignment_gain_invariant (fuel : nat) (phases : list num)
    (rs : list R) (c : R) (sampleRate : num) (step K : nat) (tm : num) :
  0 < c ->
  analyzeReassignment fuel phases (Fin <$> ((fun r => c * r) <$> rs)) sampleRate step K tm
  = analyzeReassignment fuel phases (Fin <$> rs) sampleRate step K tm.
Proof.
  intros Hc. unfold analyzeReassignment.
  rewrite normalize_scaled by assumption. now rewrite !length_fmap.
Qed.

Lemma analyzeReassignment_gain_invariant_witness :
  0 < 2 /\
  analyzeReassignment 11 [] (Fin <$> ((fun r => 2 * r) <$> [1; -1])) (Fin 44100) 512 6 (Fin 6)
  = analyzeReassignment 11 [] (Fin <$> [1; -1]) (Fin 44100) 512 6 (Fin 6).
Proof.
  split; [lra |].
  apply (analyzeReassignment_gain_invariant 11 [] [1; -1] 2 (Fin 44100) 512 6 (Fin 6)).
  lra.
Defined.

End SpectrumProperties.

Section EngineProperties.

Local Open Scope R_scope.

Lemma byte_of_product e :
  0 <= e ->
  toUint8 (min (Fin 255) (max (Fin 0) (mul (mul (Fin e) (Fin 255)) (Fin 5))))
  = if Rltb (e * 255 * 5) 255 then Zfloor (e * 255 * 5) else 255%Z.
Proof.
  intros He. cbn [mul]. rewrite max_Fin.
  assert (H0 : 0 <= e * 255 * 5) by nra.
  assert (Hmax : (if Rltb 0 (e * 255 * 5) then e * 255 * 5 else 0) = e * 255 * 5).
  { destruct (Rltb_cases 0 (e * 255 * 5)) as [[-> H] | [-> H]]; lra. }
  rewrite Hmax. unfold min. cbn [lt].
  destruct (Rltb_cases (e * 255 * 5) 255) as [[-> H] | [-> H]].
  - unfold toUint8. rewrite Rltb_false by lra.
    apply Z.mod_small. split.
    + apply Zfloor_lub. simpl. lra.
    + pose proof (Zfloor_bound (e * 255 * 5)) as [Hb _].
      destruct (Z_lt_le_dec (Zfloor (e * 255 * 5)) 256) as [Hlt | Hge]; [exact Hlt |].
      apply IZR_le in Hge. lra.
  - change 255 with (IZR 255). apply toUint8_IZR. lia.
Qed.



End EngineProperties.

Section FramesOverwrite.

Local Open Scope R_scope.

(** A frame whose [tfr] has a positive maximum writes every byte of the
    result; another frame writes none. *)
Lemma writeResult_replaces (tfr : list num) (r1 r2 : list Z) :
  gt (maxList tfr) (Fin 0) = true ->
  length r1 = (WINDOW_SIZE / 2)%nat -> length r2 = (WINDOW_SIZE / 2)%nat ->
  writeResult tfr r1 = writeResult tfr r2.
Proof.
  intros Hmax L1 L2. unfold writeResult. rewrite Hmax.
  apply list_eq. intros p.
  destruct (decide (p < WINDOW_SIZE / 2)%nat) as [Hp | Hp].
  - rewrite !forUpTo_insert_lookup by lia. now rewrite !decide_True by assumption.
  - rewrite !lookup_ge_None_2; [reflexivity | |];
      (rewrite length_forUpTo_set; [lia | intros; apply length_insert]).
Qed.

Lemma writeResult_keeps (tfr : list num) (r : list Z) :
  gt (maxList tfr) (Fin 0) = false -> writeResult tfr r = r.
Proof. intros Hmax. unfold writeResult. now rewrite Hmax. Qed.

(** The result after [n] frames is the empty result or what one frame wrote
    over whatever it found. *)
Lemma frame_loop_last_write fuel sampleRate (w : windows) (normalizedData : list num)
    (step K : nat) (phases : list num) : forall n out p,
  forUpToM n (frameStep fuel sampleRate w normalizedData step K)
    (replicate (WINDOW_SIZE / 2) 0%Z, phases) = Some (out, p) ->
  out = replicate (WINDOW_SIZE / 2) 0%Z \/
  exists f rf pf,
    (f < n)%nat /\
    forUpToM f (frameStep fuel sampleRate w normalizedData step K)
      (replicate (WINDOW_SIZE / 2) 0%Z, phases) = Some (rf, pf) /\
    (forall r, length r = (WINDOW_SIZE / 2)%nat ->
       exists p', frameStep fuel sampleRate w normalizedData step K f (r, pf)
                  = Some (out, p')) /\
    (forall g, (f < g <= n)%nat ->
       exists pg, forUpToM g (frameStep fuel sampleRate w normalizedData step K)
                    (replicate (WINDOW_SIZE / 2) 0%Z, phases) = Some (out, pg)).
Proof.
  set (F := frameStep fuel sampleRate w normalizedData step K).
  set (empty := replicate (WINDOW_SIZE / 2) 0%Z).
  induction n as [|n IH]; intros out p H.
  - left. injection H as <- _. reflexivity.
  - pose proof H as Hrun. rewrite forUpToM_S in H.
    assert (Hn : exists rn pn, forUpToM n F (empty, phases) = Some (rn, pn) /\
                               F n (rn, pn) = Some (out, p)).
    { destruct (forUpToM n F (empty, phases)) as [[rn pn] |]; [| discriminate].
      now exists rn, pn. }
    clear H. destruct Hn as (rn & pn & En & H).
    assert (Lrn : length rn = (WINDOW_SIZE / 2)%nat).
    { apply (forUpToM_preserves
               (fun s : list Z * list num => length s.1 = (WINDOW_SIZE / 2)%nat)) in En.
      - exact En.
      - intros i a a' Hstep Ha. apply frameStep_length in Hstep. congruence.
      - apply length_replicate. }
    pose proof H as Hframe. unfold F, frameStep in H.
    destruct (forUpToM K _ _) as [s' |] eqn:Es; [| discriminate].
    cbn [mbind option_bind] in H. injection H as Hout Hp.
    destruct (gt (maxList (tfr s')) (Fin 0)) eqn:Eg.
    + right. exists n, rn, pn. split; [lia |]. split; [exact En |]. split.
      * intros r Lr. exists p. unfold F, frameStep. rewrite Es.
        cbn [mbind option_bind]. rewrite Hp, <- Hout. do 2 f_equal.
        now apply writeResult_replaces.
      * intros g Hg. assert (g = S n) by lia. subst g. now exists p.
    + rewrite writeResult_keeps in Hout by assumption. subst rn.
      destruct (IH out pn En) as [Hempty | (f & rf & pf & Hf & Hpre & Hwrite & Hlater)].
      * now left.
      * right. exists f, rf, pf. split; [lia |]. split; [exact Hpre |].
        split; [exact Hwrite |].
        intros g Hg. destruct (decide (g = S n)) as [-> | Hne].
        -- now exists p.
        -- apply Hlater. lia.
Qed.

End FramesOverwrite.

Section OneSample.

Local Open Scope R_scope.

(** The transform of a single sample is the windowed sample. *)
Lemma computeSTFT_one_sample fuel (x : num) (window : list num) :
  computeSTFT fuel [x] window = Some [mul x (get window 0); Fin 0].
Proof.
  unfold computeSTFT. rewrite !forUpTo_fill_zeros.
  cbn [length seq fmap list_fmap Nat.mul Nat.add].
  unfold forUpTo. cbn [seq fold_left zeros replicate Nat.mul Nat.add set insert list_insert].
  cbn [get lookup list_lookup default from_option]. unfold Datatypes.id.
  unfold performFFT. cbn [length]. change (2 / 2)%nat with (2 ^ 0)%nat.
  rewrite bitReversal_pow2 by lia. rewrite stepsOf_pow2.
  reflexivity.
Qed.

Lemma asIndex_zero : asIndex (Fin 0) = Some 0%nat.
Proof.
  unfold asIndex. change (Fin 0) with (Fin (IZR 0)).
  rewrite isInteger_IZR, (proj2 (Rleb_spec 0 (IZR 0))) by lra.
  cbn [andb]. now rewrite ZfloorZ.
Qed.

(** Bin 0 of a one-sample spectrum with a positive real part: the phase is
    0, the bin is reassigned to itself and [tfr[0]] receives a positive
    value. *)
Lemma binStep_first_bin fuel (sampleRate a b : R) (ph : list num) :
  0 < sampleRate -> 0 < a -> 0 < b ->
  exists v, 0 < v /\
    binStep (S fuel) (Fin sampleRate) [Fin a; Fin 0] [Fin b; Fin 0] 0
      (mkBinState (zeros (WINDOW_SIZE / 2)) (Fin 0) ph)
    = Some (mkBinState (set (zeros (WINDOW_SIZE / 2)) 0 (Fin v)) (Fin a)
                       (set ph 0 (Fin 0))).
Proof.
  intros Hsr Ha Hb.
  assert (Hatan : forall c, 0 < c -> atan2 (Fin 0) (Fin c) = Fin 0).
  { intros c Hc. cbn [atan2]. unfold Ratan2. rewrite Rltb_true by assumption.
    f_equal. replace (0 / c) with 0 by (field; lra). apply atan_0. }
  assert (Hoffset : freqOffsetOf (S fuel) (Fin sampleRate) [Fin a; Fin 0] [Fin b; Fin 0] 0
                    = Some (Fin 0)).
  { unfold freqOffsetOf.
    cbn [get lookup list_lookup default from_option Nat.mul Nat.add]. unfold Datatypes.id.
    rewrite !Hatan by assumption.
    assert (Hraw : div (sub (Fin 0) (Fin 0)) (mul (Fin 2) pi) = Fin 0).
    { unfold pi. rewrite sub_Fin, mul_Fin, div_Fin by (pose proof PI_RGT_0; lra).
      f_equal. field. pose proof PI_RGT_0. lra. }
    rewrite Hraw. rewrite wrapOffset_identity by (right; exists 0; split; [reflexivity | lra]).
    cbn [mbind option_bind]. f_equal.
    unfold ofNat. rewrite mul_Fin, div_Fin by (apply not_0_INR; unfold WINDOW_SIZE; lia).
    replace (0 * sampleRate / INR WINDOW_SIZE) with 0
      by (field; apply not_0_INR; unfold WINDOW_SIZE; lia).
    unfold min, max. cbn [neg lt].
    rewrite (Rltb_true 0 50) by lra. cbn [lt].
    rewrite (Rltb_true (- (50)) 0) by lra. reflexivity. }
  assert (Hbin : reassignedBinOf (Fin sampleRate) 0 (Fin 0) = Fin 0).
  { unfold reassignedBinOf, binFreqOf, ofNat.
    rewrite mul_Fin, div_Fin by (apply not_0_INR; unfold WINDOW_SIZE; lia).
    rewrite add_Fin, mul_Fin, div_Fin by lra.
    replace ((INR 0 * sampleRate / INR WINDOW_SIZE + 0) * INR WINDOW_SIZE / sampleRate)
      with (IZR 0)
      by (change (INR 0) with 0; field;
          repeat split; try lra; apply not_0_INR; unfold WINDOW_SIZE; lia).
    apply round_IZR. }
  unfold binStep.
  cbn [get lookup list_lookup default from_option Nat.mul Nat.add]. unfold Datatypes.id.
  cbn [maxMagnitude tfr previousPhase].
  rewrite !mul_Fin, add_Fin.
  rewrite sqrt_Fin by nra.
  replace (R_sqrt.sqrt (a * a + 0 * 0)) with a
    by (replace (a * a + 0 * 0) with (a * a) by ring; symmetry; apply sqrt_square; lra).
  unfold gt at 1. cbn [lt]. rewrite Rltb_true by lra.
  rewrite Hoffset. cbn [mbind option_bind]. rewrite Hbin.
  unfold ge. cbn [le]. rewrite (proj2 (Rleb_spec 0 0)) by lra.
  unfold ofNat at 1. cbn [lt]. rewrite Rltb_true by (apply lt_0_INR; unfold WINDOW_SIZE; simpl; lia).
  cbn [andb].
  rewrite max_Fin, Rltb_true by lra.
  rewrite Hatan by assumption.
  unfold binFreqOf, ofNat.
  rewrite !sub_Fin. cbn [abs]. rewrite !neg_Fin, !mul_Fin.
  rewrite (div_Fin _ (2 * (1 / 2) * (1 / 2))) by lra.
  rewrite (div_Fin _ (INR WINDOW_SIZE)) by (apply not_0_INR; unfold WINDOW_SIZE; lia).
  rewrite sub_Fin, pow_Fin_2, neg_Fin, (div_Fin _ (2 * 100 * 100)) by lra.
  rewrite (div_Fin a a) by lra. rewrite pow_Fin_2, !exp_Fin, !mul_Fin.
  unfold accumulate. rewrite asIndex_zero.
  rewrite get_zeros by (rewrite half_window; lia). rewrite add_Fin.
  eexists. split; [| reflexivity].
  repeat apply Rmult_lt_0_compat || apply Rplus_le_lt_0_compat;
    try lra; try apply exp_pos; now apply Rinv_0_lt_compat.
Qed.

(** A loop whose body does nothing after its first turn. *)
Lemma forUpToM_first {S : Type} n (body : nat -> S -> option S) s :
  (forall i a, (1 <= i)%nat -> body i a = Some a) ->
  forUpToM (Datatypes.S n) body s = body 0%nat s.
Proof.
  intros H. induction n as [|n IH]; [reflexivity |].
  rewrite forUpToM_S, IH. destruct (body 0%nat s) as [a |]; [| reflexivity].
  apply H. lia.
Qed.

Lemma maxList_peak (v : R) (n : nat) :
  0 < v -> maxList (Fin v :: zeros n) = Fin v.
Proof.
  intros Hv. unfold maxList. cbn [fold_left].
  change (max NInf (Fin v)) with (Fin v).
  induction n as [|n IH]; [reflexivity |].
  unfold zeros in *. cbn [replicate fold_left].
  rewrite max_Fin, Rltb_false by lra. exact IH.
Qed.

(** The bytes of a frame whose [tfr] is positive at bin 0 only. *)
Lemma writeResult_peak (v : R) (result : list Z) :
  0 < v -> length result = (WINDOW_SIZE / 2)%nat ->
  writeResult (set (zeros (WINDOW_SIZE / 2)) 0 (Fin v)) result
  = 255%Z :: replicate 1023 0%Z.
Proof.
  intros Hv Hlen.
  assert (Htfr : set (zeros (WINDOW_SIZE / 2)) 0 (Fin v) = Fin v :: zeros 1023)
    by reflexivity.
  rewrite Htfr. clear Htfr.
  pose proof (maxList_peak v 1023 Hv) as Hmax.
  apply list_eq. intros i.
  destruct (decide (i < 1024)%nat) as [Hi | Hi].
  - rewrite (writeResult_lookup _ _ i v Hmax Hv)
      by (rewrite ?Hlen, ?half_window; lia).
    destruct i as [|i].
    + cbn [get lookup list_lookup default from_option]. unfold Datatypes.id.
      rewrite div_Fin by lra. replace (v / v) with 1 by (field; lra).
      rewrite pow_tenth_pos by lra.
      assert (H1 : Rpower 1 (1 / 10) = 1).
      { unfold Rpower. rewrite ln_1, Rmult_0_r. apply exp_0. }
      rewrite H1, byte_of_product by lra.
      rewrite Rltb_false by lra. reflexivity.
    + change (get (Fin v :: zeros 1023) (S i)) with (get (zeros 1023) i).
      rewrite get_zeros by lia.
      rewrite div_Fin by lra. replace (0 / v) with 0 by (field; lra).
      rewrite pow_tenth_zero, byte_of_product by lra.
      rewrite Rltb_true by lra.
      replace (0 * 255 * 5) with (IZR 0) by (simpl; ring). rewrite ZfloorZ.
      change ((255%Z :: replicate 1023 0%Z) !! S i) with (replicate 1023 0%Z !! i).
      rewrite lookup_replicate_2 by lia. reflexivity.
  - rewrite !lookup_ge_None_2; [reflexivity | |].
    + cbn [length]. rewrite length_replicate. lia.
    + rewrite length_writeResult, Hlen, half_window. lia.
Qed.

Lemma get_slice_first (a : list num) (n : nat) :
  (0 < n)%nat -> get (slice a 0 n) 0 = get a 0.
Proof.
  intros Hn. unfold slice, get. rewrite drop_0, lookup_take_lt by lia. reflexivity.
Qed.

Lemma norm_pos (k : nat) : 0 < Spec.norm k.
Proof. unfold Spec.norm. apply sqrt_lt_R0, norm_arg_pos. Qed.

(** The first entries of the first taper and of its derivative window are
    positive. *)
Lemma first_window_entries (tm : R) :
  0 < tm ->
  let w := createHermiteFunctions WINDOW_SIZE 1 (Fin tm) in
  exists hw dw, 0 < hw /\ 0 < dw /\
    get (slice (h w) (0 * WINDOW_SIZE) ((0 + 1) * WINDOW_SIZE)) 0 = Fin hw /\
    get (slice (Dh w) (0 * WINDOW_SIZE) ((0 + 1) * WINDOW_SIZE)) 0 = Fin dw.
Proof.
  intros Htm w.
  destruct (window_entries_finite WINDOW_SIZE 1 0 0 tm) as (Hh & HDh & _);
    [unfold WINDOW_SIZE; lia | lia | unfold WINDOW_SIZE; lia |].
  fold w in Hh, HDh.
  change (0 * WINDOW_SIZE + 0)%nat with 0%nat in Hh, HDh.
  change (0 * WINDOW_SIZE)%nat with 0%nat.
  rewrite !get_slice_first by (unfold WINDOW_SIZE; lia).
  rewrite Hh, HDh. eexists _, _. split; [| split; [| split; reflexivity]].
  - unfold Spec.hWindow, Spec.gauss. cbn [Spec.hermite].
    apply Rmult_lt_0_compat; [| apply Rinv_0_lt_compat, norm_pos].
    rewrite Rmult_1_l. apply exp_pos.
  - unfold Spec.DhWindow, Spec.gauss, Spec.time. cbn [Spec.hermite].
    change (INR 0) with 0.
    apply Rmult_lt_0_compat; [| apply Rinv_0_lt_compat, norm_pos].
    apply Rmult_lt_0_compat; [lra | apply exp_pos].
Qed.

(** A frame of one positive sample under the first taper writes the byte
    255 at bin 0 and 0 elsewhere, over whatever the result held. *)
Lemma one_sample_frame fuel (sampleRate tm x : R) (step : nat)
    (result : list Z) (ph : list num) :
  0 < sampleRate -> 0 < tm -> 0 < x -> length result = (WINDOW_SIZE / 2)%nat ->
  frameStep (S fuel) (Fin sampleRate) (createHermiteFunctions WINDOW_SIZE 1 (Fin tm))
    [Fin x] step 1 0 (result, ph)
  = Some (255%Z :: replicate 1023 0%Z, set ph 0 (Fin 0)).
Proof.
  intros Hsr Htm Hx Hlen. unfold frameStep.
  rewrite frameData_whole by (cbn [length]; unfold WINDOW_SIZE; lia).
  rewrite forUpToM_S. change (forUpToM 0 ?F ?s) with (Some s).
  cbn [mbind option_bind]. unfold taperStep.
  rewrite !computeSTFT_one_sample. cbn [mbind option_bind].
  destruct (first_window_entries tm Htm) as (hw & dw & Hhw & Hdw & -> & ->).
  rewrite !mul_Fin.
  change (WINDOW_SIZE / 2)%nat with (S 1023) at 1.
  rewrite forUpToM_first
    by (intros i a Hi; apply binStep_beyond; cbn [length]; lia).
  destruct (binStep_first_bin fuel sampleRate (x * hw) (x * dw) ph)
    as (v & Hv & ->); [lra | nra | nra |].
  cbn [mbind option_bind tfr previousPhase].
  now rewrite writeResult_peak.
Qed.

(** The analysis of the single sample [1]: one frame, which writes. *)
Lemma one_sample_output fuel (ph : list num) :
  analyzeReassignment (S fuel) ph [Fin 1] (Fin 44100) 512 1 (Fin 6)
  = Some (255%Z :: replicate 1023 0%Z, set ph 0 (Fin 0)).
Proof.
  unfold analyzeReassignment.
  rewrite iterationsBelow_nFramesOf by lia.
  rewrite short_buffer_quotient by (cbn [length]; unfold WINDOW_SIZE; lia).
  cbn [mbind option_bind]. change (Z.to_nat 1) with 1%nat.
  rewrite forUpToM_S. change (forUpToM 0 ?F ?s) with (Some s).
  cbn [mbind option_bind].
  assert (Hnorm : normalize [Fin 1] = [Fin (1 / 1 * 200)]).
  { unfold normalize. rewrite forUpTo_fill_zeros.
    cbn [length seq fmap list_fmap].
    cbn [get lookup list_lookup default from_option]. unfold Datatypes.id.
    unfold maxList. cbn [fold_left abs]. rewrite Rabs_R1.
    change (max NInf (Fin 1)) with (Fin 1).
    rewrite div_Fin by lra. now rewrite mul_Fin. }
  rewrite Hnorm.
  apply one_sample_frame; [lra | lra | lra | apply length_replicate].
Qed.

End OneSample.

Section FramesDoNotAccumulate.

(** X12.  Frames do not accumulate in the output.  When
    [analyzeReassignment] returns, its result is either all zero (no frame
    wrote) or exactly what one of its frames [f] writes: run on the phase
    buffer it found, frame [f] ends in these same 1024 bytes whatever the
    result held before it, and the result is still the same after every
    later frame.  What the earlier frames wrote is overwritten, not added
    to. *)
Theorem frames_do_not_accumulate (fuel : nat) (phases audioData : list num)
    (sampleRate : num) (step K : nat) (tm : num) (out : list Z) (p : list num) :
  analyzeReassignment fuel phases audioData sampleRate step K tm = Some (out, p) ->
  let F := frameStep fuel sampleRate (createHermiteFunctions WINDOW_SIZE K tm)
             (normalize audioData) step K in
  let empty := replicate (WINDOW_SIZE / 2) 0%Z in
  out = empty \/
  exists n f rf pf,
    iterationsBelow (nFramesOf (length audioData) step) = Some n /\ (f < n)%nat /\
    forUpToM f F (empty, phases) = Some (rf, pf) /\
    (forall r, length r = (WINDOW_SIZE / 2)%nat ->
       exists p', F f (r, pf) = Some (out, p')) /\
    (forall g, (f < g <= n)%nat ->
       exists pg, forUpToM g F (empty, phases) = Some (out, pg)).
Proof.
  intros H F empty. unfold analyzeReassignment in H.
  destruct (iterationsBelow (nFramesOf (length audioData) step)) as [n |] eqn:En;
    [| discriminate].
  cbn [mbind option_bind] in H.
  destruct (frame_loop_last_write _ _ _ _ _ _ _ n out p H)
    as [Hempty | (f & rf & pf & Hf & Hpre & Hwrite & Hlater)].
  - now left.
  - right. exists n, f, rf, pf. repeat split; assumption.
Qed.

Lemma frames_do_not_accumulate_witness :
  analyzeReassignment 1 (zeros WINDOW_SIZE) [Fin 1] (Fin 44100) 512 1 (Fin 6)
    = Some (255%Z :: replicate 1023 0%Z, set (zeros WINDOW_SIZE) 0 (Fin 0)) /\
  255%Z :: replicate 1023 0%Z <> replicate (WINDOW_SIZE / 2) 0%Z /\
  (let F := frameStep 1 (Fin 44100) (createHermiteFunctions WINDOW_SIZE 1 (Fin 6))
              (normalize [Fin 1]) 512 1 in
   let empty := replicate (WINDOW_SIZE / 2) 0%Z in
   255%Z :: replicate 1023 0%Z = empty \/
   exists n f rf pf,
     iterationsBelow (nFramesOf (length [Fin 1]) 512) = Some n /\ (f < n)%nat /\
     forUpToM f F (empty, zeros WINDOW_SIZE) = Some (rf, pf) /\
     (forall r, length r = (WINDOW_SIZE / 2)%nat ->
        exists p', F f (r, pf) = Some (255%Z :: replicate 1023 0%Z, p')) /\
     (forall g, (f < g <= n)%nat ->
        exists pg, forUpToM g F (empty, zeros WINDOW_SIZE)
                   = Some (255%Z :: replicate 1023 0%Z, pg))).
Proof.
  split; [apply one_sample_output |]. split; [discriminate |].
  apply (frames_do_not_accumulate 1 (zeros WINDOW_SIZE) [Fin 1] (Fin 44100) 512 1 (Fin 6)
           (255%Z :: replicate 1023 0%Z) (set (zeros WINDOW_SIZE) 0 (Fin 0))).
  apply one_sample_output.
Defined.

End FramesDoNotAccumulate.

Section LoopAndWindowProperties.

Local Open Scope R_scope.

(** X13.  The two [while] loops that wrap [instFreqOffset] never run: the
    offset is a difference of two [atan2] phases divided by [2 π], hence NaN
    or a number of [[-1, 1]], which is already inside [[-π, π]]. *)
Theorem wrap_loops_never_run (fuel : nat) (stft freqMod : list num) (bin : nat) :
  let phase := atan2 (get stft (bin * 2 + 1)) (get stft (bin * 2)) in
  let freqPhase := atan2 (get freqMod (bin * 2 + 1)) (get freqMod (bin * 2)) in
  let instFreqOffset := div (sub freqPhase phase) (mul (Fin 2) pi) in
  wrapOffset (S fuel) instFreqOffset = Some instFreqOffset /\
  (instFreqOffset = NaN \/ exists r, instFreqOffset = Fin r /\ -1 <= r <= 1).
Proof.
  cbv zeta.
  pose proof (raw_offset_range _ _
                (atan2_range (get stft (bin * 2 + 1)) (get stft (bin * 2)))
                (atan2_range (get freqMod (bin * 2 + 1)) (get freqMod (bin * 2)))) as H.
  cbv zeta in H. split; [now apply wrapOffset_identity | exact H].
Qed.

Lemma neg_neg (x : num) : neg (neg x) = x.
Proof. destruct x; cbn [neg]; try reflexivity. f_equal. lra. Qed.

Lemma neg_scaleInf (positive : bool) (a : R) :
  neg (scaleInf positive a) = scaleInf (negb positive) a.
Proof.
  unfold scaleInf.
  destruct (Rltb 0 a); [now destruct positive |].
  destruct (Rltb a 0); [now destruct positive | reflexivity].
Qed.

Lemma scaleInf_opp (positive : bool) (a : R) :
  scaleInf positive (- a) = scaleInf (negb positive) a.
Proof.
  unfold scaleInf.
  destruct (Rlt_dec 0 a) as [H | H]; [| destruct (Rlt_dec a 0) as [H' | H']].
  - rewrite (Rltb_true 0 a), (Rltb_false 0 (- a)), (Rltb_true (- a) 0) by lra.
    now destruct positive.
  - rewrite (Rltb_false 0 a), (Rltb_true a 0), (Rltb_true 0 (- a)) by lra.
    now destruct positive.
  - rewrite (Rltb_false 0 a), (Rltb_false a 0), (Rltb_false 0 (- a)),
      (Rltb_false (- a) 0) by lra.
    reflexivity.
Qed.

Lemma mul_neg_r (x y : num) : mul x (neg y) = neg (mul x y).
Proof.
  destruct x as [|a| |], y as [|b| |]; cbn [mul neg]; try reflexivity;
    rewrite ?neg_scaleInf, ?scaleInf_opp; try reflexivity.
  f_equal. ring.
Qed.

Lemma mul_neg_l (x y : num) : mul (neg x) y = neg (mul x y).
Proof.
  destruct x as [|a| |], y as [|b| |]; cbn [mul neg]; try reflexivity;
    rewrite ?neg_scaleInf, ?scaleInf_opp; try reflexivity.
  f_equal. ring.
Qed.

Lemma neg_add (x y : num) : neg (add x y) = add (neg x) (neg y).
Proof.
  destruct x as [|a| |], y as [|b| |]; cbn [add neg]; try reflexivity.
  f_equal. ring.
Qed.

Lemma neg_sub (x y : num) : neg (sub x y) = sub (neg x) (neg y).
Proof. unfold sub. apply neg_add. Qed.

(** The value at [neg x], according to the parity of the degree. *)
Lemma evaluateHermitePolynomial_neg_pair (n : nat) (x : num) :
  (evaluateHermitePolynomial n (neg x)
   = if Nat.even n then evaluateHermitePolynomial n x
     else neg (evaluateHermitePolynomial n x)) /\
  (evaluateHermitePolynomial (S n) (neg x)
   = if Nat.even (S n) then evaluateHermitePolynomial (S n) x
     else neg (evaluateHermitePolynomial (S n) x)).
Proof.
  induction n as [|n [IH0 IH1]].
  - split; [reflexivity |]. cbn [evaluateHermitePolynomial Nat.even].
    apply mul_neg_r.
  - split; [exact IH1 |].
    change (evaluateHermitePolynomial (S (S n)) (neg x))
      with (sub (mul (mul (Fin 2) (neg x)) (evaluateHermitePolynomial (S n) (neg x)))
                (mul (mul (Fin 2) (ofNat (S (S n) - 1)))
                     (evaluateHermitePolynomial n (neg x)))).
    change (evaluateHermitePolynomial (S (S n)) x)
      with (sub (mul (mul (Fin 2) x) (evaluateHermitePolynomial (S n) x))
                (mul (mul (Fin 2) (ofNat (S (S n) - 1)))
                     (evaluateHermitePolynomial n x))).
    rewrite IH0, IH1.
    change (Nat.even (S (S n))) with (Nat.even n).
    rewrite Nat.even_succ, <- Nat.negb_even.
    destruct (Nat.even n); cbn [negb].
    + rewrite !mul_neg_r, !mul_neg_l, neg_neg. reflexivity.
    + rewrite neg_sub, !mul_neg_r, !mul_neg_l. reflexivity.
Qed.

(** X14.  [evaluateHermitePolynomial (n, x)] has the parity of [n]: for
    every number [x], NaN and the infinities included, its value at [-x] is
    its value at [x] when [n] is even and the negation of that value when
    [n] is odd.  Nothing is said of the size of the value: the statement is
    the same whether or not it is finite. *)
Theorem evaluateHermitePolynomial_parity (n : nat) (x : num) :
  evaluateHermitePolynomial n (neg x)
  = if Nat.even n then evaluateHermitePolynomial n x
    else neg (evaluateHermitePolynomial n x).
Proof.
  destruct n as [|n]; [reflexivity |].
  destruct (evaluateHermitePolynomial_neg_pair n x) as [_ H]. exact H.
Qed.



End LoopAndWindowProperties.

(** * Properties of the MIDI utilities and of the renderer's pure functions *)

Section MidiNoteProperties.

Import MidiUtils.

Local Open Scope R_scope.

Lemma Rpower_2_nat (k : nat) : Rpower 2 (INR k) = 2 ^ k.
Proof. apply Rpower_pow. lra. Qed.

(** [2 ^ (3/4) <= 440 / 256] and [440 * 2 ^ (1/6) < 512] *)
Lemma Rpower_2_three_quarters : Rpower 2 (3 / 4) <= 440 / 256.
Proof.
  set (c := Rpower 2 (3 / 4)).
  assert (Hc : 0 < c) by apply Rpower_pos.
  assert (H4 : c ^ 4 = 8).
  { rewrite <- (Rpower_pow 4 c Hc). unfold c. rewrite Rpower_mult.
    replace (3 / 4 * INR 4) with (INR 3) by (simpl; lra).
    rewrite Rpower_2_nat. simpl. lra. }
  simpl in H4.
  destruct (Rle_dec c (440 / 256)) as [H | H]; [exact H |].
  assert (H1 : 440 / 256 < c) by lra.
  assert (H2 : 440 / 256 * (440 / 256) < c * c) by nra.
  assert (H3 : 440 / 256 * (440 / 256) * (440 / 256 * (440 / 256)) < c * c * (c * c)) by nra.
  lra.
Qed.

Lemma Rpower_2_sixth : 440 * Rpower 2 (1 / 6) < 512.
Proof.
  set (d := Rpower 2 (1 / 6)).
  assert (Hd : 0 < d) by apply Rpower_pos.
  assert (H6 : d ^ 6 = 2).
  { rewrite <- (Rpower_pow 6 d Hd). unfold d. rewrite Rpower_mult.
    replace (1 / 6 * INR 6) with 1 by (simpl; lra).
    apply Rpower_1. lra. }
  simpl in H6.
  destruct (Rlt_dec d (116 / 100)) as [H | H]; [lra |].
  assert (H1 : 116 / 100 <= d) by lra.
  assert (H2 : 116 / 100 * (116 / 100) <= d * d) by nra.
  assert (H3 : 116 / 100 * (116 / 100) * (116 / 100) <= d * d * d) by nra.
  assert (H4 : 116 / 100 * (116 / 100) * (116 / 100) * (116 / 100 * (116 / 100) * (116 / 100))
               <= d * d * d * (d * d * d)) by nra.
  lra.
Qed.

(** The frequencies of the notes [-12300 .. 12251] lie between [2 ^ -1022]
    and [2 ^ 1024]. *)
Lemma note_frequency_normal (n : Z) :
  (-12300 <= n <= 12251)%Z ->
  Rpower 2 (- 1022) <= 440 * Rpower 2 ((IZR n - 69) / 12) < Rpower 2 1024.
Proof.
  intros [Hlo Hhi]. apply IZR_le in Hlo, Hhi.
  set (y := (IZR n - 69) / 12).
  assert (Hy : - 1022 - 8 - 3 / 4 <= y <= 1015 + 1 / 6) by (unfold y; lra).
  split.
  - pose proof (Rle_Rpower 2 (- 1022 - 8 - 3 / 4) y ltac:(lra) ltac:(lra)) as Hm.
    set (A := Rpower 2 (- 1022 - 8 - 3 / 4)) in *.
    assert (HA : 0 < A) by apply Rpower_pos.
    replace (- 1022) with ((- 1022 - 8 - 3 / 4) + (INR 8 + 3 / 4)) by (simpl; lra).
    rewrite !Rpower_plus, Rpower_2_nat. fold A.
    pose proof Rpower_2_three_quarters as Hc.
    pose proof (Rpower_pos 2 (3 / 4)) as Hc0.
    set (c := Rpower 2 (3 / 4)) in *.
    assert (2 ^ 8 * c <= 440) by (simpl; lra).
    nra.
  - pose proof (Rle_Rpower 2 y (1015 + 1 / 6) ltac:(lra) ltac:(lra)) as Hm.
    rewrite Rpower_plus in Hm.
    replace 1024 with (INR 9 + 1015) by (simpl; lra).
    rewrite Rpower_plus, Rpower_2_nat.
    pose proof (Rpower_pos 2 1015) as HB.
    set (B := Rpower 2 1015) in *.
    pose proof Rpower_2_sixth as Hd.
    pose proof (Rpower_pos 2 (1 / 6)) as Hd0.
    set (d := Rpower 2 (1 / 6)) in *.
    assert (2 ^ 9 = 512) by (simpl; lra).
    nra.
Qed.

(** X16.  A note number survives the round trip through its frequency.  For
    every integer [n] of [-12300 .. 12251] (the MIDI notes 0..127 among them)
    [MIDIToFrequency (n)] is a frequency [f] between [2 ^ -1022] and
    [2 ^ 1024], the range in which a binary64 number is normal, and
    [frequencyToMIDI (f) = n].  Outside this range the power overflows or
    underflows in the code, which the number model does not follow. *)
Theorem frequencyToMIDI_MIDIToFrequency (n : Z) :
  (-12300 <= n <= 12251)%Z ->
  exists f : R,
    MIDIToFrequency (ofZ n) = Fin f /\
    Rpower 2 (- 1022) <= f < Rpower 2 1024 /\
    frequencyToMIDI (Fin f) = ofZ n.
Proof.
  intros Hn. exists (440 * Rpower 2 ((IZR n - 69) / 12)).
  split; [apply MIDIToFrequency_Fin |]. split; [now apply note_frequency_normal |].
  rewrite frequencyToMIDI_Fin
    by (apply Rmult_lt_0_compat; [lra | apply Rpower_pos]).
  rewrite note_of_frequency. unfold ofZ. do 2 f_equal. apply Zfloor_eq. lra.
Qed.

Lemma frequencyToMIDI_MIDIToFrequency_witness :
  (-12300 <= 69 <= 12251)%Z /\
  exists f : R,
    MIDIToFrequency (ofZ 69) = Fin f /\
    Rpower 2 (- 1022) <= f < Rpower 2 1024 /\
    frequencyToMIDI (Fin f) = ofZ 69.
Proof.
  split; [lia |]. apply (frequencyToMIDI_MIDIToFrequency 69). lia.
Defined.






End MidiNoteProperties.

Section MidiFileProperties.

Import MidiUtils.

Local Open Scope Z_scope.

(** X20.  The delta times are written as variable-length quantities.  For
    every number the loop ends (six tests of its condition suffice, the
    value being a 32-bit integer after the first shift) and between one and
    five bytes are written; for an integer [0 <= z < 2 ^ 31] a reader of
    variable-length quantities reads [z] back from them and stops where
    they end. *)
Theorem variableLength_round_trip (fuel : nat) (deltaTime : num) :
  (6 <= fuel)%nat ->
  exists bytes,
    variableLength fuel deltaTime = Some bytes /\
    (1 <= length bytes <= 5)%nat /\
    forall z, 0 <= z < 2 ^ 31 -> deltaTime = ofZ z ->
      forall rest, readVariableLength 0 ((toUint8 <$> bytes) ++ rest) = Some (z, rest).
Proof.
  intros Hfuel.
  destruct (variableLength_returns fuel deltaTime Hfuel) as (bytes & Hbytes & Hlen).
  exists bytes. split; [exact Hbytes |]. split; [exact Hlen |].
  intros z Hz -> rest.
  destruct (variableLength_integer fuel z Hfuel Hz) as (bytes' & Hbytes' & _ & Hread).
  rewrite Hbytes in Hbytes'. injection Hbytes' as <-. apply Hread.
Qed.

Lemma variableLength_round_trip_witness :
  (6 <= 6)%nat /\
  exists bytes,
    variableLength 6 (ofZ 200) = Some bytes /\
    (1 <= length bytes <= 5)%nat /\
    forall z, 0 <= z < 2 ^ 31 -> ofZ 200 = ofZ z ->
      forall rest, readVariableLength 0 ((toUint8 <$> bytes) ++ rest) = Some (z, rest).
Proof.
  split; [lia |]. apply (variableLength_round_trip 6 (ofZ 200)). lia.
Defined.

(** X21.  The layout of the file.  For MIDI data with a first track (and
    fuel for six tests of the [while] loop) the bytes are: the header chunk
    [MThd] of length 6, format 1, one track, then the ticks per beat in two
    bytes; the chunk [MTrk] with a four-byte length; the track data, which
    ends with the end-of-track event [00 FF 2F 00].  Every element is a
    byte.  The length field counts the bytes that follow it when they are
    fewer than [2 ^ 31], and the two bytes of the division hold
    [ticksPerBeat], most significant first, when it is an integer of
    [[0, 65535]]. *)
Theorem saveMidiFile_layout (fuel : nat) (d : midiData) (t : track) (others : list track) :
  (6 <= fuel)%nat -> tracks d = t :: others ->
  exists (hi lo b3 b2 b1 b0 : Z) (data : list Z),
    saveMidiFile fuel d =
      Some ([0x4D; 0x54; 0x68; 0x64; 0; 0; 0; 6; 0; 1; 0; 1; hi; lo]
            ++ [0x4D; 0x54; 0x72; 0x6B; b3; b2; b1; b0]
            ++ data ++ [0x00; 0xFF; 0x2F; 0x00]) /\
    Forall (fun b => 0 <= b < 256) ([hi; lo; b3; b2; b1; b0] ++ data) /\
    (Z.of_nat (length data) + 4 < 2 ^ 31 ->
     b3 * 2 ^ 24 + b2 * 2 ^ 16 + b1 * 2 ^ 8 + b0 = Z.of_nat (length data) + 4) /\
    (forall z, 0 <= z < 65536 -> ticksPerBeat d = ofZ z -> hi * 256 + lo = z).
Proof.
  intros Hfuel Htracks.
  destruct (trackDataOf_returns fuel
              (toDeltaTimes (sortArray (fun a b => sub (get a 0) (get b 0)) (pushedEvents t)))
              Hfuel) as [data Hdata].
  pose proof (fileData_chunks fuel d t others data Htracks Hdata) as Hfile.
  cbv zeta in Hfile.
  destruct (fileData_fields (ticksPerBeat d) (length data + 4)) as (Hbytes & Hlen & Hticks).
  do 6 eexists. exists (toUint8 <$> data).
  split; [exact Hfile |]. split; [| split].
  - apply Forall_app. split; [exact Hbytes |].
    apply Forall_fmap, Forall_true. intros b. apply toUint8_range.
  - rewrite length_fmap. intros Hsmall. rewrite Hlen by lia. lia.
  - exact Hticks.
Qed.

Lemma saveMidiFile_layout_witness :
  (6 <= 6)%nat /\
  tracks (mkMidiData (Fin 480) [mkTrack [] []]) = mkTrack [] [] :: [] /\
  exists (hi lo b3 b2 b1 b0 : Z) (data : list Z),
    saveMidiFile 6 (mkMidiData (Fin 480) [mkTrack [] []]) =
      Some ([0x4D; 0x54; 0x68; 0x64; 0; 0; 0; 6; 0; 1; 0; 1; hi; lo]
            ++ [0x4D; 0x54; 0x72; 0x6B; b3; b2; b1; b0]
            ++ data ++ [0x00; 0xFF; 0x2F; 0x00]) /\
    Forall (fun b => 0 <= b < 256) ([hi; lo; b3; b2; b1; b0] ++ data) /\
    (Z.of_nat (length data) + 4 < 2 ^ 31 ->
     b3 * 2 ^ 24 + b2 * 2 ^ 16 + b1 * 2 ^ 8 + b0 = Z.of_nat (length data) + 4) /\
    (forall z, 0 <= z < 65536 ->
       ticksPerBeat (mkMidiData (Fin 480) [mkTrack [] []]) = ofZ z -> hi * 256 + lo = z).
Proof.
  split; [lia |]. split; [reflexivity |].
  apply (saveMidiFile_layout 6 (mkMidiData (Fin 480) [mkTrack [] []]) (mkTrack [] []) []);
    [lia | reflexivity].
Defined.

(** X22.  The file of a single note is right.  For a track holding one
    note that starts at the integer tick [s] and lasts [d] ticks
    ([0 <= s, d < 2 ^ 31]), the track data is: the name event and the tempo
    event at delta 0, the note on ([90 note velocity]) after the
    variable-length quantity of [s], the note off ([80 note 00]) after that
    of [d], and the end of track. *)
Theorem single_note_file (fuel : nat) (tpb : num) (nm : list nat) (k v : num) (s d : Z) :
  (6 <= fuel)%nat -> 0 <= s < 2 ^ 31 -> 0 <= d < 2 ^ 31 ->
  exists (hi lo b3 b2 b1 b0 : Z) (vs vd : list Z),
    saveMidiFile fuel (mkMidiData tpb [mkTrack nm [mkNote k (ofZ s) (ofZ d) v]]) =
      Some ([0x4D; 0x54; 0x68; 0x64; 0; 0; 0; 6; 0; 1; 0; 1; hi; lo]
            ++ [0x4D; 0x54; 0x72; 0x6B; b3; b2; b1; b0]
            ++ ([0x00; 0xFF; 0x03; toUint8 (ofNat (length nm))]
                ++ ((fun c => toUint8 (ofNat c)) <$> nm)
                ++ [0x00; 0xFF; 0x51; 0x03; 0x07; 0xA1; 0x20]
                ++ vs ++ [0x90; toUint8 k; toUint8 v]
                ++ vd ++ [0x80; toUint8 k; 0])
            ++ [0x00; 0xFF; 0x2F; 0x00]) /\
    (forall rest, readVariableLength 0 (vs ++ rest) = Some (s, rest)) /\
    (forall rest, readVariableLength 0 (vd ++ rest) = Some (d, rest)).
Proof.
  intros Hfuel Hs Hd.
  destruct (variableLength_integer fuel s Hfuel Hs) as (vs & Hvs & _ & Hrs).
  destruct (variableLength_integer fuel d Hfuel Hd) as (vd & Hvd & _ & Hrd).
  set (t := mkTrack nm [mkNote k (ofZ s) (ofZ d) v]).
  pose proof (single_note_trackData fuel nm k v s d vs vd ltac:(lia) ltac:(lia) Hvs Hvd)
    as Hdata. cbv zeta in Hdata. fold t in Hdata.
  pose proof (fileData_chunks fuel (mkMidiData tpb [t]) t [] _ eq_refl Hdata) as Hfile.
  cbv zeta in Hfile.
  do 6 eexists. exists (toUint8 <$> vs), (toUint8 <$> vd).
  split; [| split; [exact Hrs | exact Hrd]].
  rewrite Hfile. do 3 f_equal.
  unfold nameEvent, tempoEvent. rewrite !fmap_app. cbn [fmap list_fmap name t].
  rewrite !toUint8_ofZ by lia. rewrite <- list_fmap_compose.
  rewrite <- !app_assoc. reflexivity.
Qed.

Lemma single_note_file_witness :
  (6 <= 6)%nat /\ 0 <= 960 < 2 ^ 31 /\ 0 <= 240 < 2 ^ 31 /\
  exists (hi lo b3 b2 b1 b0 : Z) (vs vd : list Z),
    saveMidiFile 6 (mkMidiData (Fin 480) [mkTrack [] [mkNote (Fin 69) (ofZ 960) (ofZ 240) (Fin 100)]]) =
      Some ([0x4D; 0x54; 0x68; 0x64; 0; 0; 0; 6; 0; 1; 0; 1; hi; lo]
            ++ [0x4D; 0x54; 0x72; 0x6B; b3; b2; b1; b0]
            ++ ([0x00; 0xFF; 0x03; toUint8 (ofNat (length (@nil nat)))]
                ++ ((fun c => toUint8 (ofNat c)) <$> [])
                ++ [0x00; 0xFF; 0x51; 0x03; 0x07; 0xA1; 0x20]
                ++ vs ++ [0x90; toUint8 (Fin 69); toUint8 (Fin 100)]
                ++ vd ++ [0x80; toUint8 (Fin 69); 0])
            ++ [0x00; 0xFF; 0x2F; 0x00]) /\
    (forall rest, readVariableLength 0 (vs ++ rest) = Some (960, rest)) /\
    (forall rest, readVariableLength 0 (vd ++ rest) = Some (240, rest)).
Proof.
  split; [lia |]. split; [lia |]. split; [lia |].
  apply (single_note_file 6 (Fin 480) [] (Fin 69) (Fin 100) 960 240); lia.
Defined.

Local Open Scope R_scope.


End MidiFileProperties.

Section RendererProperties.

Import MidiUtils Renderer.

Local Open Scope R_scope.

(** X24.  The persistence score is a number of [[0, 1]].  On every history
    of finite times whose amplitudes lie in [[0, 255]], the range of the
    smoothed bytes that [updateSpectrogramm] stores,
    [calculatePersistenceScore] returns a finite value between 0 and 1.  It
    returns 0 on the empty history and on a history whose amplitudes are all
    at most 38, the largest byte below the threshold [0.15 * 255 = 38.25].
    (The bound on the amplitudes keeps the sums within the range of the
    code's numbers; on exact reals the proof does not need it.) *)
Theorem calculatePersistenceScore_range (tas : list (R * R)) :
  Forall (fun p => 0 <= p.2 <= 255) tas ->
  let history := (fun p => mkEntry (Fin p.1) (Fin p.2)) <$> tas in
  (exists r, calculatePersistenceScore history = Fin r /\ 0 <= r <= 1) /\
  (tas = [] -> calculatePersistenceScore history = Fin 0) /\
  (Forall (fun p => p.2 <= 38) tas -> calculatePersistenceScore history = Fin 0).
Proof.
  intros _. cbv zeta.
  destruct (last tas) as [tl |] eqn:Elast.
  2:{ apply last_None in Elast. subst tas. split; [| split; reflexivity].
      exists 0. split; [reflexivity | lra]. }
  destruct (score_finite tas tl Elast) as [Hne Hscore]. cbv zeta in Hscore.
  set (recent := List.filter (fun p => Rleb (tl.1 - 500) p.1) tas) in *.
  assert (Hpos : (0 < length recent)%nat) by (destruct recent; [congruence | simpl; lia]).
  assert (Hn : 0 < INR (length recent)) by (apply lt_0_INR; lia).
  set (avg := sumR (snd <$> recent) / INR (length recent)) in *.
  split; [| split].
  - rewrite Hscore.
    destruct (Rltb_cases avg (15 / 100 * 255)) as [[-> Hlt] | [-> Hge]].
    + exists 0. split; [reflexivity | lra].
    + rewrite max_0_Fin. eexists. split; [reflexivity |].
      set (sd := R_sqrt.sqrt _).
      assert (0 <= sd) by apply sqrt_pos.
      assert (0 <= sd / avg) by (apply Rmult_le_pos; [lra |];
                                 apply Rlt_le, Rinv_0_lt_compat; lra).
      unfold Rmax. destruct (Rle_dec 0 (1 - sd / avg)); lra.
  - intros ->. discriminate.
  - intros Hall. rewrite Hscore. rewrite Rltb_true; [reflexivity |].
    assert (Hrec : Forall (fun r => r < 15 / 100 * 255) (snd <$> recent)).
    { apply Forall_fmap. apply Forall_forall. intros p Hp.
      apply list_elem_of_In, filter_In in Hp as [Hp _].
      rewrite Forall_forall in Hall. apply list_elem_of_In in Hp.
      specialize (Hall p Hp). cbn [compose]. simpl in Hall. lra. }
    pose proof (sumR_bounded (snd <$> recent) _
                  ltac:(destruct recent; [congruence | discriminate]) Hrec) as Hsum.
    rewrite length_fmap in Hsum. unfold avg.
    apply Rmult_lt_reg_r with (INR (length recent)); [exact Hn |].
    replace (sumR (snd <$> recent) / INR (length recent) * INR (length recent))
      with (sumR (snd <$> recent)) by (field; lra).
    lra.
Qed.

Lemma calculatePersistenceScore_range_witness :
  Forall (fun p : R * R => 0 <= p.2 <= 255) [(0, 40); (16, 200)] /\
  let history :=
    (fun p : R * R => mkEntry (Fin p.1) (Fin p.2)) <$> [(0, 40); (16, 200)] in
  (exists r, calculatePersistenceScore history = Fin r /\ 0 <= r <= 1) /\
  ([(0, 40); (16, 200)] = [] -> calculatePersistenceScore history = Fin 0) /\
  (Forall (fun p : R * R => p.2 <= 38) [(0, 40); (16, 200)] ->
   calculatePersistenceScore history = Fin 0).
Proof.
  assert (H : Forall (fun p : R * R => 0 <= p.2 <= 255) [(0, 40); (16, 200)])
    by (repeat constructor; simpl; lra).
  split; [exact H |].
  apply (calculatePersistenceScore_range [(0, 40); (16, 200)] H).
Defined.

(** X25.  A steady tone scores 1: a non-empty history (of finite times)
    whose amplitudes all equal the same byte [z] of [39 .. 255], the bytes
    that reach the threshold [0.15 * 255 = 38.25], has a persistence score of
    exactly 1.  (On integers of this size the sum, the average and the
    differences are computed without rounding.) *)
Theorem steady_history_scores_one (ts : list R) (z : Z) :
  ts <> [] -> (39 <= z <= 255)%Z ->
  calculatePersistenceScore ((fun t => mkEntry (Fin t) (ofZ z)) <$> ts) = Fin 1.
Proof.
  intros Hne [Hz _]. apply IZR_le in Hz.
  assert (Ha : 15 / 100 * 255 <= IZR z) by lra.
  unfold ofZ. set (a := IZR z) in *. clearbody a. clear Hz.
  set (tas := (fun t => (t, a)) <$> ts).
  assert (E : (fun t => mkEntry (Fin t) (Fin a)) <$> ts
              = (fun p : R * R => mkEntry (Fin p.1) (Fin p.2)) <$> tas)
    by (unfold tas; rewrite <- list_fmap_compose; reflexivity).
  rewrite E.
  destruct (last tas) as [tl |] eqn:Elast.
  2:{ apply last_None in Elast. unfold tas in Elast.
      apply fmap_nil_inv in Elast. congruence. }
  destruct (score_finite tas tl Elast) as [Hrne Hscore]. cbv zeta in Hscore.
  rewrite Hscore. clear Hscore.
  set (recent := List.filter (fun p => Rleb (tl.1 - 500) p.1) tas) in *.
  assert (Hpos : (0 < length recent)%nat) by (destruct recent; [congruence | simpl; lia]).
  assert (Hn : 0 < INR (length recent)) by (apply lt_0_INR; lia).
  assert (Hall : Forall (fun p : R * R => p.2 = a) recent).
  { apply Forall_forall. intros p Hp.
    apply list_elem_of_In, filter_In in Hp as [Hp _]. apply list_elem_of_In in Hp.
    unfold tas in Hp. apply list_elem_of_fmap in Hp as (t & -> & _). reflexivity. }
  assert (Havg : sumR (snd <$> recent) / INR (length recent) = a).
  { rewrite (sumR_constant (snd <$> recent) a) by (now apply Forall_fmap).
    rewrite length_fmap. field. lra. }
  rewrite Havg. rewrite Rltb_false by lra.
  assert (Hsq : sumR ((fun p : R * R => (p.2 - a) * (p.2 - a)) <$> recent) = 0).
  { rewrite (sumR_constant _ 0); [ring |].
    apply Forall_fmap. eapply Forall_impl; [exact Hall |].
    intros p Hp. simpl in *. rewrite Hp. ring. }
  rewrite Hsq. replace (0 / INR (length recent)) with 0 by (field; lra).
  rewrite sqrt_0. replace (1 - 0 / a) with 1 by (field; lra).
  rewrite max_0_Fin. f_equal. unfold Rmax. destruct (Rle_dec 0 1); lra.
Qed.

Lemma steady_history_scores_one_witness :
  ([0; 16] : list R) <> [] /\ (39 <= 100 <= 255)%Z /\
  calculatePersistenceScore ((fun t => mkEntry (Fin t) (ofZ 100)) <$> [0; 16]) = Fin 1.
Proof.
  split; [discriminate |]. split; [lia |].
  apply (steady_history_scores_one [0; 16] 100); [discriminate | lia].
Defined.



Let toNote (n : drawnNote) : note :=
  let startTick := round (mul (div (x n) PIXELS_PER_BEAT) TICKS_PER_BEAT) in
  let duration := round (mul (div (width n) PIXELS_PER_BEAT) TICKS_PER_BEAT) in
  mkNote (frequencyToMIDI (frequency n)) startTick
    (max duration (div TICKS_PER_BEAT (Fin 4))) (Fin 100).

Lemma createMidiData_notes (drawnNotes : list drawnNote) :
  drawnNotes <> [] ->
  createMidiData drawnNotes
  = Some (mkMidiData (Fin 480)
            [mkTrack spectrogramNotes
               (toNote <$> sortArray (fun p q => sub (x p) (x q)) drawnNotes)]).
Proof.
  intros Hne. unfold createMidiData.
  destruct drawnNotes as [|n l]; [congruence |]. reflexivity.
Qed.



(** X27.  The export always ends and writes a well-formed header.  With
    nothing drawn [exportToMidi] saves no file.  With at least one drawn
    note, whatever the notes hold, it returns (six tests of the [while] loop
    suffice) and the file begins with the header chunk of a format-1 file of
    one track and [480 = 0x01E0] ticks per beat. *)
Theorem exportToMidi_header (fuel : nat) (drawnNotes : list drawnNote) :
  (6 <= fuel)%nat ->
  exportToMidi fuel [] = Some None /\
  (drawnNotes <> [] ->
   exists rest : list Z,
     exportToMidi fuel drawnNotes
     = Some (Some ([0x4D; 0x54; 0x68; 0x64; 0; 0; 0; 6; 0; 1; 0; 1; 0x01; 0xE0]%Z ++ rest))).
Proof.
  intros Hfuel. split; [reflexivity |]. intros Hne.
  unfold exportToMidi. rewrite createMidiData_notes by assumption.
  set (t := mkTrack spectrogramNotes _).
  destruct (trackDataOf_returns fuel
              (toDeltaTimes (sortArray (fun a b => sub (get a 0) (get b 0)) (pushedEvents t)))
              Hfuel) as [data Hdata].
  rewrite (fileData_chunks fuel (mkMidiData (Fin 480) [t]) t [] data eq_refl Hdata).
  cbn [fmap option_fmap option_map ticksPerBeat].
  destruct ticks_480 as [-> ->].
  eexists. reflexivity.
Qed.

Lemma exportToMidi_header_witness :
  (6 <= 6)%nat /\
  exportToMidi 6 [] = Some None /\
  ([mkDrawnNote (Fin 50) (Fin 10) (Fin 20) (Fin 440)] <> [] ->
   exists rest : list Z,
     exportToMidi 6 [mkDrawnNote (Fin 50) (Fin 10) (Fin 20) (Fin 440)]
     = Some (Some ([0x4D; 0x54; 0x68; 0x64; 0; 0; 0; 6; 0; 1; 0; 1; 0x01; 0xE0]%Z ++ rest))).
Proof.
  split; [lia |].
  apply (exportToMidi_header 6 [mkDrawnNote (Fin 50) (Fin 10) (Fin 20) (Fin 440)]). lia.
Defined.

End RendererProperties.

Section SecondHalf.

Local Open Scope R_scope.



End SecondHalf.
